(** * A JSON codec: [myStringify] and [myParse]

    Shallow embedding of the two functions of the repository
    ([myStringify], the serializer, and [myParse], the parser) and the
    properties of their specification.

    Conventions of the embedding.
    - A JavaScript string is a sequence of UTF-16 code units; a code unit
      is a number below 65536, kept here as an [N].
    - [String(x)], [Number(s)] and [isFinite(x)] on numbers are primitives
      of the language, not code of the repository, and the length of the
      longest string is a constant of the engine: they are the fields of
      the class [NumberImpl]; every general theorem holds for any
      implementation of them.
    - The serializer only reads its argument, which may be shared or
      cyclic: its input lives in a store of containers addressed by
      location, and identity of containers is equality of locations.
    - The replacer is a closure: its answer may depend on the calls made
      to it before, which the state of the serializer keeps on record.
      It returns an answer at every call and leaves the containers of
      the store as they are.
    - The parser builds fresh, unshared containers: its result is a tree.
      An object of the tree has its own entries and, when an entry
      [__proto__] of the text has set it, its prototype.
    - The nested functions of the source that recurse without an evident
      bound carry a [fuel] argument; running out of it is the outcome
      [Timeout], which stands for a call that has not returned within
      the steps the fuel allows. *)

From Stdlib Require Import String Ascii List NArith ZArith Bool Lia Arith.
From Stdlib Require Import DecimalString.
Import ListNotations.

Set Implicit Arguments.
Set Warnings "-register-all".

(* ================================================================== *)
(** ** Strings *)

Definition codeunit := N.
Definition jsstring := list codeunit.

Definition ch (a : ascii) : codeunit := N_of_ascii a.
Arguments ch a%_char : simpl never.

(** A literal of the source, read one code unit per character. *)
Definition lit (s : string) : jsstring := map N_of_ascii (list_ascii_of_string s).
Arguments lit s%_string.

(** A literal in which the apostrophe stands for the double quote, so
    that JSON texts can be written down, as in [{'a':1}]. The comments
    below write JSON texts and JavaScript strings in the same way. *)
Definition qlit (s : string) : jsstring :=
  map (fun c => if N.eqb c (ch "'") then 34%N else c) (lit s).
Arguments qlit s%_string.

Definition QUOTE : codeunit := 34%N.
Definition BACKSLASH : codeunit := 92%N.
Definition BS : codeunit := 8%N.
Definition TAB : codeunit := 9%N.
Definition LF : codeunit := 10%N.
Definition VT : codeunit := 11%N.
Definition FF : codeunit := 12%N.
Definition CR : codeunit := 13%N.
Definition SPACE : codeunit := 32%N.
Definition NBSP : codeunit := 160%N.

Fixpoint jsstring_eqb (a b : jsstring) : bool :=
  match a, b with
  | [], [] => true
  | x :: a', y :: b' => N.eqb x y && jsstring_eqb a' b'
  | _, _ => false
  end.

(** [s.repeat(n)] *)
Fixpoint repeatString (s : jsstring) (n : nat) : jsstring :=
  match n with
  | O => []
  | S n' => s ++ repeatString s n'
  end.

(** [pieces.join(sep)] on an array of strings. *)
Fixpoint join (sep : jsstring) (pieces : list jsstring) : jsstring :=
  match pieces with
  | [] => []
  | [p] => p
  | p :: rest => p ++ sep ++ join sep rest
  end.

(** A string is truthy when it is not empty. *)
Definition truthy (s : jsstring) : bool :=
  match s with [] => false | _ :: _ => true end.

(** Decimal text of an array index, as [for ... in] gives it. *)
Definition indexKey (i : nat) : jsstring :=
  lit (NilZero.string_of_uint (Nat.to_uint i)).

(* ================================================================== *)
(** ** Numbers *)

Class NumberImpl := {
  number : Type;
  (** [isFinite(x)] *)
  isFinite : number -> bool;
  (** [String(x)] *)
  numberToString : number -> jsstring;
  (** [Number(s)] *)
  stringToNumber : jsstring -> number;
  (** The length of the longest string: a string that would be longer
      is not built, the operation throws a [RangeError]. *)
  maxStringLength : N
}.

(* ================================================================== *)
(** ** Outcomes and the state-and-exception monad *)

(** The messages of the syntax errors. The two that the source writes
    with a placeholder, for the character and for the literal, are
    strings between double quotes and not templates: the placeholder is
    part of the message, which is the same whatever was read. *)
Inductive syntax_message :=
| UnexpectedCharacter
| ExpectedColon
| ExpectedComma
| UnexpectedToken
| InvalidNumber
| UnexpectedExtraCharacters.

Inductive exn :=
| SyntaxError (m : syntax_message)
| TypeError_cyclic_object_value
(** [RangeError: Invalid string length] *)
| RangeError_invalid_string_length
(** Not an error of the language: the store has no container at a
    location. Never raised on a store that is [closed]. *)
| DanglingLocation.

Inductive outcome (A : Type) :=
| Return (a : A)
| Throw (e : exn)
| Timeout.
Arguments Return {A} a.
Arguments Throw {A} e.
Arguments Timeout {A}.

Definition M (St A : Type) := St -> outcome (A * St).

Definition ret {St A} (a : A) : M St A := fun s => Return (a, s).

Definition bind {St A B} (m : M St A) (k : A -> M St B) : M St B :=
  fun s =>
    match m s with
    | Return (a, s') => k a s'
    | Throw e => Throw e
    | Timeout => Timeout
    end.

Definition throw {St A} (e : exn) : M St A := fun _ => Throw e.
Definition timeout {St A} : M St A := fun _ => Timeout.
Definition get {St} : M St St := fun s => Return (s, s).

Notation "x <- m ;; k" := (bind m (fun x => k))
  (at level 61, m at next level, right associativity).
Notation "m ;;; k" := (bind m (fun _ => k))
  (at level 61, right associativity).

(** [xs.map(f)] where [f] has effects: left to right. *)
Fixpoint mapM {St A B} (f : A -> M St B) (xs : list A) : M St (list B) :=
  match xs with
  | [] => ret []
  | x :: xs' =>
      y <- f x ;;
      ys <- mapM f xs' ;;
      ret (y :: ys)
  end.

(** [xs.filter(p)] where [p] has effects: left to right. *)
Fixpoint filterM {St A} (p : A -> M St bool) (xs : list A) : M St (list A) :=
  match xs with
  | [] => ret []
  | x :: xs' =>
      b <- p x ;;
      ys <- filterM p xs' ;;
      ret (if b then x :: ys else ys)
  end.

(* ================================================================== *)
(** ** The serializer: [myStringify] *)

Definition loc := nat.

Section Values.
Context {NI : NumberImpl}.

(** What the serializer can be handed. [JRef l] is the container (array
    or plain object) stored at [l]; [JFunction] stands for any value
    whose [typeof] is none of string, number, boolean and object. *)
Inductive jsval :=
| JNull
| JBoolean (b : bool)
| JNumber (n : number)
| JString (s : jsstring)
| JRef (l : loc)
| JUndefined
| JFunction.

(** An array is a list of slots, [None] being a hole; an object is the
    list of its own enumerable entries in the order of [Object.entries]. *)
Inductive container :=
| CArray (items : list (option jsval))
| CObject (entries : list (jsstring * jsval)).

Definition store := list container.

Record sstate := {
  stack : list loc;
  (** The calls made to the replacer so far, oldest first. *)
  calls : list (jsstring * jsval)
}.

Definition push (l : loc) : M sstate unit :=
  fun s => Return (tt, {| stack := stack s ++ [l]; calls := calls s |}).

Definition pop : M sstate unit :=
  fun s => Return (tt, {| stack := removelast (stack s); calls := calls s |}).

Definition record_call (key : jsstring) (value : jsval) : M sstate unit :=
  fun s => Return (tt, {| stack := stack s; calls := calls s ++ [(key, value)] |}).

(** [stack.includes(value)] for a container: identity is the location. *)
Definition includes (l : loc) (st : list loc) : bool :=
  existsb (Nat.eqb l) st.

(** The table [escapes] of [escapeString]. *)
Definition escapes (char : codeunit) : option jsstring :=
  if N.eqb char QUOTE then Some [BACKSLASH; QUOTE]
  else if N.eqb char BACKSLASH then Some [BACKSLASH; BACKSLASH]
  else if N.eqb char BS then Some [BACKSLASH; ch "b"]
  else if N.eqb char FF then Some [BACKSLASH; ch "f"]
  else if N.eqb char LF then Some [BACKSLASH; ch "n"]
  else if N.eqb char CR then Some [BACKSLASH; ch "r"]
  else if N.eqb char TAB then Some [BACKSLASH; ch "t"]
  else None.

(** The class of the regular expression of [escapeString]:
    quote, backslash, backspace, form feed, newline, carriage return, tab. *)
Definition escapeClass (char : codeunit) : bool :=
  N.eqb char QUOTE || N.eqb char BACKSLASH || N.eqb char BS || N.eqb char FF
  || N.eqb char LF || N.eqb char CR || N.eqb char TAB.

Definition escapeString (str : jsstring) : jsstring :=
  flat_map (fun char =>
              if escapeClass char
              then match escapes char with Some e => e | None => [char] end
              else [char]) str.

(** [x ?? d] *)
Definition nullish (x : option jsstring) (d : jsstring) : jsstring :=
  match x with Some s => s | None => d end.

(** A value inside a template literal: [undefined] prints as its name. *)
Definition template (x : option jsstring) : jsstring :=
  match x with Some s => s | None => lit "undefined" end.

(** An element of the array handed to [join]: a hole joins as nothing. *)
Definition joined (x : option jsstring) : jsstring :=
  match x with Some s => s | None => [] end.

Definition isSome {A} (x : option A) : bool :=
  match x with Some _ => true | None => false end.

(** The replacer, when there is one, is a closure. What it answers may
    depend, besides its two arguments, on the calls made to it before,
    oldest first, which stand for whatever state it keeps from call to
    call. It is taken to return, and what it returns to be a value of
    the same store, which it leaves as it is. *)
Definition replacer_fn := list (jsstring * jsval) -> jsstring -> jsval -> jsval.

Section Serializer.
Variable heap : store.
Variable replacerFn : option replacer_fn.
Variable indent : jsstring.

Definition applyReplacer (key : jsstring) (value : jsval) : M sstate jsval :=
  match replacerFn with
  | Some f =>
      s <- get ;;
      record_call key value ;;;
      ret (f (calls s) key value)
  | None => ret value
  end.

Section Containers.
(** The recursive calls to [stringifyValue]. *)
Variable stringifyValue : jsstring -> jsval -> nat -> M sstate (option jsstring).

Definition stringifyArray (array : loc) (items : list (option jsval)) (depth : nat)
  : M sstate (option jsstring) :=
  push array ;;;
  pieces <- mapM (fun slot =>
                    match slot with
                    | Some item =>
                        r <- stringifyValue [] item (depth + 1) ;;
                        ret (Some (nullish r (lit "null")))
                    | None => ret None
                    end) items ;;
  let result :=
    join (if truthy indent then lit "," ++ [LF] ++ repeatString indent (depth + 1)
          else lit ",")
         (map joined pieces) in
  pop ;;;
  ret (Some (lit "[" ++
             (if truthy indent
              then [LF] ++ repeatString indent (depth + 1) ++ result ++ [LF]
                   ++ repeatString indent depth
              else result) ++
             lit "]")).

Definition stringifyObject (obj : loc) (entries : list (jsstring * jsval)) (depth : nat)
  : M sstate (option jsstring) :=
  push obj ;;;
  kept <- filterM (fun entry =>
                     r <- stringifyValue (fst entry) (snd entry) depth ;;
                     ret (isSome r)) entries ;;
  pieces <- mapM (fun entry =>
                    r <- stringifyValue (fst entry) (snd entry) (depth + 1) ;;
                    ret ((if truthy indent then repeatString indent (depth + 1) else [])
                         ++ [QUOTE] ++ fst entry ++ [QUOTE] ++ lit ":"
                         ++ (if truthy indent then lit " " else [])
                         ++ template r)) kept ;;
  let result := join (if truthy indent then lit "," ++ [LF] else lit ",") pieces in
  pop ;;;
  ret (Some (lit "{" ++
             (if truthy indent
              then [LF] ++ result ++ [LF] ++ repeatString indent depth
              else result) ++
             lit "}")).

End Containers.

Fixpoint stringifyValue (fuel : nat) (key : jsstring) (value : jsval) (depth : nat)
  : M sstate (option jsstring) :=
  match fuel with
  | O => timeout
  | S fuel' =>
      value <- applyReplacer key value ;;
      match value with
      | JNull => ret (Some (lit "null"))
      | JString s => ret (Some ([QUOTE] ++ escapeString s ++ [QUOTE]))
      | JNumber n => ret (Some (if isFinite n then numberToString n else lit "null"))
      | JBoolean b => ret (Some (if b then lit "true" else lit "false"))
      | JRef l =>
          s <- get ;;
          if includes l (stack s) then throw TypeError_cyclic_object_value
          else match nth_error heap l with
               | Some (CArray items) => stringifyArray (stringifyValue fuel') l items depth
               | Some (CObject entries) => stringifyObject (stringifyValue fuel') l entries depth
               | None => throw DanglingLocation
               end
      | JUndefined | JFunction => ret None
      end
  end.

End Serializer.

(** The third argument of [myStringify]. [SpaceOther] is [null] or any
    other falsy value that is neither a number nor a string. *)
Inductive space_arg :=
| SpaceNumber (n : nat)
| SpaceString (s : jsstring)
| SpaceOther.

Definition indentOf (space : space_arg) : jsstring :=
  match space with
  | SpaceNumber n => repeatString (lit " ") n
  | SpaceString s => s
  | SpaceOther => []
  end.

Definition initial : sstate := {| stack := []; calls := [] |}.

(** The whole call, with the final state kept. *)
Definition runStringify (fuel : nat) (heap : store) (value : jsval)
           (replacer : option replacer_fn) (space : space_arg)
  : outcome (option jsstring * sstate) :=
  stringifyValue heap replacer (indentOf space) fuel [] value 0 initial.

Definition myStringify (fuel : nat) (heap : store) (value : jsval)
           (replacer : option replacer_fn) (space : space_arg)
  : outcome (option jsstring) :=
  match runStringify fuel heap value replacer space with
  | Return (r, _) => Return r
  | Throw e => Throw e
  | Timeout => Timeout
  end.

End Values.

(* ================================================================== *)
(** ** The parser: [myParse] *)

Section Trees.
Context {NI : NumberImpl}.

(** What the parser returns. A slot [None] of an array is a hole, left
    by [delete]. The entries of an object are in the order of its own
    property keys. The prototype of [VObject entries] is
    [Object.prototype], as for every object literal; [VObjectProto proto
    entries] is an object whose prototype an assignment to [__proto__]
    has set, to [null] when [proto] is [None] and to a container that
    was parsed before when it is [Some] of it. *)
Inductive value :=
| VNull
| VBoolean (b : bool)
| VNumber (n : number)
| VString (s : jsstring)
| VArray (items : list (option value))
| VObject (entries : list (jsstring * value))
| VObjectProto (proto : option value) (entries : list (jsstring * value))
| VUndefined.

(** [typeof v === 'object' && v !== null] *)
Definition isContainer (v : value) : bool :=
  match v with
  | VArray _ | VObject _ | VObjectProto _ _ => true
  | _ => false
  end.

(** *** Own properties *)

Fixpoint obj_get (key : jsstring) (entries : list (jsstring * value)) : option value :=
  match entries with
  | [] => None
  | (k, v) :: rest => if jsstring_eqb k key then Some v else obj_get key rest
  end.

Fixpoint obj_delete (key : jsstring) (entries : list (jsstring * value))
  : list (jsstring * value) :=
  match entries with
  | [] => []
  | (k, v) :: rest => if jsstring_eqb k key then rest else (k, v) :: obj_delete key rest
  end.

(** Overwrite the value of an own key where it stands. *)
Fixpoint obj_replace (key : jsstring) (v : value) (entries : list (jsstring * value))
  : list (jsstring * value) :=
  match entries with
  | [] => []
  | (k, w) :: rest =>
      if jsstring_eqb k key then (k, v) :: rest else (k, w) :: obj_replace key v rest
  end.

Definition isDigitUnit (c : codeunit) : bool := N.leb 48 c && N.leb c 57.

(** The number a key denotes when it is an array index: a canonical
    decimal numeral below 2^32 - 1. Such keys come first among the own
    keys of an object, in ascending order. *)
Definition arrayIndex (key : jsstring) : option N :=
  match key with
  | [] => None
  | c :: rest =>
      if forallb isDigitUnit key && (negb (N.eqb c 48) || match rest with [] => true | _ => false end)
      then let n := fold_left (fun acc d => (acc * 10 + (d - 48))%N) key 0%N in
           if N.ltb n 4294967295 then Some n else None
      else None
  end.

(** Where a new key goes: an array index before the first key that is
    not an array index or is a larger one; any other key at the end. *)
Fixpoint obj_insert (key : jsstring) (v : value) (entries : list (jsstring * value))
  : list (jsstring * value) :=
  match entries with
  | [] => [(key, v)]
  | (k, w) :: rest =>
      match arrayIndex key, arrayIndex k with
      | Some n, Some m => if N.ltb n m then (key, v) :: entries
                          else (k, w) :: obj_insert key v rest
      | Some _, None => (key, v) :: entries
      | None, _ => (k, w) :: obj_insert key v rest
      end
  end.

(** The own entries of an object, and the object with other entries. *)
Definition entriesOf (obj : value) : list (jsstring * value) :=
  match obj with
  | VObject entries | VObjectProto _ entries => entries
  | _ => []
  end.

Definition withEntries (obj : value) (entries : list (jsstring * value)) : value :=
  match obj with
  | VObject _ => VObject entries
  | VObjectProto proto _ => VObjectProto proto entries
  | _ => obj
  end.

(** An assignment to a key [__proto__] that the object does not own
    looks the key up along the prototypes. It ends at the accessor of
    [Object.prototype] when no object on the way owns the key and the
    way does not end at [null]. [reachesAccessor v] is whether it does
    from [v] on: an array owns no such key and has [Object.prototype]
    behind its own prototype. *)
Fixpoint reachesAccessor (v : value) : bool :=
  match v with
  | VObject entries => negb (isSome (obj_get (lit "__proto__") entries))
  | VObjectProto proto entries =>
      negb (isSome (obj_get (lit "__proto__") entries))
      && match proto with
         | Some p => reachesAccessor p
         | None => false
         end
  | _ => true
  end.

(** Whether the prototype of [obj] leads to the accessor. *)
Definition inheritsAccessor (obj : value) : bool :=
  match obj with
  | VObject _ => true
  | VObjectProto (Some p) _ => reachesAccessor p
  | _ => false
  end.

(** The accessor [__proto__] of [Object.prototype] called on [obj] with
    [v]: the prototype of [obj] becomes [v] when [v] is an object or
    [null], and nothing is done for another [v]. *)
Definition setPrototype (v : value) (obj : value) : value :=
  match v with
  | VNull => VObjectProto None (entriesOf obj)
  | VArray _ | VObject _ | VObjectProto _ _ => VObjectProto (Some v) (entriesOf obj)
  | _ => obj
  end.

(** [obj[key] = v] on an object. An own key is overwritten where it
    stands. A key that is not an own key becomes one, unless it is
    [__proto__] and the assignment ends at the accessor, which makes no
    entry. *)
Definition obj_set (key : jsstring) (v : value) (obj : value) : value :=
  match obj_get key (entriesOf obj) with
  | Some _ => withEntries obj (obj_replace key v (entriesOf obj))
  | None =>
      if jsstring_eqb key (lit "__proto__") && inheritsAccessor obj
      then setPrototype v obj
      else withEntries obj (obj_insert key v (entriesOf obj))
  end.

Fixpoint arr_set (i : nat) (slot : option value) (items : list (option value))
  : list (option value) :=
  match items, i with
  | [], _ => []
  | _ :: rest, O => slot :: rest
  | x :: rest, S i' => x :: arr_set i' slot rest
  end.

(** The keys of a holder. *)
Inductive propkey :=
| KIndex (i : nat)
| KName (s : jsstring).

Definition keyString (k : propkey) : jsstring :=
  match k with
  | KIndex i => indexKey i
  | KName s => s
  end.

Fixpoint indicesFrom (i : nat) (items : list (option value)) : list propkey :=
  match items with
  | [] => []
  | Some _ :: rest => KIndex i :: indicesFrom (S i) rest
  | None :: rest => indicesFrom (S i) rest
  end.

(** The keys [for (const key in holder)] goes through. *)
Definition ownKeys (holder : value) : list propkey :=
  match holder with
  | VArray items => indicesFrom 0 items
  | VObject entries | VObjectProto _ entries => map (fun e => KName (fst e)) entries
  | _ => []
  end.

(** [holder[key]] when [Object.hasOwn(holder, key)], else [None]. *)
Definition getProp (holder : value) (key : propkey) : option value :=
  match holder, key with
  | VArray items, KIndex i => match nth_error items i with Some slot => slot | None => None end
  | VObject entries, KName s | VObjectProto _ entries, KName s => obj_get s entries
  | _, _ => None
  end.

(** [holder[key] = v] for a key the holder owns. *)
Definition setProp (holder : value) (key : propkey) (v : value) : value :=
  match holder, key with
  | VArray items, KIndex i => VArray (arr_set i (Some v) items)
  | VObject _, KName s | VObjectProto _ _, KName s => obj_set s v holder
  | _, _ => holder
  end.

(** [delete holder[key]] *)
Definition deleteProp (holder : value) (key : propkey) : value :=
  match holder, key with
  | VArray items, KIndex i => VArray (arr_set i None items)
  | VObject entries, KName s => VObject (obj_delete s entries)
  | VObjectProto proto entries, KName s => VObjectProto proto (obj_delete s entries)
  | _, _ => holder
  end.

(** The container [holder[key]] was changed in place into [v]. *)
Definition updateProp (holder : value) (key : propkey) (v : value) : value :=
  match holder, key with
  | VArray items, KIndex i => VArray (arr_set i (Some v) items)
  | VObject entries, KName s => VObject (obj_replace s v entries)
  | VObjectProto proto entries, KName s => VObjectProto proto (obj_replace s v entries)
  | _, _ => holder
  end.

(** *** The reviver

    A reviver is taken to be a function of its two arguments alone that
    either hands back the value it was given ([Same]) or a value built
    anew that shares no container with the parsed tree ([Fresh]);
    [Fresh VUndefined] is the result [undefined]. *)
Inductive revived :=
| Same
| Fresh (v : value).

Definition newValueOf (r : revived) (v : value) : value :=
  match r with
  | Same => v
  | Fresh w => w
  end.

Record pstate := {
  index : nat;
  (** The calls made to the reviver so far, oldest first. *)
  reviverCalls : list (jsstring * value)
}.

Definition isUndefined (v : value) : bool :=
  match v with VUndefined => true | _ => false end.

(** The class [\s] of regular expressions: white space and line
    terminators. *)
Definition whitespace (c : codeunit) : bool :=
  (N.leb 9 c && N.leb c 13) || N.eqb c 32 || N.eqb c 160 || N.eqb c 5760
  || (N.leb 8192 c && N.leb c 8202) || N.eqb c 8232 || N.eqb c 8233
  || N.eqb c 8239 || N.eqb c 8287 || N.eqb c 12288 || N.eqb c 65279.

(** [/\s/.test(x)] for [x] a character of the text or [undefined]; the
    text of [undefined] has no white space in it. *)
Definition testWhitespace (x : option codeunit) : bool :=
  match x with
  | Some c => whitespace c
  | None => false
  end.

(** The table [escapes] of [parseString]. *)
Definition unescapes (c : codeunit) : option codeunit :=
  if N.eqb c QUOTE then Some QUOTE
  else if N.eqb c BACKSLASH then Some BACKSLASH
  else if N.eqb c (ch "/") then Some (ch "/")
  else if N.eqb c (ch "b") then Some BS
  else if N.eqb c (ch "f") then Some FF
  else if N.eqb c (ch "n") then Some LF
  else if N.eqb c (ch "r") then Some CR
  else if N.eqb c (ch "t") then Some TAB
  else None.

(** What [escapes[escapeChar] || escapeChar] is for a character. *)
Definition unescaped (e : codeunit) : codeunit :=
  match unescapes e with Some u => u | None => e end.

(** [char >= '0' && char <= '9'] *)
Definition isDigit (x : option codeunit) : bool :=
  match x with
  | Some c => isDigitUnit c
  | None => false
  end.

(** *** The regular expression of [parseNumber]
    [-?\d+(\.\d+)?([eE][+-]?\d+)?], anchored where the text [s] begins;
    the result is the length of the match. *)
Fixpoint digitRun (s : jsstring) : nat :=
  match s with
  | c :: s' => if isDigitUnit c then S (digitRun s') else 0
  | [] => 0
  end.

Definition matchSign (s : jsstring) : nat :=
  match s with
  | c :: _ => if N.eqb c (ch "-") then 1 else 0
  | [] => 0
  end.

Definition matchFraction (s : jsstring) : nat :=
  match s with
  | c :: s' => if N.eqb c (ch ".") && Nat.ltb 0 (digitRun s') then 1 + digitRun s' else 0
  | [] => 0
  end.

Definition matchExponent (s : jsstring) : nat :=
  match s with
  | c :: s' =>
      if N.eqb c (ch "e") || N.eqb c (ch "E") then
        let sign := match s' with
                    | c' :: _ => if N.eqb c' (ch "+") || N.eqb c' (ch "-") then 1 else 0
                    | [] => 0
                    end in
        let d := digitRun (skipn sign s') in
        if Nat.ltb 0 d then 1 + sign + d else 0
      else 0
  | [] => 0
  end.

Definition numberRegex (s : jsstring) : option nat :=
  let sign := matchSign s in
  let d := digitRun (skipn sign s) in
  if Nat.eqb d 0 then None
  else
    let frac := matchFraction (skipn (sign + d) s) in
    let expo := matchExponent (skipn (sign + d + frac) s) in
    Some (sign + d + frac + expo).

Section Parser.
Variable json : jsstring.
Variable reviver : option (jsstring -> value -> revived).

Definition charAt (i : nat) : option codeunit := nth_error json i.

(** [json[index]] *)
Definition peek : M pstate (option codeunit) :=
  fun s => Return (charAt (index s), s).

(** [index += n] *)
Definition advance (n : nat) : M pstate unit :=
  fun s => Return (tt, {| index := index s + n; reviverCalls := reviverCalls s |}).

Definition record_revival (key : jsstring) (v : value) : M pstate unit :=
  fun s => Return (tt, {| index := index s; reviverCalls := reviverCalls s ++ [(key, v)] |}).

Definition charIs (c : codeunit) (x : option codeunit) : bool :=
  match x with
  | Some d => N.eqb d c
  | None => false
  end.

(** The loop of [skipWhitespace], run at most [budget] times. *)
Fixpoint skipWhitespaceFrom (budget i : nat) : nat :=
  match budget with
  | O => i
  | S budget' => if testWhitespace (charAt i) then skipWhitespaceFrom budget' (S i) else i
  end.

(** The loop stops at the end of the text at the latest, so that the
    characters left are budget enough. *)
Definition skipWhitespace : M pstate unit :=
  fun s => Return (tt, {| index := skipWhitespaceFrom (length json - index s) (index s);
                          reviverCalls := reviverCalls s |}).

(** [result += x] for [x] a character or [undefined], which is what
    the text has past its end and of which the name is appended. A
    string longer than the longest string is a [RangeError]. Only the
    name of [undefined] can make the result that long: up to the end of
    the text the result has at most one character for each character
    read, and the text is itself a string. *)
Definition append (result : jsstring) (x : option codeunit) : M pstate jsstring :=
  match x with
  | Some c => ret (result ++ [c])
  | None =>
      if N.ltb maxStringLength (N.of_nat (length (result ++ lit "undefined")))
      then throw RangeError_invalid_string_length
      else ret (result ++ lit "undefined")
  end.

(** The loop of [parseString] and the [index++] after it. *)
Fixpoint parseStringLoop (fuel : nat) (result : jsstring) : M pstate jsstring :=
  match fuel with
  | O => timeout
  | S fuel' =>
      c <- peek ;;
      if charIs QUOTE c then advance 1 ;;; ret result
      else if charIs BACKSLASH c then
        advance 1 ;;;
        escapeChar <- peek ;;
        result' <- append result (option_map unescaped escapeChar) ;;
        advance 1 ;;;
        parseStringLoop fuel' result'
      else
        result' <- append result c ;;
        advance 1 ;;;
        parseStringLoop fuel' result'
  end.

Definition parseString (fuel : nat) : M pstate jsstring :=
  advance 1 ;;; parseStringLoop fuel [].

(** [json.slice(index, index + n)] *)
Definition slice (i n : nat) : jsstring := firstn n (skipn i json).

Definition parseLiteral (literal : jsstring) (v : value) : M pstate value :=
  s <- get ;;
  if jsstring_eqb (slice (index s) (length literal)) literal
  then advance (length literal) ;;; ret v
  else throw (SyntaxError UnexpectedToken).

Definition parseNumber : M pstate value :=
  s <- get ;;
  match numberRegex (skipn (index s) json) with
  | None => throw (SyntaxError InvalidNumber)
  | Some n => advance n ;;; ret (VNumber (stringToNumber (slice (index s) n)))
  end.

(** [reviver.call(holder, key, value)] *)
Definition callReviver (f : jsstring -> value -> revived) (key : jsstring) (v : value)
  : M pstate value :=
  record_revival key v ;;; ret (newValueOf (f key v) v).

Section Revive.
Variable f : jsstring -> value -> revived.

(** One round of the loop of [recursiveRevive]; [revive] is the
    recursive call. *)
Definition reviveKey (revive : value -> M pstate value) (holder : value) (key : propkey)
  : M pstate value :=
  match getProp holder key with
  | None => ret holder
  | Some v =>
      newValue <- callReviver f (keyString key) v ;;
      if isUndefined newValue then ret (deleteProp holder key)
      else
        let holder' := setProp holder key newValue in
        match getProp holder' key with
        | Some child =>
            if isContainer child
            then child' <- revive child ;; ret (updateProp holder' key child')
            else ret holder'
        | None => ret holder'
        end
  end.

Fixpoint forKeys (body : value -> propkey -> M pstate value) (holder : value)
         (keys : list propkey) : M pstate value :=
  match keys with
  | [] => ret holder
  | key :: rest => holder' <- body holder key ;; forKeys body holder' rest
  end.

(** [recursiveRevive(holder)]; the result is the holder as the call
    leaves it. *)
Fixpoint recursiveRevive (fuel : nat) (holder : value) : M pstate value :=
  match fuel with
  | O => timeout
  | S fuel' => forKeys (reviveKey (recursiveRevive fuel')) holder (ownKeys holder)
  end.

End Revive.

(** [applyReviver(obj)]. The object handed in is the one the synthetic
    holder keeps under the empty key exactly when the reviver gave it
    back; only then does what was done to the holder show in [obj]. *)
Definition applyReviver (fuel : nat) (obj : value) : M pstate value :=
  match reviver with
  | None => ret obj
  | Some f =>
      if isContainer obj then
        holder <- recursiveRevive f fuel (VObject [([], obj)]) ;;
        ret (match f [] obj with
             | Same => match getProp holder (KName []) with Some o => o | None => obj end
             | Fresh _ => obj
             end)
      else ret obj
  end.

Section ParserContainers.
(** The recursive calls to [parseValue], and the fuel of the loops. *)
Variable parseValue : M pstate value.
Variable fuel : nat.

(** The [while (true)] of [parseObject]. *)
Fixpoint parseObjectLoop (n : nat) (result : value) : M pstate value :=
  match n with
  | O => timeout
  | S n' =>
      skipWhitespace ;;;
      key <- parseString fuel ;;
      skipWhitespace ;;;
      c <- peek ;;
      if negb (charIs (ch ":") c) then throw (SyntaxError ExpectedColon)
      else
        advance 1 ;;;
        skipWhitespace ;;;
        v <- parseValue ;;
        let result' := obj_set key v result in
        skipWhitespace ;;;
        c <- peek ;;
        if charIs (ch "}") c then advance 1 ;;; ret result'
        else if negb (charIs (ch ",") c) then throw (SyntaxError ExpectedComma)
        else advance 1 ;;; parseObjectLoop n' result'
  end.

Definition parseObject : M pstate value :=
  advance 1 ;;;
  skipWhitespace ;;;
  c <- peek ;;
  if charIs (ch "}") c then advance 1 ;;; applyReviver fuel (VObject [])
  else result <- parseObjectLoop fuel (VObject []) ;; applyReviver fuel result.

(** The [while (true)] of [parseArray]. *)
Fixpoint parseArrayLoop (n : nat) (result : list (option value))
  : M pstate (list (option value)) :=
  match n with
  | O => timeout
  | S n' =>
      skipWhitespace ;;;
      v <- parseValue ;;
      let result' := result ++ [Some v] in
      skipWhitespace ;;;
      c <- peek ;;
      if charIs (ch "]") c then advance 1 ;;; ret result'
      else if negb (charIs (ch ",") c) then throw (SyntaxError ExpectedComma)
      else advance 1 ;;; parseArrayLoop n' result'
  end.

Definition parseArray : M pstate value :=
  advance 1 ;;;
  skipWhitespace ;;;
  c <- peek ;;
  if charIs (ch "]") c then advance 1 ;;; applyReviver fuel (VArray [])
  else result <- parseArrayLoop fuel [] ;; applyReviver fuel (VArray result).

End ParserContainers.

Fixpoint parseValue (fuel : nat) : M pstate value :=
  match fuel with
  | O => timeout
  | S fuel' =>
      skipWhitespace ;;;
      char <- peek ;;
      if charIs QUOTE char then s <- parseString fuel' ;; ret (VString s)
      else if charIs (ch "{") char then parseObject (parseValue fuel') fuel'
      else if charIs (ch "[") char then parseArray (parseValue fuel') fuel'
      else if charIs (ch "t") char then parseLiteral (lit "true") (VBoolean true)
      else if charIs (ch "f") char then parseLiteral (lit "false") (VBoolean false)
      else if charIs (ch "n") char then parseLiteral (lit "null") VNull
      else if charIs (ch "-") char || isDigit char then parseNumber
      else throw (SyntaxError UnexpectedCharacter)
  end.

(** The body of [myParse]. *)
Definition parseText (fuel : nat) : M pstate value :=
  result <- parseValue fuel ;;
  skipWhitespace ;;;
  s <- get ;;
  if Nat.ltb (index s) (length json) then throw (SyntaxError UnexpectedExtraCharacters)
  else match reviver with
       | Some f => callReviver f [] result
       | None => ret result
       end.

End Parser.

Definition start : pstate := {| index := 0; reviverCalls := [] |}.

(** The whole call, with the final state kept. *)
Definition runParse (fuel : nat) (json : jsstring)
           (reviver : option (jsstring -> value -> revived))
  : outcome (value * pstate) :=
  parseText json reviver fuel start.

Definition myParse (fuel : nat) (json : jsstring)
           (reviver : option (jsstring -> value -> revived))
  : outcome value :=
  match runParse fuel json reviver with
  | Return (v, _) => Return v
  | Throw e => Throw e
  | Timeout => Timeout
  end.

End Trees.

(* ================================================================== *)
(** ** An implementation of numbers for the examples

    The integers, written in decimal, and [NaN]; a text that is not the
    decimal numeral of an integer reads as [NaN]. Enough for the
    examples, which hold integers only. The longest string has
    2^29 - 24 code units, as in the engine of Node.js. *)

Inductive intnum :=
| Int (z : Z)
| NaN.

Definition decimalValue (s : jsstring) : Z :=
  fold_left (fun acc d => (acc * 10 + (Z.of_N d - 48))%Z) s 0%Z.

Definition allDigits (s : jsstring) : bool :=
  truthy s && forallb isDigitUnit s.

Definition intnumOfString (s : jsstring) : intnum :=
  if allDigits s then Int (decimalValue s)
  else match s with
       | c :: s' => if N.eqb c (ch "-") && allDigits s' then Int (- decimalValue s') else NaN
       | [] => NaN
       end.

Definition intnumToString (x : intnum) : jsstring :=
  match x with
  | Int z => lit (NilZero.string_of_int (Z.to_int z))
  | NaN => lit "NaN"
  end.

Definition IntegerNumbers : NumberImpl := {|
  number := intnum;
  isFinite := fun x => match x with Int _ => true | NaN => false end;
  numberToString := intnumToString;
  stringToNumber := intnumOfString;
  maxStringLength := 536870888
|}.

(* ================================================================== *)
(** ** Vocabulary of the properties *)

(** What a computation does from a state, by cases on its outcome. *)
Definition sat {St A} (o : outcome (A * St))
           (R : A -> St -> Prop) (E : exn -> Prop) (T : Prop) : Prop :=
  match o with
  | Return (a, s) => R a s
  | Throw e => E e
  | Timeout => T
  end.

(** A run of [mapM] that returns, element by element. *)
Inductive mapM_run {St A B} (f : A -> M St B)
  : list A -> St -> list B -> St -> Prop :=
| mapM_run_nil s : mapM_run f [] s [] s
| mapM_run_cons x xs s y s1 ys s2 :
    f x s = Return (y, s1) ->
    mapM_run f xs s1 ys s2 ->
    mapM_run f (x :: xs) s (y :: ys) s2.

(** *** Ownership between containers of a store *)

Section Ownership.
Context {NI : NumberImpl}.
Variable heap : store.

(** The values a container holds: the elements of an array, holes left
    out, and the values of the entries of an object. *)
Definition children (c : container) : list jsval :=
  match c with
  | CArray items =>
      flat_map (fun slot => match slot with Some v => [v] | None => [] end) items
  | CObject entries => map snd entries
  end.

(** An ownership edge: the container at [l] holds the container at [m]. *)
Definition owns (l m : loc) : Prop :=
  exists c, nth_error heap l = Some c /\ In (JRef m) (children c).

Inductive reaches : loc -> loc -> Prop :=
| reaches_here l : reaches l l
| reaches_step l m l' : owns l m -> reaches m l' -> reaches l l'.

(** The container at [l] is reachable from itself. *)
Definition onCycle (l : loc) : Prop :=
  exists m, owns l m /\ reaches m l.

Definition reachable (v : jsval) (l : loc) : Prop :=
  match v with
  | JRef l0 => reaches l0 l
  | _ => False
  end.

(** A container reachable from [v] is reachable from itself. *)
Definition cyclic (v : jsval) : Prop :=
  exists l, reachable v l /\ onCycle l.

Definition inStore (v : jsval) : bool :=
  match v with
  | JRef l => Nat.ltb l (length heap)
  | _ => true
  end.

(** Every location a container of the store mentions is in the store. *)
Definition closed : bool :=
  forallb (fun c => forallb inStore (children c)) heap.

(** What a visit that returns has found out about a value: nothing
    reachable from it is being visited, and nothing reachable from it is
    reachable from itself. *)
Definition clear (stk : list loc) (v : jsval) : Prop :=
  (forall l, reachable v l -> ~ In l stk) /\ ~ cyclic v.

(** Every container on the stack holds, directly or through others,
    whatever can be reached from [v]. *)
Definition above (stk : list loc) (v : jsval) : Prop :=
  forall m, In m stk ->
            forall l, reachable v l -> exists m', owns m m' /\ reaches m' l.

End Ownership.

(** *** Revivers of the examples *)

(** [(key, value) => typeof value === 'string' ? value + '!' : value] *)
Definition exclaim {NI : NumberImpl} (key : jsstring) (v : value) : revived :=
  match v with
  | VString s => Fresh (VString (s ++ lit "!"))
  | _ => Same
  end.

(** [(key, value) => key === 'age' ? undefined : value] *)
Definition dropAge {NI : NumberImpl} (key : jsstring) (v : value) : revived :=
  if jsstring_eqb key (lit "age") then Fresh VUndefined else Same.

(** *** The layout of containers, in the words of the specification *)

(** A line break and the indentation of a nesting level when there is an
    indentation, nothing when there is none. *)
Definition lineBreak (indent : jsstring) (level : nat) : jsstring :=
  if truthy indent then [LF] ++ repeatString indent level else [].

(** What follows the colon of an entry: one space when there is an
    indentation, nothing when there is none. *)
Definition colonGap (indent : jsstring) : jsstring :=
  if truthy indent then lit " " else [].

(** Every element on a line of its own, commas in between. *)
Definition onLines (indent : jsstring) (depth : nat) (texts : list jsstring) : jsstring :=
  join (lit ",") (map (fun t => lineBreak indent (depth + 1) ++ t) texts).

(** What stands between the brackets of an array at [depth] whose slots
    have the texts [texts]: every text after a line break and the
    indentation of one level more, commas in between, then a line break
    and the indentation of the array. An array without a slot has the
    line of its elements all the same, with nothing after its
    indentation. *)
Definition arrayBody (indent : jsstring) (depth : nat) (texts : list jsstring) : jsstring :=
  match texts with
  | [] => lineBreak indent (depth + 1)
  | _ :: _ => onLines indent depth texts
  end ++ lineBreak indent depth.

(** The same between the braces of an object, for the texts of its
    entries. An object without an entry has an empty line there. *)
Definition objectBody (indent : jsstring) (depth : nat) (texts : list jsstring) : jsstring :=
  match texts with
  | [] => lineBreak indent 0
  | _ :: _ => onLines indent depth texts
  end ++ lineBreak indent depth.

Section Pieces.
Context {NI : NumberImpl}.

(** Visits one after the other, at [depth] and from a state on: of each
    value under its key, with what each visit returns and the state the
    last one leaves. *)
Inductive visits (visit : jsstring -> jsval -> nat -> M sstate (option jsstring))
          (depth : nat)
  : list (jsstring * jsval) -> sstate -> list (option jsstring) -> sstate -> Prop :=
| visits_nil s : visits visit depth [] s [] s
| visits_cons key v rest s r s1 rs s2 :
    visit key v depth s = Return (r, s1) ->
    visits visit depth rest s1 rs s2 ->
    visits visit depth ((key, v) :: rest) s (r :: rs) s2.

(** The elements of an array, holes left out. *)
Definition elements (items : list (option jsval)) : list jsval :=
  flat_map (fun slot => match slot with Some item => [item] | None => [] end) items.

(** The texts of the slots of an array, from what the visits of its
    elements returned: the text of the element, [null] for an element
    without representation, and nothing for a hole. *)
Fixpoint slotTexts (items : list (option jsval)) (rs : list (option jsstring))
  : list jsstring :=
  match items, rs with
  | None :: items', _ => [] :: slotTexts items' rs
  | Some _ :: items', r :: rs' =>
      match r with Some t => t | None => lit "null" end :: slotTexts items' rs'
  | _, _ => []
  end.

(** The entries of an object that are kept, from what the visits of its
    entries returned: those whose visit returned a text. *)
Fixpoint keptEntries (entries : list (jsstring * jsval)) (rs : list (option jsstring))
  : list (jsstring * jsval) :=
  match entries, rs with
  | entry :: entries', r :: rs' =>
      if isSome r then entry :: keptEntries entries' rs' else keptEntries entries' rs'
  | _, _ => []
  end.

(** The texts of the kept entries of an object, from what the visits of
    the kept entries returned: the key between quotes, a colon, the gap
    and the text of the value, or the name of [undefined] when the visit
    returned no text. *)
Fixpoint entryTexts (indent : jsstring) (kept : list (jsstring * jsval))
         (rs : list (option jsstring)) : list jsstring :=
  match kept, rs with
  | (key, _) :: kept', r :: rs' =>
      ([QUOTE] ++ key ++ [QUOTE] ++ lit ":" ++ colonGap indent
       ++ match r with Some t => t | None => lit "undefined" end)
      :: entryTexts indent kept' rs'
  | _, _ => []
  end.

(** The state in which a container is visited and the state after it. *)
Definition entered (l : loc) (s : sstate) : sstate :=
  {| stack := stack s ++ [l]; calls := calls s |}.

Definition exited (s : sstate) : sstate :=
  {| stack := removelast (stack s); calls := calls s |}.

End Pieces.

(** A value has a representation when, once replaced, it is of a
    supported kind: neither [undefined] nor a function. [history] is the
    calls made to the replacer before. *)
Definition represented {NI : NumberImpl} (replacerFn : option replacer_fn)
           (history : list (jsstring * jsval)) (key : jsstring) (v : jsval) : bool :=
  match (match replacerFn with Some f => f history key v | None => v end) with
  | JUndefined | JFunction => false
  | _ => true
  end.

(** A replacer that keeps the containers it has been given and answers
    [undefined] for one it is given again, as a replacer with a
    [WeakSet] does:
    [(key, value) => { if (typeof value === 'object' && value !== null)
    { if (seen.has(value)) return; seen.add(value); } return value; }] *)
Definition seenOnce {NI : NumberImpl} : replacer_fn :=
  fun history key value =>
    match value with
    | JRef l =>
        if existsb (fun call => match snd call with
                                | JRef m => Nat.eqb l m
                                | _ => false
                                end) history
        then JUndefined
        else value
    | _ => value
    end.

(** The integer [z] as a value of the serializer and of the parser, for
    the examples. *)
Definition num (z : Z) : @jsval IntegerNumbers := @JNumber IntegerNumbers (Int z).
Definition vnum (z : Z) : @value IntegerNumbers := @VNumber IntegerNumbers (Int z).

(** *** Two texts that agree on a window *)

Section Windows.
Context {NI : NumberImpl}.

(** The state of the parser with its cursor moved [k] places on. *)
Definition shift (k : nat) (s : pstate) : pstate :=
  {| index := k + index s; reviverCalls := reviverCalls s |}.

(** The text [t'] has at [k + p] what [t] has at [p], for every [p] from
    [i] up to [j], [j] left out. *)
Definition agree (t t' : jsstring) (k i j : nat) : Prop :=
  forall p, i <= p < j -> nth_error t' (k + p) = nth_error t p.

(** The cursor went from [i] to [q] over white space and stands on
    something else, or on the end of the text. *)
Definition skips (t : jsstring) (i q : nat) : Prop :=
  i <= q /\
  (forall p, i <= p < q -> testWhitespace (nth_error t p) = true) /\
  testWhitespace (nth_error t q) = false.

(** No number literal goes on with [x]: it is not a digit, a dot or the
    letter of an exponent. *)
Definition numberStop (x : option codeunit) : bool :=
  match x with
  | Some c => negb (isDigitUnit c || N.eqb c (ch ".") || N.eqb c (ch "e") || N.eqb c (ch "E"))
  | None => true
  end.

(** An outcome with the cursor of its state put at [i]. *)
Definition atIndex {A} (i : nat) (o : outcome (A * pstate)) : outcome (A * pstate) :=
  match o with
  | Return (a, s) => Return (a, {| index := i; reviverCalls := reviverCalls s |})
  | Throw e => Throw e
  | Timeout => Timeout
  end.

(** A computation that neither reads nor moves the cursor. *)
Definition cursorFree {A} (m : M pstate A) : Prop :=
  forall i c,
    m {| index := i; reviverCalls := c |}
    = atIndex i (m {| index := 0; reviverCalls := c |}).

End Windows.

(** The four characters the specification names as white space. *)
Definition fourSpaces (c : codeunit) : bool :=
  N.eqb c SPACE || N.eqb c TAB || N.eqb c LF || N.eqb c CR.

(** The text [s'] has at every place below [n] what [s] has there. *)
Definition same (n : nat) (s s' : jsstring) : Prop :=
  forall p, p < n -> nth_error s' p = nth_error s p.

(* ================================================================== *)
(** ** Vocabulary of the round trip *)

Section Representation.
Context {NI : NumberImpl}.

(** The value [jv] of the store is the tree [tv]: the containers
    reachable from it are in the store, its arrays have no hole, and
    nothing in it is [undefined] or a function. A container may be held
    more than once; it is then the same tree at each place. *)
Fixpoint represents (heap : store) (tv : value) (jv : jsval) {struct tv} : Prop :=
  match tv with
  | VNull => jv = JNull
  | VBoolean b => jv = JBoolean b
  | VNumber n => jv = JNumber n
  | VString s => jv = JString s
  | VArray slots =>
      exists l items,
        jv = JRef l /\ nth_error heap l = Some (CArray items) /\
        Forall2 (fun (P : option jsval -> Prop) item => P item)
                (map (fun slot item =>
                        match slot, item with
                        | Some v, Some x => represents heap v x
                        | _, _ => False
                        end) slots) items
  | VObject entries =>
      exists l own,
        jv = JRef l /\ nth_error heap l = Some (CObject own) /\
        Forall2 (fun (P : jsstring * jsval -> Prop) e => P e)
                (map (fun entry e =>
                        match entry with
                        | (k, v) => fst e = k /\ represents heap v (snd e)
                        end) entries) own
  | VObjectProto _ _ | VUndefined => False
  end.

(** The nesting of a tree: what [stringifyValue] needs of fuel. *)
Fixpoint height (v : value) : nat :=
  match v with
  | VArray slots =>
      S (list_max (map (fun slot => match slot with Some x => height x | None => 0 end) slots))
  | VObject entries | VObjectProto _ entries =>
      S (list_max (map (fun entry => match entry with (_, x) => height x end) entries))
  | _ => 1
  end.

(** A number that its text carries: it is finite, the regular expression
    of [parseNumber] matches the whole of [String] of it, and [Number]
    of that text is the number. *)
Definition exactNumber (n : number) : Prop :=
  isFinite n = true
  /\ numberRegex (numberToString n) = Some (length (numberToString n))
  /\ stringToNumber (numberToString n) = n.

(** A key that can stand between two quotes as it is, and that an
    assignment makes an entry of. *)
Definition plainKey (key : jsstring) : bool :=
  negb (jsstring_eqb key (lit "__proto__"))
  && forallb (fun c => negb (N.eqb c QUOTE || N.eqb c BACKSLASH)) key.

(** The key [k] is another key than [k'] and comes before it among the
    own keys of an object when it was set first: no key that is not an
    array index comes before one that is, and array indices ascend. *)
Definition precedes (k k' : jsstring) : bool :=
  negb (jsstring_eqb k k')
  && match arrayIndex k, arrayIndex k' with
     | Some n, Some m => N.ltb n m
     | None, Some _ => false
     | _, _ => true
     end.

(** The order of the own keys of an object whose keys were set in the
    order of the list. *)
Fixpoint ownKeyOrder (keys : list jsstring) : bool :=
  match keys with
  | [] => true
  | k :: rest => forallb (precedes k) rest && ownKeyOrder rest
  end.

(** A tree that a text can carry: its numbers are exact, its arrays
    have no hole, nothing in it is [undefined], and the keys of each of
    its objects are plain and in the order of own keys. *)
Fixpoint portable (v : value) : Prop :=
  match v with
  | VNull | VBoolean _ | VString _ => True
  | VNumber n => exactNumber n
  | VArray slots =>
      Forall (fun P : Prop => P)
             (map (fun slot => match slot with Some x => portable x | None => False end) slots)
  | VObject entries =>
      forallb plainKey (map fst entries) = true
      /\ ownKeyOrder (map fst entries) = true
      /\ Forall (fun P : Prop => P)
                (map (fun entry => match entry with (_, x) => portable x end) entries)
  | VObjectProto _ _ | VUndefined => False
  end.

Section Render.
Variable indent : jsstring.

(** The text of a tree at a nesting level, laid out as [stringifyArray]
    and [stringifyObject] lay it out. *)
Fixpoint render (depth : nat) (v : value) : jsstring :=
  match v with
  | VNull => lit "null"
  | VBoolean b => if b then lit "true" else lit "false"
  | VNumber n => if isFinite n then numberToString n else lit "null"
  | VString s => [QUOTE] ++ escapeString s ++ [QUOTE]
  | VArray slots =>
      let result :=
        join (if truthy indent then lit "," ++ [LF] ++ repeatString indent (depth + 1)
              else lit ",")
             (map (fun slot => match slot with
                               | Some x => render (depth + 1) x
                               | None => []
                               end) slots) in
      lit "[" ++
      (if truthy indent
       then [LF] ++ repeatString indent (depth + 1) ++ result ++ [LF]
            ++ repeatString indent depth
       else result) ++
      lit "]"
  | VObject entries =>
      let result :=
        join (if truthy indent then lit "," ++ [LF] else lit ",")
             (map (fun entry =>
                     match entry with
                     | (k, x) =>
                         (if truthy indent then repeatString indent (depth + 1) else [])
                         ++ [QUOTE] ++ k ++ [QUOTE] ++ lit ":"
                         ++ (if truthy indent then lit " " else [])
                         ++ render (depth + 1) x
                     end) entries) in
      lit "{" ++
      (if truthy indent
       then [LF] ++ result ++ [LF] ++ repeatString indent depth
       else result) ++
      lit "}"
  | VObjectProto _ _ | VUndefined => []
  end.

(** The text of an entry of an object at [depth], its indentation left
    out. *)
Definition renderEntry (depth : nat) (entry : jsstring * value) : jsstring :=
  [QUOTE] ++ fst entry ++ [QUOTE] ++ lit ":" ++ colonGap indent
  ++ render (depth + 1) (snd entry).

End Render.

(** The indentation unit that the third argument of [myStringify] asks
    for: as many spaces as a number says, a string itself, and none
    for the rest. *)
Definition indentUnit (space : space_arg) : jsstring :=
  match space with
  | SpaceNumber n => repeat SPACE n
  | SpaceString s => s
  | SpaceOther => []
  end.

(** The text of a tree at a nesting level in the words of the
    specification: the elements of an array and the entries of an
    object stand one level deeper, each after a line break and the
    indentation of its level, and a line break and the indentation of
    the container stand before the closing bracket; the value of an
    entry follows the colon and the gap. *)
Fixpoint layout (unit : jsstring) (depth : nat) (v : value) : jsstring :=
  match v with
  | VNull => lit "null"
  | VBoolean b => if b then lit "true" else lit "false"
  | VNumber n => if isFinite n then numberToString n else lit "null"
  | VString s => [QUOTE] ++ escapeString s ++ [QUOTE]
  | VArray slots =>
      lit "[" ++
      arrayBody unit depth
                (map (fun slot => match slot with
                                  | Some x => layout unit (depth + 1) x
                                  | None => []
                                  end) slots) ++
      lit "]"
  | VObject entries =>
      lit "{" ++
      objectBody unit depth
                 (map (fun entry =>
                         match entry with
                         | (k, x) => [QUOTE] ++ k ++ [QUOTE] ++ lit ":" ++ colonGap unit
                                     ++ layout unit (depth + 1) x
                         end) entries) ++
      lit "}"
  | VObjectProto _ _ | VUndefined => []
  end.

(** The parser [p], started where [body] begins in a text, returns [a]
    with the cursor after [body] and without a call to the reviver,
    whatever comes before [body] and whenever what comes after is [ok]. *)
Definition consumes {A} (p : jsstring -> M pstate A) (body : jsstring) (a : A)
           (ok : jsstring -> Prop) : Prop :=
  forall pre post calls,
    ok post ->
    p (pre ++ body ++ post) {| index := length pre; reviverCalls := calls |}
    = Return (a, {| index := length pre + length body; reviverCalls := calls |}).

(** What may follow a value: nothing, or a character that no number
    goes on with. *)
Definition afterValue (post : jsstring) : Prop :=
  numberStop (nth_error post 0) = true.

(** What may follow white space: nothing, or a character that is not
    white space. *)
Definition afterSpace (post : jsstring) : Prop :=
  testWhitespace (nth_error post 0) = false.

End Representation.

(** Two runs of the serializer that end alike: both return the same
    result with the same stack, or throw the same error, or neither
    returns. The calls on record are left out of the comparison. *)
Definition sameOutcome {NI : NumberImpl} {A} (o1 o2 : outcome (A * sstate)) : Prop :=
  match o1, o2 with
  | Return (a, s), Return (b, t) => a = b /\ stack s = stack t
  | Throw e, Throw e' => e = e'
  | Timeout, Timeout => True
  | _, _ => False
  end.

Section Revived.
Context {NI : NumberImpl}.

(** A tree of at most [levels] levels with nothing [undefined] in it. *)
Fixpoint definedWithin (levels : nat) (v : value) : Prop :=
  match levels with
  | O => False
  | S below =>
      match v with
      | VUndefined => False
      | VArray slots =>
          Forall (fun slot => match slot with
                              | Some x => definedWithin below x
                              | None => True
                              end) slots
      | VObject entries | VObjectProto _ entries =>
          Forall (fun entry => definedWithin below (snd entry)) entries
      | _ => True
      end
  end.

(** The state of the parser with another record of calls. *)
Definition withCalls (c : list (jsstring * value)) (s : pstate) : pstate :=
  {| index := index s; reviverCalls := c |}.

End Revived.

(** The computation [m'] does what [m] does, whatever the record of
    calls, and neither adds to the record. *)
Definition steady {NI : NumberImpl} {A} (m m' : M pstate A) : Prop :=
  forall s a s1,
    m s = Return (a, s1) ->
    reviverCalls s1 = reviverCalls s
    /\ forall c, m' (withCalls c s) = Return (a, withCalls c s1).

(** The parser [p], started where [body] begins in a text, throws [e],
    whatever comes before [body] and whenever what comes after is [ok]. *)
Definition rejects {NI : NumberImpl} {A} (p : jsstring -> M pstate A) (body : jsstring)
           (e : exn) (ok : jsstring -> Prop) : Prop :=
  forall pre post calls,
    ok post ->
    p (pre ++ body ++ post) {| index := length pre; reviverCalls := calls |} = Throw e.

(** What holds of the keys of an object that is being parsed: no key
    comes twice, and [__proto__] is among them only when the prototype
    does not lead to the accessor. *)
Definition properKeys {NI : NumberImpl} (obj : value) : Prop :=
  NoDup (map fst (entriesOf obj))
  /\ (In (lit "__proto__") (map fst (entriesOf obj)) -> inheritsAccessor obj = false).

(* ================================================================== *)
(** ** Reasoning about the monad *)

Section MonadFacts.
Context {St A B : Type}.

Lemma bind_Return (m : M St A) (k : A -> M St B) s a s' :
  m s = Return (a, s') -> bind m k s = k a s'.
Proof. unfold bind. intros ->. reflexivity. Qed.

Lemma bind_Timeout (m : M St A) (k : A -> M St B) s :
  m s = Timeout -> bind m k s = Timeout.
Proof. unfold bind. intros ->. reflexivity. Qed.

Lemma bind_Throw (m : M St A) (k : A -> M St B) s e :
  m s = Throw e -> bind m k s = Throw e.
Proof. unfold bind. intros ->. reflexivity. Qed.

Lemma bind_Return_inv (m : M St A) (k : A -> M St B) s r :
  bind m k s = Return r ->
  exists a s', m s = Return (a, s') /\ k a s' = Return r.
Proof.
  unfold bind. destruct (m s) as [[a s']| |]; try discriminate.
  intros H. exists a, s'. split; [reflexivity | exact H].
Qed.

End MonadFacts.

Lemma sat_bind {St A B} (m : M St A) (k : A -> M St B) s
      (R : B -> St -> Prop) (E : exn -> Prop) (T : Prop) :
  sat (m s) (fun a s' => sat (k a s') R E T) E T -> sat (bind m k s) R E T.
Proof.
  unfold bind, sat. destruct (m s) as [[a s']| |]; auto.
Qed.

Lemma sat_weaken {St A} (o : outcome (A * St))
      (R R' : A -> St -> Prop) (E E' : exn -> Prop) (T T' : Prop) :
  sat o R E T ->
  (forall a s, R a s -> R' a s) -> (forall e, E e -> E' e) -> (T -> T') ->
  sat o R' E' T'.
Proof.
  unfold sat. destruct o as [[a s]| |]; auto.
Qed.

Lemma sat_post {St A} (o : outcome (A * St))
      (R R' : A -> St -> Prop) (E : exn -> Prop) (T : Prop) :
  sat o R E T -> (forall a s, R a s -> R' a s) -> sat o R' E T.
Proof. intros H HR. eapply sat_weaken; eauto. Qed.

Lemma mapM_Return_inv {St A B} (f : A -> M St B) xs :
  forall s ys s', mapM f xs s = Return (ys, s') -> mapM_run f xs s ys s'.
Proof.
  induction xs as [|x xs IH]; simpl; intros s ys s' H.
  - unfold ret in H. injection H as <- <-. constructor.
  - apply bind_Return_inv in H. destruct H as (y & s1 & Hx & H).
    apply bind_Return_inv in H. destruct H as (ys' & s2 & Hxs & H).
    unfold ret in H. injection H as <- <-.
    econstructor; eauto.
Qed.

(** A run of [filterM] that returns: the verdicts, element by element. *)
Lemma filterM_Return_inv {St A} (p : A -> M St bool) xs :
  forall s ys s', filterM p xs s = Return (ys, s') ->
  exists bs, mapM_run p xs s bs s' /\
             ys = map fst (filter snd (combine xs bs)).
Proof.
  induction xs as [|x xs IH]; simpl; intros s ys s' H.
  - unfold ret in H. injection H as <- <-. exists []. split; [constructor | reflexivity].
  - apply bind_Return_inv in H. destruct H as (b & s1 & Hx & H).
    apply bind_Return_inv in H. destruct H as (ys' & s2 & Hxs & H).
    unfold ret in H. injection H as <- <-.
    destruct (IH _ _ _ Hxs) as (bs & Hrun & ->).
    exists (b :: bs). split; [econstructor; eauto |].
    simpl. destruct b; reflexivity.
Qed.

(** The rule of [mapM] for a property [I] of the state that every
    element keeps, and a fact [Q x] that every element establishes. *)
Lemma sat_mapM {St A B} (f : A -> M St B) (I : St -> Prop) (Q : A -> Prop)
      (E : exn -> Prop) (T : Prop) xs :
  forall s,
    I s ->
    (forall x s1, In x xs -> I s1 -> sat (f x s1) (fun _ s2 => I s2 /\ Q x) E T) ->
    sat (mapM f xs s) (fun _ s' => I s' /\ forall x, In x xs -> Q x) E T.
Proof.
  induction xs as [|x xs IH]; simpl; intros s HI Hf.
  - split; [exact HI | tauto].
  - apply sat_bind.
    eapply sat_post; [apply (Hf x s); auto |].
    intros y s1 [HI1 HQ]. simpl.
    apply sat_bind.
    eapply sat_post; [apply (IH s1 HI1); intros; apply Hf; auto |].
    intros ys s2 [HI2 HQs]. simpl. split; [exact HI2 |].
    intros x' [<- | Hin]; auto.
Qed.

Lemma sat_filterM {St A} (p : A -> M St bool) (I : St -> Prop) (Q : A -> Prop)
      (E : exn -> Prop) (T : Prop) xs :
  forall s,
    I s ->
    (forall x s1, In x xs -> I s1 -> sat (p x s1) (fun _ s2 => I s2 /\ Q x) E T) ->
    sat (filterM p xs s)
        (fun ys s' => I s' /\ (forall x, In x xs -> Q x) /\ incl ys xs) E T.
Proof.
  induction xs as [|x xs IH]; simpl; intros s HI Hf.
  - split; [exact HI | split; [tauto | apply incl_refl]].
  - apply sat_bind.
    eapply sat_post; [apply (Hf x s); auto |].
    intros b s1 [HI1 HQ]. simpl.
    apply sat_bind.
    eapply sat_post; [apply (IH s1 HI1); intros; apply Hf; auto |].
    intros ys s2 (HI2 & HQs & Hincl). simpl. split; [exact HI2 | split].
    + intros x' [<- | Hin]; auto.
    + destruct b.
      * intros z [<- | Hz]; [left; reflexivity | right; apply Hincl, Hz].
      * intros z Hz. right. apply Hincl, Hz.
Qed.

(* ================================================================== *)
(** ** The serializer and reference cycles *)

Lemma NoDup_snoc {A} (l : list A) (a : A) :
  NoDup l -> ~ In a l -> NoDup (l ++ [a]).
Proof.
  induction l as [|x l IH]; simpl; intros Hnd Hin.
  - constructor; [intros [] | constructor].
  - inversion Hnd as [|? ? Hx Hl]; subst. constructor.
    + rewrite in_app_iff. simpl. intros [H | [H | []]]; [auto | subst; auto].
    + apply IH; auto.
Qed.

(** Distinct locations of a store are no more than its containers. *)
Lemma bounded_NoDup_length (n : nat) (l : list nat) :
  NoDup l -> (forall x, In x l -> x < n) -> length l <= n.
Proof.
  intros Hnd Hb.
  rewrite <- (length_seq n 0).
  apply NoDup_incl_length; [exact Hnd |].
  intros x Hx. apply in_seq. specialize (Hb x Hx). lia.
Qed.

Lemma includes_false (l : loc) (st : list loc) :
  includes l st = false -> ~ In l st.
Proof.
  unfold includes. intros H Hin.
  assert (existsb (Nat.eqb l) st = true) as H'.
  { apply existsb_exists. exists l. split; [exact Hin | apply Nat.eqb_refl]. }
  congruence.
Qed.

Section Cycles.
Context {NI : NumberImpl}.
Variable heap : store.
Variable indent : jsstring.

Lemma closed_children l c v :
  closed heap = true -> nth_error heap l = Some c -> In v (children c) ->
  inStore heap v = true.
Proof.
  unfold closed. intros Hc Hl Hv.
  rewrite forallb_forall in Hc.
  specialize (Hc c (nth_error_In _ _ Hl)).
  rewrite forallb_forall in Hc. auto.
Qed.

Lemma clear_container l c stk :
  nth_error heap l = Some c ->
  ~ In l stk ->
  (forall v, In v (children c) -> clear heap (stk ++ [l]) v) ->
  clear heap stk (JRef l).
Proof.
  intros Hl Hnot Hch. split.
  - intros l' Hr. simpl in Hr. inversion Hr as [|? m ? Hown Hm]; subst.
    + exact Hnot.
    + destruct Hown as (c' & Hc' & Hin). rewrite Hl in Hc'. injection Hc' as <-.
      destruct (Hch _ Hin) as [Hd _].
      intros Hstk. apply (Hd l'); [exact Hm | apply in_app_iff; left; exact Hstk].
  - intros (l' & Hr & m & Hown & Hback). simpl in Hr.
    inversion Hr as [|? m0 ? Hown0 Hm0]; subst.
    + destruct Hown as (c' & Hc' & Hin). rewrite Hl in Hc'. injection Hc' as <-.
      destruct (Hch _ Hin) as [Hd _].
      apply (Hd l'); [exact Hback | apply in_app_iff; right; left; reflexivity].
    + destruct Hown0 as (c' & Hc' & Hin). rewrite Hl in Hc'. injection Hc' as <-.
      destruct (Hch _ Hin) as [_ Hcyc].
      apply Hcyc. exists l'. split; [exact Hm0 | exists m; auto].
Qed.

Lemma clear_leaf stk (v : jsval) :
  (forall l, v <> JRef l) -> clear heap stk v.
Proof.
  intros Hv. split.
  - intros l Hr. destruct v; simpl in Hr; try contradiction. exfalso. eapply Hv; eauto.
  - intros (l & Hr & _). destruct v; simpl in Hr; try contradiction. eapply Hv; eauto.
Qed.

Lemma pop_push (st : sstate) (l : loc) :
  {| stack := removelast (stack st ++ [l]); calls := calls st |} = st.
Proof. rewrite removelast_last. destruct st; reflexivity. Qed.

(** With fuel for one more level than the store has containers left to
    enter, a visit without replacer either returns, leaving the state as
    it found it and the value [clear], or throws the error of cycles. *)
Lemma stringifyValue_visit :
  closed heap = true ->
  forall fuel key v depth st,
    inStore heap v = true ->
    NoDup (stack st) ->
    (forall l, In l (stack st) -> l < length heap) ->
    length heap + 1 <= fuel + length (stack st) ->
    sat (stringifyValue heap None indent fuel key v depth st)
        (fun _ st' => st' = st /\ clear heap (stack st) v)
        (fun e => e = TypeError_cyclic_object_value)
        False.
Proof.
  intros Hclosed. induction fuel as [|fuel IH]; intros key v depth st Hv Hnd Hb Hfuel.
  - pose proof (bounded_NoDup_length Hnd Hb). unfold loc in *. simpl in Hfuel. lia.
  - cbn [stringifyValue applyReplacer]. unfold bind at 1, ret at 1.
    destruct v as [|b|n|s|l| |];
      try (cbn; split; [reflexivity | apply clear_leaf; intros; discriminate]).
    unfold bind at 1, get at 1.
    destruct (includes l (stack st)) eqn:Hinc; [reflexivity |].
    apply includes_false in Hinc.
    simpl in Hv. apply Nat.ltb_lt in Hv.
    destruct (nth_error heap l) as [c|] eqn:Hl;
      [| apply nth_error_None in Hl; lia].
    set (st1 := {| stack := stack st ++ [l]; calls := calls st |}).
    assert (Hnd1 : NoDup (stack st1)) by (apply NoDup_snoc; auto).
    assert (Hb1 : forall l', In l' (stack st1) -> l' < length heap).
    { simpl. intros l' Hin. apply in_app_iff in Hin.
      destruct Hin as [Hin | [<- | []]]; auto. }
    assert (Hfuel1 : length heap + 1 <= fuel + length (stack st1)).
    { simpl. rewrite length_app. simpl. lia. }
    assert (Hchild : forall k v' d s1,
               In v' (children c) -> s1 = st1 ->
               sat (stringifyValue heap None indent fuel k v' d s1)
                   (fun _ s2 => s2 = st1 /\ clear heap (stack st1) v')
                   (fun e => e = TypeError_cyclic_object_value) False).
    { intros k v' d s1 Hin ->. apply IH; auto.
      eapply closed_children; eauto. }
    destruct c as [items | entries].
    + unfold stringifyArray. apply sat_bind. cbn [push sat]. fold st1.
      apply sat_bind.
      eapply sat_post; [apply (@sat_mapM _ _ _ _ (fun s => s = st1)
                          (fun slot => match slot with
                                       | Some item => clear heap (stack st1) item
                                       | None => True
                                       end)); [reflexivity |] |].
      * intros [item|] s1 Hin Hs1.
        -- apply sat_bind.
           eapply sat_post; [apply Hchild; [| exact Hs1] |].
           ++ simpl. apply in_flat_map. exists (Some item). split; [exact Hin | left; reflexivity].
           ++ intros r s2 [-> Hcl]. cbn. auto.
        -- subst s1. cbn. auto.
      * intros pieces s2 [-> Hitems]. cbn.
        split; [apply pop_push |].
        apply clear_container with (c := CArray items); auto.
        intros v' Hin. simpl in Hin. apply in_flat_map in Hin.
        destruct Hin as ([item|] & Hin & Hv'); simpl in Hv'; [| contradiction].
        destruct Hv' as [<- | []]. apply (Hitems (Some item) Hin).
    + unfold stringifyObject. apply sat_bind. cbn [push sat]. fold st1.
      apply sat_bind.
      eapply sat_post; [apply (@sat_filterM _ _ _ (fun s => s = st1)
                             (fun entry => clear heap (stack st1) (snd entry)));
         [reflexivity |] |].
      * intros entry s1 Hin Hs1.
        apply sat_bind.
        eapply sat_post; [apply Hchild; [| exact Hs1] |].
        -- simpl. apply in_map. exact Hin.
        -- intros r s2 [-> Hcl]. cbn. auto.
      * intros kept s2 (-> & Hentries & Hincl). cbn beta.
        apply sat_bind.
        eapply sat_post; [apply (@sat_mapM _ _ _ _ (fun s => s = st1) (fun _ => True)); [reflexivity |] |].
        -- intros entry s1 Hin Hs1.
           apply sat_bind.
           eapply sat_post; [apply Hchild; [| exact Hs1] |].
           ++ simpl. apply in_map. apply Hincl. exact Hin.
           ++ intros r s2 [-> _]. cbn. auto.
        -- intros pieces s2 [-> _]. cbn.
           split; [apply pop_push |].
           apply clear_container with (c := CObject entries); auto.
           intros v' Hin. simpl in Hin. apply in_map_iff in Hin.
           destruct Hin as (entry & <- & Hin). apply Hentries. exact Hin.
Qed.

End Cycles.

Lemma cyclic_inStore {NI : NumberImpl} (heap : store) (v : jsval) :
  cyclic heap v -> inStore heap v = true.
Proof.
  intros (l & Hr & m & (c & Hc & _) & _).
  destruct v as [| | | |l0| |]; simpl in Hr; try contradiction.
  simpl. apply Nat.ltb_lt.
  inversion Hr as [|? m' ? (c' & Hc' & _) _]; subst.
  - apply nth_error_Some. congruence.
  - apply nth_error_Some. congruence.
Qed.

(** C5. A value from which a container is reachable that is reachable
    from itself through ownership edges is not serialized: on a closed
    store and with fuel for the containers of the store, [myStringify]
    without replacer throws the error of cyclic values, whatever the
    indentation, and so returns no text. The check is on the identity of
    the container against the stack of the containers being visited, and
    comes before the container is entered: a container found on the
    stack makes the visit throw at once. *)
Theorem C5_cyclic_value_is_rejected {NI : NumberImpl}
        (heap : store) (v : jsval) (space : space_arg) (fuel : nat) :
  closed heap = true ->
  cyclic heap v ->
  length heap + 1 <= fuel ->
  myStringify fuel heap v None space = Throw TypeError_cyclic_object_value
  /\ (forall n key l depth st,
         includes l (stack st) = true ->
         stringifyValue heap None (indentOf space) (S n) key (JRef l) depth st
         = Throw TypeError_cyclic_object_value).
Proof.
  intros Hclosed Hcyc Hfuel. split.
  - pose proof (@stringifyValue_visit NI heap (indentOf space) Hclosed
                  fuel [] v 0 initial (cyclic_inStore Hcyc)) as H.
    unfold myStringify, runStringify.
    destruct (stringifyValue heap None (indentOf space) fuel [] v 0 initial)
      as [[r st']| e |]; simpl in H.
    + destruct H as [_ [_ Hno]]; [constructor | intros l [] | simpl; lia |].
      contradiction.
    + rewrite H; [reflexivity | constructor | intros l [] | simpl; lia].
    + exfalso. apply H; [constructor | intros l [] | simpl; lia].
  - intros n key l depth st Hinc.
    cbn [stringifyValue applyReplacer]. unfold bind, ret, get. rewrite Hinc. reflexivity.
Qed.

Lemma C5_witness :
  let heap := [CObject [(lit "self", @JRef IntegerNumbers 0)]] in
  closed heap = true /\ cyclic heap (JRef 0) /\
  myStringify 2 heap (JRef 0) None (SpaceNumber 0) = Throw TypeError_cyclic_object_value.
Proof.
  intros heap.
  assert (Hown : owns heap 0 0).
  { exists (CObject [(lit "self", JRef 0)]). split; [reflexivity | left; reflexivity]. }
  assert (Hcyc : cyclic heap (JRef 0)).
  { exists 0. split; [apply reaches_here |].
    exists 0. split; [exact Hown | apply reaches_here]. }
  split; [reflexivity | split; [exact Hcyc |]].
  apply (@C5_cyclic_value_is_rejected IntegerNumbers heap (JRef 0) (SpaceNumber 0) 2);
    [reflexivity | exact Hcyc | simpl; lia].
Defined.

(* ================================================================== *)
(** ** The parser on a string that is not closed *)

Section Unterminated.
Context {NI : NumberImpl}.
Variable json : jsstring.

Lemma append_character (result : jsstring) (c : codeunit) (s : pstate) :
  append result (Some c) s = Return (result ++ [c], s).
Proof. reflexivity. Qed.

Lemma append_bind {B} (result : jsstring) (c : codeunit)
      (k : jsstring -> M pstate B) (s : pstate) :
  bind (append result (Some c)) k s = k (result ++ [c]) s.
Proof. reflexivity. Qed.

(** Past the end of the text [append] either throws the error of the
    string that is too long or returns the result with nine characters
    more. *)
Lemma append_undefined (result : jsstring) (s : pstate) :
  (N.to_nat maxStringLength < length result + 9
   /\ append result None s = Throw RangeError_invalid_string_length)
  \/ (length result + 9 <= N.to_nat maxStringLength
      /\ append result None s = Return (result ++ lit "undefined", s)).
Proof.
  unfold append. rewrite length_app.
  change (length (lit "undefined")) with 9.
  destruct (N.ltb maxStringLength (N.of_nat (length result + 9))) eqn:Hmax.
  - left. apply N.ltb_lt in Hmax. split; [lia | reflexivity].
  - right. apply N.ltb_ge in Hmax. split; [lia | reflexivity].
Qed.

(** [append] returns a longer string, or throws the error of the string
    that is too long, and leaves the state as it is. *)
Lemma append_outcome (result : jsstring) (x : option codeunit) (s : pstate) :
  sat (append result x s)
      (fun r s' => s' = s /\ length result < length r)
      (fun e => e = RangeError_invalid_string_length /\ x = None
                /\ N.to_nat maxStringLength < length result + 9)
      False.
Proof.
  destruct x as [c|].
  - cbn. split; [reflexivity |]. rewrite length_app. cbn. lia.
  - destruct (append_undefined result s) as [[Hmax ->] | [Hmax ->]]; cbn.
    + auto.
    + split; [reflexivity |]. rewrite length_app. cbn. lia.
Qed.

(** What [append] returns does not depend on the state. *)
Lemma append_Return (result : jsstring) (x : option codeunit) (s : pstate) r s' :
  append result x s = Return (r, s') ->
  s' = s /\ length result < length r /\ forall t, append result x t = Return (r, t).
Proof.
  unfold append. destruct x as [c|].
  - unfold ret. intros H. injection H as <- <-.
    rewrite length_app. cbn. split; [reflexivity | split; [lia | reflexivity]].
  - destruct (N.ltb _ _); [discriminate |].
    unfold ret. intros H. injection H as <- <-.
    rewrite length_app. cbn. split; [reflexivity | split; [lia | reflexivity]].
Qed.

(** Once no quote is left from the cursor on, the loop of [parseString]
    has no way out but the error of the string that is too long: past
    the end of the text it reads [undefined], appends its name and goes
    on. *)
Lemma parseStringLoop_unterminated :
  forall fuel result s,
    (forall p, index s <= p -> charAt json p <> Some QUOTE) ->
    sat (parseStringLoop json fuel result s)
        (fun _ _ => False) (fun e => e = RangeError_invalid_string_length) True.
Proof.
  induction fuel as [|fuel IH]; intros result s Hq; [exact I |].
  cbn [parseStringLoop]. unfold bind at 1, peek at 1.
  assert (Hnq : charIs QUOTE (charAt json (index s)) = false).
  { destruct (charAt json (index s)) as [c|] eqn:Hc; [| reflexivity].
    simpl. apply N.eqb_neq. intros ->. apply (Hq (index s)); auto. }
  rewrite Hnq.
  destruct (charIs BACKSLASH (charAt json (index s))).
  - unfold bind at 1, advance at 1. unfold bind at 1, peek at 1. cbn [index].
    apply sat_bind.
    eapply sat_weaken;
      [apply append_outcome | | intros e He; apply He | contradiction].
    intros r s' [-> _]. unfold bind at 1, advance at 1. cbn [index reviverCalls].
    apply IH. cbn [index]. intros p Hp. apply Hq. lia.
  - apply sat_bind.
    eapply sat_weaken;
      [apply append_outcome | | intros e He; apply He | contradiction].
    intros r s' [-> _]. unfold bind at 1, advance at 1.
    apply IH. cbn [index]. intros p Hp. apply Hq. lia.
Qed.

(** A text on which [parseValue] can end in one error only. *)
Lemma myParse_no_value (reviver : option (jsstring -> value -> revived)) fuel e :
  sat (parseValue json reviver fuel start) (fun _ _ => False) (fun e' => e' = e) True ->
  myParse fuel json reviver = Timeout \/ myParse fuel json reviver = Throw e.
Proof.
  unfold myParse, runParse, parseText, bind.
  destruct (parseValue json reviver fuel start) as [[a s]| e' |]; cbn [sat]; intros H;
    [contradiction | right; congruence | left; reflexivity].
Qed.

(** With fuel for the characters that are left and for the names of
    [undefined] that fill the longest string, the error is thrown. *)
Lemma parseStringLoop_overflows :
  forall fuel result s,
    (forall p, index s <= p -> charAt json p <> Some QUOTE) ->
    length json - index s < fuel ->
    N.to_nat maxStringLength < length result + 9 * (fuel - (length json - index s)) ->
    parseStringLoop json fuel result s = Throw RangeError_invalid_string_length.
Proof.
  induction fuel as [|fuel IH]; intros result s Hq Hfuel Hmax; [lia |].
  cbn [parseStringLoop]. unfold bind at 1, peek at 1.
  assert (Hnq : charIs QUOTE (charAt json (index s)) = false).
  { destruct (charAt json (index s)) as [c|] eqn:Hc; [| reflexivity].
    simpl. apply N.eqb_neq. intros ->. apply (Hq (index s)); auto. }
  rewrite Hnq.
  destruct (charIs BACKSLASH (charAt json (index s))) eqn:Hb.
  - assert (Hin : index s < length json).
    { destruct (charAt json (index s)) as [c|] eqn:Hc; [| discriminate Hb].
      apply nth_error_Some. unfold charAt in Hc. congruence. }
    unfold bind at 1, advance at 1. unfold bind at 1, peek at 1. cbn [index].
    unfold bind at 1.
    destruct (charAt json (index s + 1)) as [e|] eqn:He; cbn [option_map].
    + assert (Hin' : index s + 1 < length json).
      { apply nth_error_Some. unfold charAt in He. congruence. }
      rewrite append_character. unfold bind at 1, advance at 1. cbn [index reviverCalls].
      apply IH; cbn [index].
      * intros p Hp. apply Hq. lia.
      * lia.
      * rewrite length_app. cbn [length]. lia.
    + assert (Hin' : length json <= index s + 1).
      { apply nth_error_None. exact He. }
      destruct (append_undefined result
                  {| index := index s + 1; reviverCalls := reviverCalls s |})
        as [[Hover ->] | [Hfits ->]]; [reflexivity |].
      unfold bind at 1, advance at 1. cbn [index reviverCalls].
      apply IH; cbn [index].
      * intros p Hp. apply Hq. lia.
      * lia.
      * rewrite length_app. change (length (lit "undefined")) with 9. lia.
  - unfold bind at 1.
    destruct (charAt json (index s)) as [c|] eqn:Hc.
    + assert (Hin : index s < length json).
      { apply nth_error_Some. unfold charAt in Hc. congruence. }
      rewrite append_character. unfold bind at 1, advance at 1.
      apply IH; cbn [index].
      * intros p Hp. apply Hq. lia.
      * lia.
      * rewrite length_app. cbn [length]. lia.
    + assert (Hin : length json <= index s).
      { apply nth_error_None. exact Hc. }
      destruct (append_undefined result s) as [[Hover ->] | [Hfits ->]]; [reflexivity |].
      unfold bind at 1, advance at 1.
      apply IH; cbn [index].
      * intros p Hp. apply Hq. lia.
      * lia.
      * rewrite length_app. change (length (lit "undefined")) with 9. lia.
Qed.

End Unterminated.

(** C3. The text of an opening quote, three letters and no closing
    quote: with or without reviver, [myParse] returns no value and
    throws no [SyntaxError]. The loop of [parseString] reads past the
    end of the text, where it appends the name of [undefined] time and
    again; whatever the fuel, the call does not return or it throws the
    error of the string that is too long, and it throws that error when
    the fuel is enough for the names that fill the longest string. *)
Theorem C3_unterminated_string_does_not_return {NI : NumberImpl}
        (fuel : nat) (reviver : option (jsstring -> value -> revived)) :
  (myParse fuel (qlit "'abc") reviver = Timeout
   \/ myParse fuel (qlit "'abc") reviver = Throw RangeError_invalid_string_length)
  /\ (4 + N.to_nat maxStringLength < fuel ->
      myParse fuel (qlit "'abc") reviver = Throw RangeError_invalid_string_length).
Proof.
  assert (Hq : forall p, 1 <= p -> charAt (qlit "'abc") p <> Some QUOTE).
  { intros p Hp.
    do 4 (destruct p as [|p]; [try lia; cbv; discriminate |]).
    unfold charAt. simpl. destruct p; discriminate. }
  assert (Hstep : forall n,
             parseValue (qlit "'abc") reviver (S n) start
             = bind (parseStringLoop (qlit "'abc") n [])
                    (fun s => ret (VString s))
                    {| index := 1; reviverCalls := [] |}) by reflexivity.
  split.
  - apply myParse_no_value.
    destruct fuel as [|fuel]; [exact I |].
    rewrite Hstep. apply sat_bind.
    eapply sat_post; [apply parseStringLoop_unterminated; exact Hq |].
    intros r s [].
  - intros Hfuel. destruct fuel as [|fuel]; [lia |].
    unfold myParse, runParse, parseText.
    unfold bind at 1. rewrite Hstep. unfold bind at 1.
    rewrite (@parseStringLoop_overflows NI (qlit "'abc") fuel []
               {| index := 1; reviverCalls := [] |} Hq).
    + reflexivity.
    + cbn. lia.
    + cbn [index length]. change (length (qlit "'abc")) with 4. lia.
Qed.

(* ================================================================== *)
(** ** The keys of objects in the output *)

(** C4. The key of an entry goes into the output between two quotes as
    it is, whatever its characters, while a string value goes through
    [escapeString]. With an apostrophe written for every double quote:
    the object with the one key [a'b] and the value [true] is serialized
    as [{'a'b':true}], where the specification has [{'a\'b':true}], and
    the same string as a value is serialized as ['a\'b']. *)
Theorem C4_object_key_is_not_escaped {NI : NumberImpl} (fuel : nat) :
  myStringify (S (S fuel)) [CObject [(qlit "a'b", JBoolean true)]] (JRef 0) None SpaceOther
  = Return (Some (qlit "{'a'b':true}"))
  /\ myStringify (S fuel) [] (JString (qlit "a'b")) None SpaceOther
     = Return (Some ([QUOTE] ++ lit "a" ++ [BACKSLASH; QUOTE] ++ lit "b" ++ [QUOTE]))
  /\ (forall key,
         myStringify (S (S fuel)) [CObject [(key, JBoolean true)]] (JRef 0) None SpaceOther
         = Return (Some (lit "{" ++ [QUOTE] ++ key ++ [QUOTE] ++ lit ":true}"))).
Proof.
  split; [reflexivity | split; [reflexivity |]].
  intros key. unfold myStringify, runStringify. simpl.
  unfold stringifyObject, bind, push, pop, ret. simpl.
  rewrite <- !app_assoc. reflexivity.
Qed.

(** C1. Two objects that do not come back from a round trip. With an
    apostrophe written for every double quote: the object with the one
    key [a'b] is serialized as [{'a'b':true}], which [myParse] rejects.
    The object with the one key of the three characters [a], backslash,
    [n] is serialized with the backslash as it is, and [myParse] returns
    an object whose one key is [a] followed by a newline. *)
Theorem C1_round_trip_fails_on_keys {NI : NumberImpl} (fuel : nat) :
  (myStringify (3 + fuel) [CObject [(qlit "a'b", JBoolean true)]] (JRef 0) None SpaceOther
   = Return (Some (qlit "{'a'b':true}"))
   /\ myParse (3 + fuel) (qlit "{'a'b':true}") None = Throw (SyntaxError ExpectedColon))
  /\ (myStringify (3 + fuel) [CObject [(lit "a\n", JBoolean true)]] (JRef 0) None SpaceOther
      = Return (Some (qlit "{'a\n':true}"))
      /\ myParse (4 + fuel) (qlit "{'a\n':true}") None
         = Return (VObject [([ch "a"; LF], VBoolean true)])).
Proof. repeat split; reflexivity. Qed.

(* ================================================================== *)
(** ** The reviver *)

(** C2. The text [[['a']]] with the reviver that appends an exclamation
    mark to every string. The reviver is called while the text is being
    parsed, each time a container is complete, and on a container before
    its elements; the inner array and its string are handed to it once
    when the inner array is complete and once more when the outer one
    is. The result holds [a!!]; a reviver called once for each node,
    elements first, gives [a!]. *)
Theorem C2_reviver_calls {NI : NumberImpl} (fuel : nat) :
  runParse (5 + fuel) (qlit "[['a']]") (Some exclaim)
  = Return
      (VArray [Some (VArray [Some (VString (lit "a!!"))])],
       {| index := 7;
          reviverCalls :=
            [([], VArray [Some (VString (lit "a"))]);
             (lit "0", VString (lit "a"));
             ([], VArray [Some (VArray [Some (VString (lit "a!"))])]);
             (lit "0", VArray [Some (VString (lit "a!"))]);
             (lit "0", VString (lit "a!"));
             ([], VArray [Some (VArray [Some (VString (lit "a!!"))])])] |}).
Proof. reflexivity. Qed.

(* ================================================================== *)
(** ** Empty containers under indentation *)

(** C9. With an indentation that is not empty, an empty array is
    serialized as an opening bracket, a line holding the indentation of
    its elements, a line holding its own indentation and the closing
    bracket, and an empty object as an opening brace, an empty line, a
    line holding its own indentation and the closing brace; with two
    spaces at depth 0 these are the brace, two line breaks and the brace,
    and the bracket, a line of two spaces, a line break and the
    bracket. *)
Theorem C9_empty_containers_with_indent {NI : NumberImpl} (fuel : nat) :
  myStringify (S fuel) [CObject []] (JRef 0) None (SpaceNumber 2)
  = Return (Some [ch "{"; LF; LF; ch "}"])
  /\ myStringify (S fuel) [CArray []] (JRef 0) None (SpaceNumber 2)
     = Return (Some [ch "["; LF; SPACE; SPACE; LF; ch "]"])
  /\ (forall c indent rec l depth st,
         stringifyArray (c :: indent) rec l [] depth st
         = Return (Some (lit "[" ++ [LF] ++ repeatString (c :: indent) (depth + 1)
                         ++ [LF] ++ repeatString (c :: indent) depth ++ lit "]"), st))
  /\ (forall c indent rec l depth st,
         stringifyObject (c :: indent) rec l [] depth st
         = Return (Some (lit "{" ++ [LF] ++ [LF]
                         ++ repeatString (c :: indent) depth ++ lit "}"), st)).
Proof.
  split; [reflexivity | split; [reflexivity | split]].
  - intros. unfold stringifyArray, bind, push, pop, ret. simpl.
    rewrite removelast_last. destruct st; simpl.
    rewrite <- ?app_assoc. reflexivity.
  - intros. unfold stringifyObject, bind, push, pop, ret. simpl.
    rewrite removelast_last. destruct st; simpl.
    rewrite <- ?app_assoc. reflexivity.
Qed.

(* ================================================================== *)
(** ** The visits of the elements of arrays and of the entries of objects *)

Lemma join_prefixed (pre : jsstring) (ts : list jsstring) :
  ts <> [] ->
  pre ++ join (lit "," ++ pre) ts = join (lit ",") (map (fun t => pre ++ t) ts).
Proof.
  induction ts as [|t ts IH]; [congruence |].
  intros _. destruct ts as [|t' ts].
  - reflexivity.
  - change (join (lit "," ++ pre) (t :: t' :: ts))
      with (t ++ (lit "," ++ pre) ++ join (lit "," ++ pre) (t' :: ts)).
    change (map (fun t0 => pre ++ t0) (t :: t' :: ts))
      with ((pre ++ t) :: map (fun t0 => pre ++ t0) (t' :: ts)).
    change (join (lit ",") ((pre ++ t) :: map (fun t0 => pre ++ t0) (t' :: ts)))
      with ((pre ++ t) ++ lit "," ++ join (lit ",") (map (fun t0 => pre ++ t0) (t' :: ts))).
    rewrite <- IH by discriminate.
    rewrite <- !app_assoc. reflexivity.
Qed.

Section Runs.
Context {NI : NumberImpl}.
Variable indent : jsstring.

(** What [stringifyArray] puts between the brackets. *)
Lemma arrayBody_code (depth : nat) (texts : list jsstring) :
  (let result :=
     join (if truthy indent then lit "," ++ [LF] ++ repeatString indent (depth + 1)
           else lit ",") texts in
   if truthy indent
   then [LF] ++ repeatString indent (depth + 1) ++ result ++ [LF]
        ++ repeatString indent depth
   else result)
  = arrayBody indent depth texts.
Proof.
  unfold arrayBody, onLines, lineBreak. cbv zeta. destruct (truthy indent).
  - destruct texts as [|t ts].
    + cbn [join app]. rewrite <- ?app_assoc. reflexivity.
    + rewrite <- (@join_prefixed ([LF] ++ repeatString indent (depth + 1)) (t :: ts))
        by discriminate.
      rewrite <- !app_assoc. reflexivity.
  - destruct texts as [|t ts]; [reflexivity |].
    cbn [app]. rewrite map_id, app_nil_r. reflexivity.
Qed.

(** What [stringifyObject] puts between the braces. *)
Lemma objectBody_code (depth : nat) (texts : list jsstring) :
  (let result :=
     join (if truthy indent then lit "," ++ [LF] else lit ",")
          (map (fun t => (if truthy indent then repeatString indent (depth + 1) else [])
                         ++ t) texts) in
   if truthy indent
   then [LF] ++ result ++ [LF] ++ repeatString indent depth
   else result)
  = objectBody indent depth texts.
Proof.
  unfold objectBody, onLines, lineBreak. cbv zeta. destruct (truthy indent).
  - destruct texts as [|t ts].
    + cbn [map join app repeatString]. reflexivity.
    + assert (Hne : map (fun t0 => repeatString indent (depth + 1) ++ t0) (t :: ts) <> [])
        by discriminate.
      rewrite (app_assoc [LF]).
      rewrite (join_prefixed [LF] Hne). rewrite map_map.
      reflexivity.
  - destruct texts as [|t ts]; [reflexivity |].
    cbn [app]. rewrite !map_id, app_nil_r. reflexivity.
Qed.

Variable visit : jsstring -> jsval -> nat -> M sstate (option jsstring).

(** The run of [map] in [stringifyArray] is the visits of the elements,
    each under the empty key. *)
Lemma mapM_run_elements (depth : nat) :
  forall items s pieces s',
    mapM_run (fun slot : option jsval =>
                match slot with
                | Some item =>
                    r <- visit [] item (depth + 1) ;;
                    ret (Some (nullish r (lit "null")))
                | None => ret None
                end) items s pieces s' ->
    exists rs,
      visits visit (depth + 1) (map (fun item => ([], item)) (elements items)) s rs s'
      /\ map joined pieces = slotTexts items rs.
Proof.
  intros items s pieces s' Hrun.
  induction Hrun as [s|slot items s piece s1 pieces s2 Hslot _ IH].
  - exists []. split; [constructor | reflexivity].
  - destruct IH as (rs & Hvisits & Htexts).
    destruct slot as [item|].
    + apply bind_Return_inv in Hslot. destruct Hslot as (r & s3 & Hvisit & Hret).
      unfold ret in Hret. injection Hret as <- <-.
      exists (r :: rs). split.
      * cbn [elements flat_map app map]. econstructor; [exact Hvisit | exact Hvisits].
      * cbn [map joined slotTexts]. rewrite Htexts. destruct r; reflexivity.
    + unfold ret in Hslot. injection Hslot as <- <-.
      exists rs. split; [exact Hvisits |].
      cbn [map joined slotTexts]. rewrite Htexts. destruct rs; reflexivity.
Qed.

(** The run of [filter] in [stringifyObject] is the visits of the
    entries, and keeps the entries whose visit returns a text. *)
Lemma mapM_run_filter (depth : nat) :
  forall entries s bs s',
    mapM_run (fun entry : jsstring * jsval =>
                r <- visit (fst entry) (snd entry) depth ;; ret (isSome r))
             entries s bs s' ->
    exists rs,
      visits visit depth entries s rs s'
      /\ map fst (filter snd (combine entries bs)) = keptEntries entries rs.
Proof.
  intros entries s bs s' Hrun.
  induction Hrun as [s|[k v] entries s b s1 bs s2 Hentry _ IH].
  - exists []. split; [constructor | reflexivity].
  - destruct IH as (rs & Hvisits & Hkept).
    apply bind_Return_inv in Hentry. destruct Hentry as (r & s3 & Hvisit & Hret).
    unfold ret in Hret. injection Hret as <- <-. cbn [fst snd] in Hvisit.
    exists (r :: rs). split; [econstructor; [exact Hvisit | exact Hvisits] |].
    cbn [combine filter snd keptEntries]. destruct (isSome r); cbn [map fst];
      rewrite Hkept; reflexivity.
Qed.

(** The run of [map] in [stringifyObject] is the visits of the kept
    entries, one level deeper. *)
Lemma mapM_run_entries (depth : nat) :
  forall kept s pieces s',
    mapM_run (fun entry : jsstring * jsval =>
                r <- visit (fst entry) (snd entry) (depth + 1) ;;
                ret ((if truthy indent then repeatString indent (depth + 1) else [])
                     ++ [QUOTE] ++ fst entry ++ [QUOTE] ++ lit ":"
                     ++ (if truthy indent then lit " " else [])
                     ++ template r))
             kept s pieces s' ->
    exists rs,
      visits visit (depth + 1) kept s rs s'
      /\ pieces = map (fun t => (if truthy indent then repeatString indent (depth + 1)
                                 else []) ++ t)
                      (entryTexts indent kept rs).
Proof.
  intros kept s pieces s' Hrun.
  induction Hrun as [s|[k v] kept s piece s1 pieces s2 Hentry _ IH].
  - exists []. split; [constructor | reflexivity].
  - destruct IH as (rs & Hvisits & Hpieces).
    apply bind_Return_inv in Hentry. destruct Hentry as (r & s3 & Hvisit & Hret).
    unfold ret in Hret. injection Hret as <- <-. cbn [fst snd] in Hvisit.
    exists (r :: rs). split; [econstructor; [exact Hvisit | exact Hvisits] |].
    cbn [entryTexts map fst]. rewrite Hpieces. unfold colonGap, template.
    destruct r; reflexivity.
Qed.

(** A run of [stringifyArray] that returns: the array is entered, its
    elements are visited one after the other under the empty key, the
    array is left, and the text is made of what the visits returned. *)
Lemma stringifyArray_run l items depth st r st' :
  stringifyArray indent visit l items depth st = Return (r, st') ->
  exists rs s2,
    visits visit (depth + 1) (map (fun item => ([], item)) (elements items))
           (entered l st) rs s2
    /\ st' = exited s2
    /\ r = Some (lit "[" ++ arrayBody indent depth (slotTexts items rs) ++ lit "]").
Proof.
  unfold stringifyArray. intros H.
  apply bind_Return_inv in H. destruct H as ([] & s0 & Hpush & H).
  apply bind_Return_inv in H. destruct H as (pieces & s1 & Hrun & H).
  apply bind_Return_inv in H. destruct H as ([] & s2 & Hpop & H).
  unfold ret in H. injection H as <- <-.
  unfold push in Hpush. injection Hpush as <-.
  unfold pop in Hpop. injection Hpop as <-.
  apply mapM_Return_inv, mapM_run_elements in Hrun.
  destruct Hrun as (rs & Hvisits & Htexts).
  exists rs, s1. split; [exact Hvisits | split; [reflexivity |]].
  rewrite Htexts. rewrite <- arrayBody_code. reflexivity.
Qed.

(** A run of [stringifyObject] that returns: the object is entered, its
    entries are visited one after the other, the entries of which the
    visit returned a text are visited once more, one level deeper, the
    object is left, and the text is made of what the second visits
    returned. *)
Lemma stringifyObject_run l entries depth st r st' :
  stringifyObject indent visit l entries depth st = Return (r, st') ->
  exists rs1 s1 rs2 s2,
    visits visit depth entries (entered l st) rs1 s1
    /\ visits visit (depth + 1) (keptEntries entries rs1) s1 rs2 s2
    /\ st' = exited s2
    /\ r = Some (lit "{"
                 ++ objectBody indent depth
                               (entryTexts indent (keptEntries entries rs1) rs2)
                 ++ lit "}").
Proof.
  unfold stringifyObject. intros H.
  apply bind_Return_inv in H. destruct H as ([] & s0 & Hpush & H).
  apply bind_Return_inv in H. destruct H as (kept & s1 & Hfilter & H).
  apply bind_Return_inv in H. destruct H as (pieces & s2 & Hmap & H).
  apply bind_Return_inv in H. destruct H as ([] & s3 & Hpop & H).
  unfold ret in H. injection H as <- <-.
  unfold push in Hpush. injection Hpush as <-.
  unfold pop in Hpop. injection Hpop as <-.
  apply filterM_Return_inv in Hfilter. destruct Hfilter as (bs & Hrun & ->).
  apply mapM_run_filter in Hrun. destruct Hrun as (rs1 & Hvisits1 & Hkept).
  rewrite Hkept in Hmap.
  apply mapM_Return_inv, mapM_run_entries in Hmap.
  destruct Hmap as (rs2 & Hvisits2 & ->).
  exists rs1, s1, rs2, s2.
  split; [exact Hvisits1 | split; [exact Hvisits2 | split; [reflexivity |]]].
  rewrite <- objectBody_code. reflexivity.
Qed.

(** What visits add to the record of calls when each of them adds the
    call on its key and value and nothing else. *)
Lemma visits_calls (depth : nat) jobs s rs s' :
  visits visit depth jobs s rs s' ->
  (forall key v s r s', In (key, v) jobs ->
                        visit key v depth s = Return (r, s') ->
                        calls s' = calls s ++ [(key, v)]) ->
  calls s' = calls s ++ jobs.
Proof.
  intros Hrun.
  induction Hrun as [s|key v rest s r s1 rs s2 Hone _ IH]; intros Hvisit.
  - rewrite app_nil_r. reflexivity.
  - rewrite IH by (intros; eapply Hvisit; [right |]; eassumption).
    rewrite (Hvisit _ _ _ _ _ (or_introl eq_refl) Hone), <- app_assoc. reflexivity.
Qed.

End Runs.

Section ReplacerCalls.
Context {NI : NumberImpl}.
Variable heap : store.
Variable replacerFn : option replacer_fn.
Variable indent : jsstring.

(** What [applyReplacer] does: it hands the value and the calls made
    before to the replacer and puts the call on record. *)
Lemma applyReplacer_run key v (st : sstate) :
  applyReplacer replacerFn key v st
  = Return (match replacerFn with Some f => f (calls st) key v | None => v end,
            {| stack := stack st;
               calls := calls st ++ match replacerFn with
                                    | Some _ => [(key, v)]
                                    | None => []
                                    end |}).
Proof.
  unfold applyReplacer. destruct replacerFn as [f|].
  - reflexivity.
  - unfold ret. rewrite app_nil_r. destruct st; reflexivity.
Qed.

(** A visit that returns: the replacer is called once, on the key and
    the value of the visit, and what it answers decides the rest. For a
    container the rest is the run of [stringifyArray] or of
    [stringifyObject] on it, at the depth of the visit and with the
    visits of one unit of fuel less; for another value there is no
    rest. *)
Lemma stringifyValue_run fuel key v depth st r st' :
  stringifyValue heap replacerFn indent (S fuel) key v depth st = Return (r, st') ->
  let answer := match replacerFn with Some f => f (calls st) key v | None => v end in
  let st1 := {| stack := stack st;
                calls := calls st ++ match replacerFn with
                                     | Some _ => [(key, v)]
                                     | None => []
                                     end |} in
  match answer with
  | JRef l =>
      includes l (stack st) = false
      /\ match nth_error heap l with
         | Some (CArray items) =>
             stringifyArray indent (stringifyValue heap replacerFn indent fuel)
                            l items depth st1
             = Return (r, st')
         | Some (CObject entries) =>
             stringifyObject indent (stringifyValue heap replacerFn indent fuel)
                             l entries depth st1
             = Return (r, st')
         | None => False
         end
  | _ => st' = st1
  end.
Proof.
  cbn [stringifyValue]. intros H.
  rewrite (bind_Return _ _ _ (applyReplacer_run key v st)) in H.
  cbv zeta.
  destruct (match replacerFn with Some f => f (calls st) key v | None => v end)
    as [|b|n|s|l| |];
    try (unfold ret in H; injection H as _ <-; reflexivity).
  unfold bind at 1, get at 1 in H. cbn [stack] in H.
  destruct (includes l (stack st)); [discriminate |].
  split; [reflexivity |].
  destruct (nth_error heap l) as [[items|entries]|]; [exact H | exact H | discriminate].
Qed.

(** Visits add calls to the record and take none away. *)
Lemma visits_grow visit (depth : nat) :
  (forall key v s r s', visit key v depth s = Return (r, s') ->
                        exists trace, calls s' = calls s ++ trace) ->
  forall jobs s rs s',
    visits visit depth jobs s rs s' -> exists trace, calls s' = calls s ++ trace.
Proof.
  intros Hvisit jobs s rs s' Hrun.
  induction Hrun as [s|key v rest s r s1 rs s2 Hone _ IH].
  - exists []. rewrite app_nil_r. reflexivity.
  - destruct IH as (t2 & ->). destruct (Hvisit _ _ _ _ _ Hone) as (t1 & ->).
    exists (t1 ++ t2). rewrite app_assoc. reflexivity.
Qed.

(** A visit adds calls to the record and takes none away; the first it
    adds is the call on its own key and value, and it is the only one
    when what the replacer answers is no container. *)
Lemma stringifyValue_calls :
  forall fuel key v depth st r st',
    stringifyValue heap replacerFn indent fuel key v depth st = Return (r, st') ->
    exists rest,
      calls st' = calls st ++ (match replacerFn with Some _ => [(key, v)] | None => [] end)
                           ++ rest
      /\ ((forall l, match replacerFn with Some f => f (calls st) key v | None => v end
                     <> JRef l) -> rest = []).
Proof.
  induction fuel as [|fuel IH]; intros key v depth st r st' H; [discriminate |].
  assert (IH' : forall d k v0 (sa : sstate) (y : option jsstring) sb,
             stringifyValue heap replacerFn indent fuel k v0 d sa = Return (y, sb) ->
             exists trace, calls sb = calls sa ++ trace).
  { intros d k v0 sa y sb Hvisit.
    destruct (IH _ _ _ _ _ _ Hvisit) as (rest & Hrest & _). eauto. }
  cbn [stringifyValue] in H.
  rewrite (bind_Return _ _ _ (applyReplacer_run key v st)) in H.
  set (answer := match replacerFn with Some f => f (calls st) key v | None => v end) in *.
  set (s1 := {| stack := stack st;
                calls := calls st ++ match replacerFn with
                                     | Some _ => [(key, v)]
                                     | None => []
                                     end |}) in *.
  assert (Hrest : exists trace, calls st' = calls s1 ++ trace
                                /\ ((forall l, answer <> JRef l) -> trace = [])).
  { destruct answer as [|b|n|s|l| |];
      try (unfold ret in H; injection H as _ <-; exists []; rewrite app_nil_r;
           split; reflexivity).
    apply bind_Return_inv in H. destruct H as (s2 & s3 & Hget & H).
    unfold get in Hget. injection Hget as <- <-.
    destruct (includes l (stack s1)); [discriminate |].
    assert (Hleaf : forall trace : list (jsstring * jsval),
               (forall l0, @JRef NI l <> JRef l0) -> trace = []).
    { intros trace Hno. exfalso. apply (Hno l). reflexivity. }
    destruct (nth_error heap l) as [[items|entries]|]; [| | discriminate].
    - apply stringifyArray_run in H. destruct H as (rs & s4 & Hvisits & -> & _).
      apply (visits_grow (IH' (depth + 1))) in Hvisits.
      destruct Hvisits as (trace & Htrace). exists trace. split; [exact Htrace | apply Hleaf].
    - apply stringifyObject_run in H.
      destruct H as (rs1 & s4 & rs2 & s5 & Hvisits1 & Hvisits2 & -> & _).
      apply (visits_grow (IH' depth)) in Hvisits1.
      apply (visits_grow (IH' (depth + 1))) in Hvisits2.
      destruct Hvisits1 as (t1 & Ht1). destruct Hvisits2 as (t2 & Ht2).
      exists (t1 ++ t2). split; [| apply Hleaf].
      cbn [exited calls entered] in *. rewrite Ht2, Ht1, app_assoc. reflexivity. }
  destruct Hrest as (trace & Hrest & Hleaf).
  exists trace. split; [| exact Hleaf].
  rewrite Hrest. subst s1. cbn [calls]. rewrite <- app_assoc. reflexivity.
Qed.

(** Whether a visit returns a text is decided by what the replacer
    answers to its call. *)
Lemma stringifyValue_represented fuel key v depth st r st' :
  stringifyValue heap replacerFn indent fuel key v depth st = Return (r, st') ->
  isSome r = represented replacerFn (calls st) key v.
Proof.
  destruct fuel as [|fuel]; [discriminate |].
  cbn [stringifyValue]. intros H.
  rewrite (bind_Return _ _ _ (applyReplacer_run key v st)) in H.
  unfold represented.
  destruct (match replacerFn with Some f => f (calls st) key v | None => v end)
    as [|b|n|s|l| |];
    try (unfold ret in H; injection H as <- _; reflexivity).
  apply bind_Return_inv in H. destruct H as (s2 & s3 & _ & H).
  destruct (includes l (stack s2)); [discriminate |].
  destruct (nth_error heap l) as [[items|entries]|]; [| | discriminate].
  - apply stringifyArray_run in H. destruct H as (rs & s4 & _ & _ & ->). reflexivity.
  - apply stringifyObject_run in H.
    destruct H as (rs1 & s4 & rs2 & s5 & _ & _ & _ & ->). reflexivity.
Qed.

End ReplacerCalls.


(** C6. Two values on which [myStringify] does neither of the two things
    the specification has for a value without representation. The
    object [{a: {}}] with the replacer that answers [undefined] for a
    container it has been given before: the entry is visited twice, it
    is kept because the first visit returns a text, and the second
    visit returns none, so that the entry is written as
    [{'a':undefined}], neither left out nor serialized. The array
    [[1, <hole>, 3]] is written as [[1,,3]], with nothing at the slot
    of the hole and no [null]. The object of the specification,
    [{a: 1, b: <function>, c: {inner: undefined}}], is written as
    [{'a':1,'c':{}}]. *)
Theorem C6_entry_neither_omitted_nor_serialized (fuel : nat) :
  @myStringify IntegerNumbers (3 + fuel)
    [CObject [(lit "a", JRef 1)]; CObject []] (JRef 0) (Some seenOnce) SpaceOther
  = Return (Some (qlit "{'a':undefined}"))
  /\ @myStringify IntegerNumbers (3 + fuel)
       [CObject [(lit "a", JRef 1)]; CObject []] (JRef 0) None SpaceOther
     = Return (Some (qlit "{'a':{}}"))
  /\ @myStringify IntegerNumbers (2 + fuel)
       [CArray [Some (num 1); None; Some (num 3)]] (JRef 0) None SpaceOther
     = Return (Some (lit "[1,,3]"))
  /\ @myStringify IntegerNumbers (3 + fuel)
       [CObject [(lit "a", num 1); (lit "b", JFunction); (lit "c", JRef 1)];
        CObject [(lit "inner", JUndefined)]]
       (JRef 0) None SpaceOther
     = Return (Some (qlit "{'a':1,'c':{}}")).
Proof. repeat split; reflexivity. Qed.

(* ================================================================== *)
(** ** The calls to the replacer *)



(* ================================================================== *)
(** ** The parser and white space *)

Lemma whitespace_numberStop (c : codeunit) :
  whitespace c = true -> numberStop (Some c) = true.
Proof.
  unfold whitespace, numberStop, isDigitUnit, ch. simpl.
  intros H.
  destruct (N.leb 48 c && N.leb c 57 || N.eqb c 46 || N.eqb c 101 || N.eqb c 69) eqn:E;
    [| reflexivity].
  exfalso.
  rewrite !orb_true_iff, !andb_true_iff, !N.leb_le, !N.eqb_eq in H.
  rewrite !orb_true_iff, !andb_true_iff, !N.leb_le, !N.eqb_eq in E.
  lia.
Qed.

Lemma fourSpaces_whitespace (c : codeunit) :
  fourSpaces c = true -> whitespace c = true.
Proof.
  unfold fourSpaces, whitespace, SPACE, TAB, LF, CR.
  rewrite !orb_true_iff, !andb_true_iff, !N.leb_le, !N.eqb_eq.
  lia.
Qed.

Lemma charIs_true (c : codeunit) (x : option codeunit) :
  charIs c x = true -> x = Some c.
Proof.
  destruct x as [d|]; simpl; [| discriminate].
  intros H. apply N.eqb_eq in H. congruence.
Qed.

Lemma skipn_nth_error {A} (l : list A) (i : nat) :
  skipn i l = match nth_error l i with
              | Some x => x :: skipn (S i) l
              | None => []
              end.
Proof.
  revert i. induction l as [|x l IH]; intros [|i]; simpl; auto.
Qed.

Section Transfer.
Context {NI : NumberImpl}.
Variables t t' : jsstring.
Variable k : nat.

Lemma agree_sub i j i' j' :
  agree t t' k i j -> i <= i' -> j' <= j -> agree t t' k i' j'.
Proof. unfold agree. intros H Hi Hj p Hp. apply H. lia. Qed.

(** *** [skipWhitespace] *)

Lemma skipWhitespaceFrom_skips (json : jsstring) :
  forall budget i,
    length json - i <= budget ->
    skips json i (skipWhitespaceFrom json budget i).
Proof.
  induction budget as [|budget IH]; intros i Hb; simpl.
  - split; [lia | split; [intros; lia |]].
    assert (H : nth_error json i = None) by (apply nth_error_None; lia).
    rewrite H. reflexivity.
  - unfold charAt. destruct (testWhitespace (nth_error json i)) eqn:Hws.
    + destruct (IH (S i)) as (Hle & Hall & Hstop); [lia |].
      split; [lia | split; [| exact Hstop]].
      intros p Hp. destruct (Nat.eq_dec p i) as [-> | Hne]; [exact Hws |].
      apply Hall. lia.
    + split; [lia | split; [intros; lia | exact Hws]].
Qed.

Lemma skips_unique (json : jsstring) i q q' :
  skips json i q -> skips json i q' -> q = q'.
Proof.
  intros (H1 & H2 & H3) (H1' & H2' & H3').
  destruct (Nat.lt_trichotomy q q') as [Hlt | [Heq | Hgt]]; [| exact Heq |].
  - rewrite (H2' q) in H3; [discriminate | lia].
  - rewrite (H2 q') in H3'; [discriminate | lia].
Qed.

Lemma skipWhitespace_skips (json : jsstring) s :
  exists s1, skipWhitespace json s = Return (tt, s1)
             /\ skips json (index s) (index s1)
             /\ reviverCalls s1 = reviverCalls s.
Proof.
  eexists. split; [reflexivity |]. simpl. split; [| reflexivity].
  apply skipWhitespaceFrom_skips. lia.
Qed.

Lemma skips_run (json : jsstring) s q :
  skips json (index s) q ->
  skipWhitespace json s = Return (tt, {| index := q; reviverCalls := reviverCalls s |}).
Proof.
  intros H. destruct (skipWhitespace_skips json s) as (s1 & Hrun & Hsk & Hc).
  rewrite Hrun. f_equal. f_equal.
  rewrite (skips_unique H Hsk). destruct s1; simpl in *. congruence.
Qed.

(** The white space skipped in [t] is skipped in [t'] when the texts
    agree on it and on the character that stops the loop. *)
Lemma skipWhitespace_transfer s s1 :
  skipWhitespace t s = Return (tt, s1) ->
  index s <= index s1 /\
  reviverCalls s1 = reviverCalls s /\
  (agree t t' k (index s) (S (index s1)) ->
   skipWhitespace t' (shift k s) = Return (tt, shift k s1)).
Proof.
  intros H.
  destruct (skipWhitespace_skips t s) as (s1' & Hrun & Hsk & Hc).
  rewrite Hrun in H. injection H as <-.
  destruct Hsk as (Hle & Hall & Hstop).
  split; [exact Hle | split; [exact Hc |]].
  intros Hag.
  rewrite (@skips_run t' (shift k s) (k + index s1')).
  - unfold shift. simpl. rewrite Hc. reflexivity.
  - simpl. split; [lia | split].
    + intros p Hp. replace p with (k + (p - k)) by lia.
      rewrite Hag by lia. apply Hall. lia.
    + rewrite Hag by lia. exact Hstop.
Qed.

(** *** [parseString] *)

Lemma parseStringLoop_transfer :
  forall fuel result s a s1,
    parseStringLoop t fuel result s = Return (a, s1) ->
    index s < index s1 /\ index s1 <= length t /\
    (agree t t' k (index s) (index s1) ->
     parseStringLoop t' fuel result (shift k s) = Return (a, shift k s1)).
Proof.
  induction fuel as [|fuel IH]; intros result s a s1 H; [discriminate |].
  cbn [parseStringLoop] in H |- *.
  unfold bind at 1, peek at 1 in H.
  unfold charAt in H.
  destruct (charIs QUOTE (nth_error t (index s))) eqn:Hq.
  - unfold bind, advance, ret in H. injection H as <- <-. simpl.
    apply charIs_true in Hq.
    assert (Hlt : index s < length t) by (apply nth_error_Some; congruence).
    split; [lia | split; [lia |]].
    intros Hag. unfold bind at 1, peek at 1, charAt. simpl.
    rewrite (Hag (index s)) by lia. rewrite Hq. simpl.
    unfold bind, advance, ret, shift. simpl. do 3 f_equal. lia.
  - destruct (charIs BACKSLASH (nth_error t (index s))) eqn:Hb.
    + unfold bind at 1, advance at 1 in H.
      unfold bind at 1, peek at 1 in H. cbn [index] in H.
      apply bind_Return_inv in H. destruct H as (r & sa & Happ & H).
      apply append_Return in Happ. destruct Happ as (-> & _ & Happ).
      unfold bind at 1, advance at 1 in H. cbn [index reviverCalls] in H.
      apply IH in H. cbn [index] in H. destruct H as (Hlt & Hlen & Htr).
      split; [lia | split; [exact Hlen |]].
      intros Hag. unfold bind at 1, peek at 1, charAt. cbn [shift index].
      rewrite (Hag (index s)) by lia. rewrite Hq, Hb.
      unfold bind at 1, advance at 1.
      unfold bind at 1, peek at 1, charAt. cbn [index reviverCalls].
      cbn [shift index reviverCalls].
      replace (k + index s + 1) with (k + (index s + 1)) by lia.
      rewrite (Hag (index s + 1)) by lia.
      unfold charAt in Happ. rewrite (bind_Return _ _ _ (Happ _)).
      unfold bind at 1, advance at 1. unfold shift in *. cbn [index reviverCalls] in *.
      replace (k + (index s + 1) + 1) with (k + (index s + 1 + 1)) by lia.
      apply Htr. eapply agree_sub; eauto; lia.
    + apply bind_Return_inv in H. destruct H as (r & sa & Happ & H).
      apply append_Return in Happ. destruct Happ as (-> & _ & Happ).
      unfold bind at 1, advance at 1 in H.
      apply IH in H. cbn [index] in H. destruct H as (Hlt & Hlen & Htr).
      split; [lia | split; [exact Hlen |]].
      intros Hag. unfold bind at 1, peek at 1, charAt. cbn [shift index].
      rewrite (Hag (index s)) by lia. rewrite Hq, Hb.
      rewrite (bind_Return _ _ _ (Happ _)).
      unfold bind at 1, advance at 1. unfold shift in *. cbn [index reviverCalls] in *.
      replace (k + index s + 1) with (k + (index s + 1)) by lia.
      apply Htr. eapply agree_sub; eauto; lia.
Qed.

Lemma parseString_transfer fuel s a s1 :
  parseString t fuel s = Return (a, s1) ->
  index s < index s1 /\ index s1 <= length t /\
  (agree t t' k (S (index s)) (index s1) ->
   parseString t' fuel (shift k s) = Return (a, shift k s1)).
Proof.
  unfold parseString. unfold bind at 1, advance at 1. intros H.
  apply parseStringLoop_transfer in H. cbn [index] in H.
  destruct H as (Hlt & Hlen & Htr).
  split; [lia | split; [exact Hlen |]].
  intros Hag. unfold bind at 1, advance at 1. unfold shift in *. cbn [index reviverCalls] in *.
  replace (k + index s + 1) with (k + (index s + 1)) by lia.
  apply Htr. eapply agree_sub; eauto; lia.
Qed.

End Transfer.

(** *** The regular expression of numbers looks one character ahead *)

Lemma numberStop_inv (c : codeunit) :
  numberStop (Some c) = true ->
  isDigitUnit c = false /\ N.eqb c (ch ".") = false
  /\ N.eqb c (ch "e") = false /\ N.eqb c (ch "E") = false.
Proof.
  unfold numberStop. rewrite negb_true_iff, !orb_false_iff. tauto.
Qed.

Lemma same_skipn n a s s' :
  same n s s' -> a <= n -> same (n - a) (skipn a s) (skipn a s').
Proof.
  intros H Ha p Hp. rewrite !nth_error_skipn. apply H. lia.
Qed.

Lemma same_tail n c s c' s' :
  same (S n) (c :: s) (c' :: s') -> c' = c /\ same n s s'.
Proof.
  intros H. split.
  - specialize (H 0 (Nat.lt_0_succ n)). simpl in H. congruence.
  - intros p Hp. apply (H (S p)). lia.
Qed.

Lemma same_head n c s s' :
  same (S n) (c :: s) s' -> exists s1', s' = c :: s1' /\ same n s s1'.
Proof.
  intros H. destruct s' as [|c' s1'].
  - specialize (H 0 (Nat.lt_0_succ n)). discriminate.
  - destruct (same_tail H) as [-> Hs]. eauto.
Qed.

Lemma digitRun_le s : digitRun s <= length s.
Proof.
  induction s as [|c s IH]; simpl; [lia |].
  destruct (isDigitUnit c); simpl; lia.
Qed.

Lemma digitRun_local :
  forall s s' n,
    same n s s' ->
    digitRun s <= n ->
    (digitRun s = n -> isDigit (nth_error s' n) = false) ->
    digitRun s' = digitRun s.
Proof.
  induction s as [|c s IH]; intros s' n Hsame Hle Hstop.
  - simpl in *. destruct n as [|n].
    + specialize (Hstop eq_refl). destruct s' as [|c' s']; [reflexivity |].
      simpl in *. rewrite Hstop. reflexivity.
    + specialize (Hsame 0 (Nat.lt_0_succ n)). destruct s'; [reflexivity | discriminate].
  - simpl in *. destruct (isDigitUnit c) eqn:Hc.
    + destruct n as [|n]; [lia |].
      destruct (same_head Hsame) as (s1' & -> & Hs). simpl. rewrite Hc.
      f_equal. apply (IH s1' n); [exact Hs | lia |].
      intros Heq. apply Hstop. lia.
    + destruct n as [|n].
      * specialize (Hstop eq_refl). destruct s' as [|c' s']; [reflexivity |].
        simpl in *. rewrite Hstop. reflexivity.
      * destruct (same_head Hsame) as (s1' & -> & _). simpl. rewrite Hc. reflexivity.
Qed.

Lemma matchExponent_le s : matchExponent s <= length s.
Proof.
  destruct s as [|c s]; [simpl; lia |].
  unfold matchExponent.
  destruct (N.eqb c (ch "e") || N.eqb c (ch "E")); [| lia].
  set (sign := match s with
               | c' :: _ => if N.eqb c' (ch "+") || N.eqb c' (ch "-") then 1 else 0
               | [] => 0
               end).
  assert (Hsign : sign <= length s).
  { unfold sign. destruct s as [|c' s]; simpl; [lia |].
    destruct (N.eqb c' (ch "+") || N.eqb c' (ch "-")); lia. }
  pose proof (digitRun_le (skipn sign s)) as Hd. rewrite length_skipn in Hd.
  destruct (Nat.ltb 0 (digitRun (skipn sign s))); simpl; lia.
Qed.

Lemma matchFraction_le s : matchFraction s <= length s.
Proof.
  destruct s as [|c s]; simpl; [lia |].
  destruct (N.eqb c (ch ".") && Nat.ltb 0 (digitRun s)); simpl; [| lia].
  pose proof (digitRun_le s). lia.
Qed.

Lemma matchExponent_local s s' n :
  same n s s' ->
  matchExponent s = n ->
  numberStop (nth_error s' n) = true ->
  matchExponent s' = n.
Proof.
  intros Hsame Hn Hstop.
  assert (Hzero : n = 0 -> matchExponent s' = 0).
  { intros ->. destruct s' as [|c' s']; [reflexivity |].
    simpl in Hstop. apply numberStop_inv in Hstop.
    destruct Hstop as (_ & _ & He & HE). simpl. rewrite He, HE. reflexivity. }
  destruct s as [|c s]; [simpl in Hn; subst; auto |].
  simpl in Hn.
  destruct (N.eqb c (ch "e") || N.eqb c (ch "E")) eqn:Hc; [| subst; auto].
  set (sign := match s with
               | c' :: _ => if N.eqb c' (ch "+") || N.eqb c' (ch "-") then 1 else 0
               | [] => 0
               end) in *.
  destruct (Nat.ltb 0 (digitRun (skipn sign s))) eqn:Hd; [| subst; auto].
  apply Nat.ltb_lt in Hd.
  subst n. simpl in Hsame.
  destruct (same_head Hsame) as (s1' & -> & Hs).
  simpl. rewrite Hc.
  assert (Hsign : match s1' with
                  | c' :: _ => if N.eqb c' (ch "+") || N.eqb c' (ch "-") then 1 else 0
                  | [] => 0
                  end = sign).
  { destruct s as [|c0 s0].
    - simpl in Hd. unfold sign in Hd. simpl in Hd. lia.
    - assert (H0 : nth_error s1' 0 = nth_error (c0 :: s0) 0) by (apply Hs; lia).
      destruct s1' as [|c1 s2]; [discriminate |].
      simpl in H0. injection H0 as ->. reflexivity. }
  rewrite Hsign.
  assert (Hrun : digitRun (skipn sign s1') = digitRun (skipn sign s)).
  { apply digitRun_local with (n := digitRun (skipn sign s)).
    - replace (digitRun (skipn sign s)) with (sign + digitRun (skipn sign s) - sign) by lia.
      apply same_skipn; [exact Hs | lia].
    - lia.
    - intros _. rewrite nth_error_skipn.
      simpl in Hstop.
      destruct (nth_error s1' (sign + digitRun (skipn sign s))) as [c1|]; [| reflexivity].
      apply numberStop_inv in Hstop. simpl. tauto. }
  rewrite Hrun.
  destruct (Nat.ltb 0 (digitRun (skipn sign s))) eqn:Hd'; [reflexivity |].
  apply Nat.ltb_ge in Hd'. lia.
Qed.

Lemma fraction_exponent_local s s' n :
  same n s s' ->
  matchFraction s + matchExponent (skipn (matchFraction s) s) = n ->
  numberStop (nth_error s' n) = true ->
  matchFraction s' = matchFraction s
  /\ matchExponent (skipn (matchFraction s) s') = matchExponent (skipn (matchFraction s) s).
Proof.
  intros Hsame Hn Hstop.
  destruct (matchFraction s) as [|f] eqn:Hf.
  - simpl in Hn |- *.
    assert (He : matchExponent s' = matchExponent s).
    { rewrite Hn. apply matchExponent_local with (s := s); auto. }
    split; [| exact He].
    destruct n as [|n].
    + destruct s' as [|c' s']; [reflexivity |].
      simpl in Hstop. apply numberStop_inv in Hstop.
      destruct Hstop as (_ & Hdot & _ & _). simpl. rewrite Hdot. reflexivity.
    + destruct s as [|c s]; [simpl in Hn; lia |].
      destruct (same_head Hsame) as (s1' & -> & Hs).
      simpl in Hn.
      destruct (N.eqb c (ch "e") || N.eqb c (ch "E")) eqn:Hc; [| lia].
      simpl.
      assert (Hdot : N.eqb c (ch ".") = false).
      { apply orb_true_iff in Hc. destruct Hc as [Hc | Hc];
          apply N.eqb_eq in Hc; subst; reflexivity. }
      rewrite Hdot. reflexivity.
  - destruct s as [|c s]; [discriminate |].
    simpl in Hf.
    destruct (N.eqb c (ch ".") && Nat.ltb 0 (digitRun s)) eqn:Hc; [| discriminate].
    injection Hf as Hf.
    apply andb_true_iff in Hc. destruct Hc as [Hdot Hd]. apply Nat.ltb_lt in Hd.
    destruct n as [|n]; [lia |].
    destruct (same_head Hsame) as (s1' & -> & Hs).
    assert (Hrun : digitRun s1' = digitRun s).
    { apply digitRun_local with (n := n); [exact Hs | | ].
      - pose proof (matchExponent_le (skipn (S f) (c :: s))). lia.
      - intros Heq. simpl in Hstop.
        destruct (nth_error s1' n) as [c1|]; [| reflexivity].
        apply numberStop_inv in Hstop. simpl. tauto. }
    split.
    + simpl. rewrite Hdot, Hrun.
      destruct (Nat.ltb 0 (digitRun s)) eqn:Hd'; [simpl; lia |].
      apply Nat.ltb_ge in Hd'. lia.
    + apply matchExponent_local with (s := skipn (S f) (c :: s)).
      * replace (matchExponent (skipn (S f) (c :: s))) with (S n - S f) by lia.
        apply same_skipn; [exact Hsame | lia].
      * reflexivity.
      * rewrite nth_error_skipn.
        replace (S f + matchExponent (skipn (S f) (c :: s))) with (S n) by lia.
        exact Hstop.
Qed.

Lemma numberRegex_length s n :
  numberRegex s = Some n -> 0 < n <= length s.
Proof.
  unfold numberRegex.
  set (sign := matchSign s).
  destruct (Nat.eqb (digitRun (skipn sign s)) 0) eqn:Hd; [discriminate |].
  apply Nat.eqb_neq in Hd. intros H. injection H as <-.
  assert (Hsign : sign <= length s).
  { unfold sign, matchSign. destruct s as [|c s]; simpl; [lia |].
    destruct (N.eqb c (ch "-")); lia. }
  pose proof (digitRun_le (skipn sign s)) as H1.
  pose proof (matchFraction_le (skipn (sign + digitRun (skipn sign s)) s)) as H2.
  pose proof (matchExponent_le
                (skipn (sign + digitRun (skipn sign s)
                        + matchFraction (skipn (sign + digitRun (skipn sign s)) s)) s)) as H3.
  rewrite !length_skipn in *. lia.
Qed.

(** The match of the regular expression is the same in two texts that
    agree on it, when the second has after it a character that no
    number goes on with. *)
Lemma numberRegex_local s s' n :
  numberRegex s = Some n ->
  same n s s' ->
  numberStop (nth_error s' n) = true ->
  numberRegex s' = Some n.
Proof.
  intros H Hsame Hstop.
  pose proof (numberRegex_length _ H) as Hlen.
  unfold numberRegex in *.
  set (sign := matchSign s) in *.
  set (d := digitRun (skipn sign s)) in *.
  destruct (Nat.eqb d 0) eqn:Hd; [discriminate |].
  apply Nat.eqb_neq in Hd.
  set (frac := matchFraction (skipn (sign + d) s)) in *.
  set (expo := matchExponent (skipn (sign + d + frac) s)) in *.
  injection H as Hn.
  assert (Hsign : matchSign s' = sign).
  { unfold sign, matchSign. destruct s as [|c s1].
    - unfold d, sign in Hd. simpl in Hd. congruence.
    - destruct n as [|n]; [lia |].
      destruct (same_head Hsame) as (s1' & -> & _). reflexivity. }
  rewrite Hsign.
  assert (Hd' : digitRun (skipn sign s') = d).
  { apply digitRun_local with (n := n - sign).
    - apply same_skipn; [exact Hsame | lia].
    - fold d. lia.
    - fold d. intros Heq. rewrite nth_error_skipn.
      replace (sign + (n - sign)) with n by lia.
      destruct (nth_error s' n) as [c1|]; [| reflexivity].
      apply numberStop_inv in Hstop. simpl. tauto. }
  rewrite Hd'.
  destruct (Nat.eqb d 0) eqn:Hd0; [apply Nat.eqb_eq in Hd0; lia |].
  destruct (@fraction_exponent_local (skipn (sign + d) s) (skipn (sign + d) s')
                                     (n - (sign + d))) as [Hf He].
  - apply same_skipn; [exact Hsame | lia].
  - fold frac. rewrite skipn_skipn.
    replace (frac + (sign + d)) with (sign + d + frac) by lia. fold expo. lia.
  - rewrite nth_error_skipn. replace (sign + d + (n - (sign + d))) with n by lia.
    exact Hstop.
  - fold frac in Hf, He. rewrite Hf.
    rewrite !skipn_skipn in He.
    replace (frac + (sign + d)) with (sign + d + frac) in He by lia.
    rewrite He. fold expo. f_equal. exact Hn.
Qed.

Lemma jsstring_eqb_eq (a b : jsstring) : jsstring_eqb a b = true -> a = b.
Proof.
  revert b. induction a as [|x a IH]; intros [|y b]; simpl; try discriminate; auto.
  rewrite andb_true_iff, N.eqb_eq. intros [-> H]. f_equal. auto.
Qed.

Section TransferTokens.
Context {NI : NumberImpl}.
Variables t t' : jsstring.
Variable k : nat.

Lemma agree_same i n :
  agree t t' k i (i + n) -> same n (skipn i t) (skipn (k + i) t').
Proof.
  intros H p Hp. rewrite !nth_error_skipn.
  replace (k + i + p) with (k + (i + p)) by lia. apply H. lia.
Qed.

Lemma same_firstn n (s s' : jsstring) :
  same n s s' -> firstn n s' = firstn n s.
Proof.
  revert s s'. induction n as [|n IH]; intros s s' H; [reflexivity |].
  destruct s as [|c s].
  - specialize (H 0 (Nat.lt_0_succ n)). destruct s'; [reflexivity | discriminate].
  - destruct (same_head H) as (s1' & -> & Hs). simpl. f_equal. auto.
Qed.

Lemma slice_agree i n :
  agree t t' k i (i + n) -> slice t' (k + i) n = slice t i n.
Proof.
  intros H. unfold slice. apply same_firstn, agree_same, H.
Qed.

(** *** [parseLiteral] *)

Lemma parseLiteral_transfer literal v s a s1 :
  0 < length literal ->
  parseLiteral t literal v s = Return (a, s1) ->
  index s < index s1 /\ index s1 <= length t /\
  (agree t t' k (index s) (index s1) ->
   parseLiteral t' literal v (shift k s) = Return (a, shift k s1)).
Proof.
  intros Hlit H. unfold parseLiteral in *.
  unfold bind at 1, get at 1 in H.
  destruct (jsstring_eqb (slice t (index s) (length literal)) literal) eqn:Heq;
    [| discriminate].
  unfold bind, advance, ret in H. injection H as <- <-. cbn [index].
  apply jsstring_eqb_eq in Heq.
  assert (Hlen : index s + length literal <= length t).
  { assert (Hl : length (slice t (index s) (length literal)) = length literal)
      by (rewrite Heq; reflexivity).
    unfold slice in Hl. rewrite length_firstn, length_skipn in Hl. lia. }
  split; [lia | split; [exact Hlen |]].
  intros Hag. unfold bind at 1, get at 1. cbn [shift index].
  rewrite slice_agree by exact Hag. rewrite Heq.
  assert (Hrefl : forall x, jsstring_eqb x x = true).
  { induction x as [|c x IHx]; simpl; [reflexivity |]. rewrite N.eqb_refl. exact IHx. }
  rewrite Hrefl. unfold bind, advance, ret, shift. cbn [index reviverCalls].
  do 3 f_equal. lia.
Qed.

(** *** [parseNumber] *)

Lemma parseNumber_transfer s a s1 :
  parseNumber t s = Return (a, s1) ->
  index s < index s1 /\ index s1 <= length t /\
  (agree t t' k (index s) (index s1) ->
   numberStop (nth_error t' (k + index s1)) = true ->
   parseNumber t' (shift k s) = Return (a, shift k s1)).
Proof.
  intros H. unfold parseNumber in *.
  unfold bind at 1, get at 1 in H.
  destruct (numberRegex (skipn (index s) t)) as [n|] eqn:Hre; [| discriminate].
  unfold bind, advance, ret in H. injection H as <- <-. cbn [index].
  pose proof (numberRegex_length _ Hre) as Hlen. rewrite length_skipn in Hlen.
  split; [lia | split; [lia |]].
  intros Hag Hstop. unfold bind at 1, get at 1. cbn [shift index].
  rewrite (numberRegex_local Hre (agree_same Hag)).
  - unfold bind, advance, ret, shift. cbn [index reviverCalls].
    rewrite slice_agree by exact Hag. do 3 f_equal. lia.
  - rewrite nth_error_skipn.
    replace (k + index s + n) with (k + (index s + n)) by lia. exact Hstop.
Qed.

End TransferTokens.

(** *** The reviver does not look at the cursor *)

Section CursorFree.
Context {NI : NumberImpl}.

Lemma cursorFree_ret {A} (a : A) : cursorFree (ret a).
Proof. intros i c. reflexivity. Qed.

Lemma cursorFree_timeout {A} : cursorFree (@timeout pstate A).
Proof. intros i c. reflexivity. Qed.

Lemma cursorFree_bind {A B} (m : M pstate A) (g : A -> M pstate B) :
  cursorFree m -> (forall a, cursorFree (g a)) -> cursorFree (bind m g).
Proof.
  intros Hm Hg i c. unfold bind. rewrite (Hm i c).
  destruct (m {| index := 0; reviverCalls := c |}) as [[a [i0 c0]]| |] eqn:Hm0;
    simpl; try reflexivity.
  rewrite (Hg a i c0).
  pose proof (Hm 0 c) as H0. rewrite Hm0 in H0. simpl in H0.
  injection H0 as ->. reflexivity.
Qed.

Lemma cursorFree_record key v : cursorFree (record_revival key v).
Proof. intros i c. reflexivity. Qed.

Lemma cursorFree_callReviver f key v : cursorFree (callReviver f key v).
Proof.
  unfold callReviver. apply cursorFree_bind; [apply cursorFree_record |].
  intros _. apply cursorFree_ret.
Qed.

Lemma cursorFree_reviveKey f revive holder key :
  (forall v, cursorFree (revive v)) -> cursorFree (reviveKey f revive holder key).
Proof.
  intros Hrev. unfold reviveKey.
  destruct (getProp holder key) as [v|]; [| apply cursorFree_ret].
  apply cursorFree_bind; [apply cursorFree_callReviver |].
  intros newValue. destruct (isUndefined newValue); [apply cursorFree_ret |].
  destruct (getProp (setProp holder key newValue) key) as [child|]; [| apply cursorFree_ret].
  destruct (isContainer child); [| apply cursorFree_ret].
  apply cursorFree_bind; [apply Hrev |]. intros child'. apply cursorFree_ret.
Qed.

Lemma cursorFree_forKeys body keys :
  (forall holder key, cursorFree (body holder key)) ->
  forall holder, cursorFree (forKeys body holder keys).
Proof.
  intros Hbody. induction keys as [|key keys IH]; intros holder; simpl.
  - apply cursorFree_ret.
  - apply cursorFree_bind; [apply Hbody | exact IH].
Qed.

Lemma cursorFree_recursiveRevive f :
  forall fuel holder, cursorFree (recursiveRevive f fuel holder).
Proof.
  induction fuel as [|fuel IH]; intros holder; simpl.
  - apply cursorFree_timeout.
  - apply cursorFree_forKeys. intros h key. apply cursorFree_reviveKey. exact IH.
Qed.

Lemma cursorFree_applyReviver reviver fuel obj :
  cursorFree (applyReviver reviver fuel obj).
Proof.
  unfold applyReviver. destruct reviver as [f|]; [| apply cursorFree_ret].
  destruct (isContainer obj); [| apply cursorFree_ret].
  apply cursorFree_bind; [apply cursorFree_recursiveRevive |].
  intros holder. apply cursorFree_ret.
Qed.

(** What a computation that does not look at the cursor returns, it
    returns wherever the cursor is, and leaves the cursor there. *)
Lemma cursorFree_transfer {A} (m : M pstate A) k s a s1 :
  cursorFree m ->
  m s = Return (a, s1) ->
  index s1 = index s /\ m (shift k s) = Return (a, shift k s1).
Proof.
  intros Hm H. destruct s as [i c]. unfold shift. cbn [index reviverCalls].
  pose proof (Hm i c) as Hi. pose proof (Hm (k + i) c) as Hk.
  rewrite H in Hi.
  destruct (m {| index := 0; reviverCalls := c |}) as [[a0 [i0 c0]]| |];
    simpl in Hi; try discriminate.
  injection Hi as -> ->. simpl in Hk. simpl. split; [reflexivity | exact Hk].
Qed.

End CursorFree.

(** *** The loops of [parseArray] and [parseObject] *)

Lemma peek_bind {NI : NumberImpl} {B} json (g : option codeunit -> M pstate B) s :
  bind (peek json) g s = g (charAt json (index s)) s.
Proof. reflexivity. Qed.

Lemma advance_bind {NI : NumberImpl} {B} n (g : unit -> M pstate B) s :
  bind (advance n) g s
  = g tt {| index := index s + n; reviverCalls := reviverCalls s |}.
Proof. reflexivity. Qed.

Lemma skips_first (json : jsstring) i q :
  skips json i q -> i < q -> testWhitespace (nth_error json i) = true.
Proof. intros (_ & Hall & _) Hlt. apply Hall. lia. Qed.

Section TransferContainers.
Context {NI : NumberImpl}.
Variables t t' : jsstring.
Variable k : nat.
Variable reviver : option (jsstring -> value -> revived).
Variable fuel : nat.

(** The recursive calls on the two texts, and what is known of them. *)
Variables pv pv' : M pstate value.
Hypothesis pv_transfer :
  forall s a s1,
    pv s = Return (a, s1) ->
    index s < index s1 /\ index s1 <= length t /\
    (agree t t' k (index s) (index s1) ->
     numberStop (nth_error t' (k + index s1)) = true ->
     pv' (shift k s) = Return (a, shift k s1)).

(** After a value, white space and then a character [c] that is read:
    no number goes on with what follows the value. *)
Lemma stop_after_value sb sc j c :
  skipWhitespace t sb = Return (tt, sc) ->
  charAt t (index sc) = Some c ->
  numberStop (Some c) = true ->
  index sc < j ->
  agree t t' k (index sb) j ->
  numberStop (nth_error t' (k + index sb)) = true.
Proof.
  intros Hskip Hc Hstop Hj Hag.
  destruct (skipWhitespace_skips t sb) as (sc' & Hrun & Hsk & _).
  rewrite Hrun in Hskip. injection Hskip as <-.
  pose proof Hsk as (Hle & _ & _).
  rewrite Hag by lia.
  destruct (Nat.eq_dec (index sb) (index sc')) as [Heq | Hne].
  - rewrite Heq. unfold charAt in Hc. rewrite Hc. exact Hstop.
  - pose proof (skips_first Hsk ltac:(lia)) as Hws.
    destruct (nth_error t (index sb)) as [c0|]; [| discriminate].
    apply whitespace_numberStop. exact Hws.
Qed.

Lemma parseArrayLoop_transfer :
  forall n result s a s1,
    parseArrayLoop t pv n result s = Return (a, s1) ->
    index s < index s1 /\ index s1 <= length t /\
    (agree t t' k (index s) (index s1) ->
     parseArrayLoop t' pv' n result (shift k s) = Return (a, shift k s1)).
Proof.
  induction n as [|n IH]; intros result s a s1 H; [discriminate |].
  cbn [parseArrayLoop] in H.
  apply bind_Return_inv in H. destruct H as ([] & sa & Hskip1 & H).
  apply bind_Return_inv in H. destruct H as (v & sb & Hpv & H).
  cbv zeta in H.
  apply bind_Return_inv in H. destruct H as ([] & sc & Hskip2 & H).
  rewrite peek_bind in H.
  destruct (skipWhitespace_transfer t' k Hskip1) as (Hle1 & _ & Htr1).
  destruct (pv_transfer Hpv) as (Hlt2 & Hlen2 & Htr2).
  destruct (skipWhitespace_transfer t' k Hskip2) as (Hle3 & _ & Htr3).
  assert (Hgoal : forall c,
             charAt t (index sc) = Some c -> numberStop (Some c) = true ->
             index sc < index s1 ->
             agree t t' k (index s) (index s1) ->
             exists g,
               parseArrayLoop t' pv' (S n) result (shift k s)
               = g (charAt t (index sc)) (shift k sc)
               /\ g = (fun c => if charIs (ch "]") c
                                then advance 1 ;;; ret (result ++ [Some v])
                                else if negb (charIs (ch ",") c)
                                     then throw (SyntaxError ExpectedComma)
                                     else advance 1 ;;;
                                          parseArrayLoop t' pv' n (result ++ [Some v]))).
  { intros c Hc Hstop Hj Hag. eexists. split; [| reflexivity].
    cbn [parseArrayLoop].
    rewrite (bind_Return _ _ _ (Htr1 ltac:(eapply agree_sub; eauto; lia))).
    rewrite (bind_Return _ _ _ (Htr2 ltac:(eapply agree_sub; eauto; lia)
                                   ltac:(eapply stop_after_value; eauto;
                                         eapply agree_sub; eauto; lia))).
    cbv zeta.
    rewrite (bind_Return _ _ _ (Htr3 ltac:(eapply agree_sub; eauto; lia))).
    rewrite peek_bind. unfold charAt. cbn [shift index].
    rewrite (Hag (index sc)) by lia. reflexivity. }
  destruct (charIs (ch "]") (charAt t (index sc))) eqn:Hclose.
  - rewrite advance_bind in H. unfold ret in H. injection H as <- <-. cbn [index].
    apply charIs_true in Hclose.
    assert (Hlt : index sc < length t)
      by (apply nth_error_Some; unfold charAt in Hclose; congruence).
    split; [lia | split; [lia |]].
    intros Hag.
    destruct (Hgoal _ Hclose eq_refl ltac:(cbn [index]; lia) Hag) as (g & -> & ->).
    rewrite Hclose. cbn [charIs]. rewrite N.eqb_refl.
    rewrite advance_bind. unfold ret, shift. cbn [index reviverCalls].
    do 3 f_equal. lia.
  - destruct (charIs (ch ",") (charAt t (index sc))) eqn:Hcomma;
      cbn [negb] in H; [| discriminate].
    rewrite advance_bind in H. apply IH in H. cbn [index] in H.
    destruct H as (Hlt & Hlen & Htr).
    split; [lia | split; [exact Hlen |]].
    intros Hag.
    pose proof (charIs_true _ _ Hcomma) as Hc.
    destruct (Hgoal _ Hc eq_refl ltac:(lia) Hag) as (g & -> & ->).
    rewrite Hclose, Hcomma. cbn [negb].
    rewrite advance_bind. unfold shift in *. cbn [index reviverCalls] in *.
    replace (k + index sc + 1) with (k + (index sc + 1)) by lia.
    apply Htr. eapply agree_sub; eauto; lia.
Qed.

Lemma parseObjectLoop_transfer :
  forall n result s a s1,
    parseObjectLoop t pv fuel n result s = Return (a, s1) ->
    index s < index s1 /\ index s1 <= length t /\
    (agree t t' k (index s) (index s1) ->
     parseObjectLoop t' pv' fuel n result (shift k s) = Return (a, shift k s1)).
Proof.
  induction n as [|n IH]; intros result s a s1 H; [discriminate |].
  cbn [parseObjectLoop] in H.
  apply bind_Return_inv in H. destruct H as ([] & sa & Hskip1 & H).
  apply bind_Return_inv in H. destruct H as (key & sb & Hkey & H).
  apply bind_Return_inv in H. destruct H as ([] & sc & Hskip2 & H).
  rewrite peek_bind in H.
  destruct (charIs (ch ":") (charAt t (index sc))) eqn:Hcolon;
    cbn [negb] in H; [| discriminate].
  rewrite advance_bind in H.
  apply bind_Return_inv in H. destruct H as ([] & sd & Hskip3 & H).
  apply bind_Return_inv in H. destruct H as (v & se & Hpv & H).
  cbv zeta in H.
  apply bind_Return_inv in H. destruct H as ([] & sf & Hskip4 & H).
  rewrite peek_bind in H.
  destruct (skipWhitespace_transfer t' k Hskip1) as (Hle1 & _ & Htr1).
  destruct (parseString_transfer _ t' k _ _ Hkey) as (Hlt2 & _ & Htr2).
  destruct (skipWhitespace_transfer t' k Hskip2) as (Hle3 & _ & Htr3).
  destruct (skipWhitespace_transfer t' k Hskip3) as (Hle4 & _ & Htr4).
  cbn [index] in Hle4.
  destruct (pv_transfer Hpv) as (Hlt5 & Hlen5 & Htr5).
  destruct (skipWhitespace_transfer t' k Hskip4) as (Hle6 & _ & Htr6).
  assert (Hgoal : forall c,
             charAt t (index sf) = Some c -> numberStop (Some c) = true ->
             index sf < index s1 ->
             agree t t' k (index s) (index s1) ->
             exists g,
               parseObjectLoop t' pv' fuel (S n) result (shift k s)
               = g (charAt t (index sf)) (shift k sf)
               /\ g = (fun c => if charIs (ch "}") c
                                then advance 1 ;;; ret (obj_set key v result)
                                else if negb (charIs (ch ",") c)
                                     then throw (SyntaxError ExpectedComma)
                                     else advance 1 ;;;
                                          parseObjectLoop t' pv' fuel n
                                                          (obj_set key v result))).
  { intros c Hc Hstop Hj Hag. eexists. split; [| reflexivity].
    cbn [parseObjectLoop].
    rewrite (bind_Return _ _ _ (Htr1 ltac:(eapply agree_sub; eauto; lia))).
    rewrite (bind_Return _ _ _ (Htr2 ltac:(eapply agree_sub; eauto; lia))).
    rewrite (bind_Return _ _ _ (Htr3 ltac:(eapply agree_sub; eauto; lia))).
    rewrite peek_bind. unfold charAt at 1. cbn [shift index].
    rewrite (Hag (index sc)) by lia.
    unfold charAt in Hcolon. rewrite Hcolon. cbn [negb].
    rewrite advance_bind.
    replace {| index := index (shift k sc) + 1; reviverCalls := reviverCalls (shift k sc) |}
      with (shift k {| index := index sc + 1; reviverCalls := reviverCalls sc |})
      by (unfold shift; cbn [index reviverCalls]; f_equal; lia).
    rewrite (bind_Return _ _ _ (Htr4 ltac:(eapply agree_sub; eauto; cbn [index]; lia))).
    rewrite (bind_Return _ _ _ (Htr5 ltac:(eapply agree_sub; eauto; lia)
                                   ltac:(eapply stop_after_value; eauto;
                                         eapply agree_sub; eauto; lia))).
    cbv zeta.
    rewrite (bind_Return _ _ _ (Htr6 ltac:(eapply agree_sub; eauto; lia))).
    rewrite peek_bind. unfold charAt. cbn [shift index].
    rewrite (Hag (index sf)) by lia. reflexivity. }
  destruct (charIs (ch "}") (charAt t (index sf))) eqn:Hclose.
  - rewrite advance_bind in H. unfold ret in H. injection H as <- <-. cbn [index].
    apply charIs_true in Hclose.
    assert (Hlt : index sf < length t)
      by (apply nth_error_Some; unfold charAt in Hclose; congruence).
    split; [lia | split; [lia |]].
    intros Hag.
    destruct (Hgoal _ Hclose eq_refl ltac:(cbn [index]; lia) Hag) as (g & -> & ->).
    rewrite Hclose. cbn [charIs]. rewrite N.eqb_refl.
    rewrite advance_bind. unfold ret, shift. cbn [index reviverCalls].
    do 3 f_equal. lia.
  - destruct (charIs (ch ",") (charAt t (index sf))) eqn:Hcomma;
      cbn [negb] in H; [| discriminate].
    rewrite advance_bind in H. apply IH in H. cbn [index] in H.
    destruct H as (Hlt & Hlen & Htr).
    split; [lia | split; [exact Hlen |]].
    intros Hag.
    pose proof (charIs_true _ _ Hcomma) as Hc.
    destruct (Hgoal _ Hc eq_refl ltac:(lia) Hag) as (g & -> & ->).
    rewrite Hclose, Hcomma. cbn [negb].
    rewrite advance_bind. unfold shift in *. cbn [index reviverCalls] in *.
    replace (k + index sf + 1) with (k + (index sf + 1)) by lia.
    apply Htr. eapply agree_sub; eauto; lia.
Qed.

(** *** [parseArray] and [parseObject] *)

Lemma parseArray_transfer s a s1 :
  parseArray t reviver pv fuel s = Return (a, s1) ->
  index s < index s1 /\ index s1 <= length t /\
  (agree t t' k (index s) (index s1) ->
   parseArray t' reviver pv' fuel (shift k s) = Return (a, shift k s1)).
Proof.
  unfold parseArray. intros H.
  rewrite advance_bind in H.
  apply bind_Return_inv in H. destruct H as ([] & sa & Hskip & H).
  rewrite peek_bind in H.
  destruct (skipWhitespace_transfer t' k Hskip) as (Hle1 & _ & Htr1).
  cbn [index] in Hle1.
  assert (Hstart : index sa < index s1 ->
                   agree t t' k (index s) (index s1) ->
                   forall B (g : option codeunit -> M pstate B),
                     (advance 1 ;;; skipWhitespace t' ;;; c <- peek t' ;; g c) (shift k s)
                     = g (charAt t (index sa)) (shift k sa)).
  { intros Hlt Hag B g. rewrite advance_bind.
    replace {| index := index (shift k s) + 1; reviverCalls := reviverCalls (shift k s) |}
      with (shift k {| index := index s + 1; reviverCalls := reviverCalls s |})
      by (unfold shift; cbn [index reviverCalls]; f_equal; lia).
    rewrite (bind_Return _ _ _ (Htr1 ltac:(eapply agree_sub; eauto; cbn [index]; lia))).
    rewrite peek_bind. unfold charAt. cbn [shift index].
    rewrite (Hag (index sa)) by lia. reflexivity. }
  destruct (charIs (ch "]") (charAt t (index sa))) eqn:Hclose.
  - rewrite advance_bind in H.
    destruct (@cursorFree_transfer _ _ _ k _ _ _ (cursorFree_applyReviver reviver fuel (VArray [])) H)
      as (Hidx & Htr).
    cbn [index] in Hidx.
    apply charIs_true in Hclose.
    assert (Hlt : index sa < length t)
      by (apply nth_error_Some; unfold charAt in Hclose; congruence).
    split; [lia | split; [lia |]].
    intros Hag. rewrite Hstart by (auto; lia).
    rewrite Hclose. cbn [charIs]. rewrite N.eqb_refl.
    rewrite advance_bind. rewrite <- Htr.
    f_equal. unfold shift. cbn [index reviverCalls]. f_equal. lia.
  - apply bind_Return_inv in H. destruct H as (result & sb & Hloop & H).
    destruct (@cursorFree_transfer _ _ _ k _ _ _ (cursorFree_applyReviver reviver fuel (VArray result)) H)
      as (Hidx & Htr).
    destruct (parseArrayLoop_transfer _ _ _ Hloop) as (Hlt & Hlen & Hloop').
    split; [lia | split; [lia |]].
    intros Hag. rewrite Hstart by (auto; lia).
    rewrite Hclose.
    rewrite (bind_Return _ _ _ (Hloop' ltac:(eapply agree_sub; eauto; lia))).
    exact Htr.
Qed.

Lemma parseObject_transfer s a s1 :
  parseObject t reviver pv fuel s = Return (a, s1) ->
  index s < index s1 /\ index s1 <= length t /\
  (agree t t' k (index s) (index s1) ->
   parseObject t' reviver pv' fuel (shift k s) = Return (a, shift k s1)).
Proof.
  unfold parseObject. intros H.
  rewrite advance_bind in H.
  apply bind_Return_inv in H. destruct H as ([] & sa & Hskip & H).
  rewrite peek_bind in H.
  destruct (skipWhitespace_transfer t' k Hskip) as (Hle1 & _ & Htr1).
  cbn [index] in Hle1.
  assert (Hstart : index sa < index s1 ->
                   agree t t' k (index s) (index s1) ->
                   forall B (g : option codeunit -> M pstate B),
                     (advance 1 ;;; skipWhitespace t' ;;; c <- peek t' ;; g c) (shift k s)
                     = g (charAt t (index sa)) (shift k sa)).
  { intros Hlt Hag B g. rewrite advance_bind.
    replace {| index := index (shift k s) + 1; reviverCalls := reviverCalls (shift k s) |}
      with (shift k {| index := index s + 1; reviverCalls := reviverCalls s |})
      by (unfold shift; cbn [index reviverCalls]; f_equal; lia).
    rewrite (bind_Return _ _ _ (Htr1 ltac:(eapply agree_sub; eauto; cbn [index]; lia))).
    rewrite peek_bind. unfold charAt. cbn [shift index].
    rewrite (Hag (index sa)) by lia. reflexivity. }
  destruct (charIs (ch "}") (charAt t (index sa))) eqn:Hclose.
  - rewrite advance_bind in H.
    destruct (@cursorFree_transfer _ _ _ k _ _ _ (cursorFree_applyReviver reviver fuel (VObject [])) H)
      as (Hidx & Htr).
    cbn [index] in Hidx.
    apply charIs_true in Hclose.
    assert (Hlt : index sa < length t)
      by (apply nth_error_Some; unfold charAt in Hclose; congruence).
    split; [lia | split; [lia |]].
    intros Hag. rewrite Hstart by (auto; lia).
    rewrite Hclose. cbn [charIs]. rewrite N.eqb_refl.
    rewrite advance_bind. rewrite <- Htr.
    f_equal. unfold shift. cbn [index reviverCalls]. f_equal. lia.
  - apply bind_Return_inv in H. destruct H as (result & sb & Hloop & H).
    destruct (@cursorFree_transfer _ _ _ k _ _ _ (cursorFree_applyReviver reviver fuel result) H)
      as (Hidx & Htr).
    destruct (parseObjectLoop_transfer _ _ _ Hloop) as (Hlt & Hlen & Hloop').
    split; [lia | split; [lia |]].
    intros Hag. rewrite Hstart by (auto; lia).
    rewrite Hclose.
    rewrite (bind_Return _ _ _ (Hloop' ltac:(eapply agree_sub; eauto; lia))).
    exact Htr.
Qed.

End TransferContainers.

(** *** [parseValue] *)

(** What [parseValue] returns on [t] it returns on [t'], from the cursor
    moved [k] places on, when [t'] has from there what [t] has where it
    was read, and after it a character that no number goes on with. *)
Lemma parseValue_transfer {NI : NumberImpl} (t t' : jsstring) (k : nat)
      (reviver : option (jsstring -> value -> revived)) :
  forall fuel s a s1,
    parseValue t reviver fuel s = Return (a, s1) ->
    index s < index s1 /\ index s1 <= length t /\
    (agree t t' k (index s) (index s1) ->
     numberStop (nth_error t' (k + index s1)) = true ->
     parseValue t' reviver fuel (shift k s) = Return (a, shift k s1)).
Proof.
  induction fuel as [|fuel IH]; intros s a s1 H; [discriminate |].
  cbn [parseValue] in H.
  apply bind_Return_inv in H. destruct H as ([] & sa & Hskip & H).
  rewrite peek_bind in H.
  destruct (skipWhitespace_transfer t' k Hskip) as (Hle1 & _ & Htr1).
  assert (Hstart : index sa < index s1 ->
                   agree t t' k (index s) (index s1) ->
                   forall B (g : option codeunit -> M pstate B),
                     (skipWhitespace t' ;;; c <- peek t' ;; g c) (shift k s)
                     = g (charAt t (index sa)) (shift k sa)).
  { intros Hlt Hag B g.
    rewrite (bind_Return _ _ _ (Htr1 ltac:(eapply agree_sub; eauto; lia))).
    rewrite peek_bind. unfold charAt. cbn [shift index].
    rewrite (Hag (index sa)) by lia. reflexivity. }
  destruct (charIs QUOTE (charAt t (index sa))) eqn:Hquote.
  { apply bind_Return_inv in H. destruct H as (str & sb & Hstr & H).
    unfold ret in H. injection H as <- <-.
    destruct (parseString_transfer _ t' k _ _ Hstr) as (Hlt & Hlen & Htr).
    split; [lia | split; [exact Hlen |]].
    intros Hag _. cbn [parseValue]. rewrite Hstart by (auto; lia).
    rewrite Hquote.
    rewrite (bind_Return _ _ _ (Htr ltac:(eapply agree_sub; eauto; lia))).
    reflexivity. }
  destruct (charIs (ch "{") (charAt t (index sa))) eqn:Hobj.
  { destruct (@parseObject_transfer _ t t' k reviver fuel _ _ IH _ _ _ H) as (Hlt & Hlen & Htr).
    split; [lia | split; [exact Hlen |]].
    intros Hag _. cbn [parseValue]. rewrite Hstart by (auto; lia).
    rewrite Hquote, Hobj. apply Htr. eapply agree_sub; eauto; lia. }
  destruct (charIs (ch "[") (charAt t (index sa))) eqn:Harr.
  { destruct (@parseArray_transfer _ t t' k reviver fuel _ _ IH _ _ _ H) as (Hlt & Hlen & Htr).
    split; [lia | split; [exact Hlen |]].
    intros Hag _. cbn [parseValue]. rewrite Hstart by (auto; lia).
    rewrite Hquote, Hobj, Harr. apply Htr. eapply agree_sub; eauto; lia. }
  destruct (charIs (ch "t") (charAt t (index sa))) eqn:Htrue.
  { destruct (@parseLiteral_transfer _ t t' k (lit "true") _ _ _ _
                                      ltac:(unfold lit; simpl; lia) H)
      as (Hlt & Hlen & Htr).
    split; [lia | split; [exact Hlen |]].
    intros Hag _. cbn [parseValue]. rewrite Hstart by (auto; lia).
    rewrite Hquote, Hobj, Harr, Htrue. apply Htr. eapply agree_sub; eauto; lia. }
  destruct (charIs (ch "f") (charAt t (index sa))) eqn:Hfalse.
  { destruct (@parseLiteral_transfer _ t t' k (lit "false") _ _ _ _
                                      ltac:(unfold lit; simpl; lia) H)
      as (Hlt & Hlen & Htr).
    split; [lia | split; [exact Hlen |]].
    intros Hag _. cbn [parseValue]. rewrite Hstart by (auto; lia).
    rewrite Hquote, Hobj, Harr, Htrue, Hfalse. apply Htr. eapply agree_sub; eauto; lia. }
  destruct (charIs (ch "n") (charAt t (index sa))) eqn:Hnull.
  { destruct (@parseLiteral_transfer _ t t' k (lit "null") _ _ _ _
                                      ltac:(unfold lit; simpl; lia) H)
      as (Hlt & Hlen & Htr).
    split; [lia | split; [exact Hlen |]].
    intros Hag _. cbn [parseValue]. rewrite Hstart by (auto; lia).
    rewrite Hquote, Hobj, Harr, Htrue, Hfalse, Hnull.
    apply Htr. eapply agree_sub; eauto; lia. }
  destruct (charIs (ch "-") (charAt t (index sa)) || isDigit (charAt t (index sa)))
    eqn:Hnum; [| discriminate].
  destruct (@parseNumber_transfer _ t t' k _ _ _ H) as (Hlt & Hlen & Htr).
  split; [lia | split; [exact Hlen |]].
  intros Hag Hstop. cbn [parseValue]. rewrite Hstart by (auto; lia).
  rewrite Hquote, Hobj, Harr, Htrue, Hfalse, Hnull, Hnum.
  apply Htr; [eapply agree_sub; eauto; lia | exact Hstop].
Qed.

(** *** The whole text *)

Section WholeText.
Context {NI : NumberImpl}.
Variable reviver : option (jsstring -> value -> revived).

Lemma skips_bounded (json : jsstring) i q :
  skips json i q -> i <= length json -> q <= length json.
Proof.
  intros (Hle & Hall & _) Hi.
  destruct (Nat.le_gt_cases q (length json)) as [H | H]; [exact H |].
  specialize (Hall (length json) ltac:(lia)).
  assert (Hnone : nth_error json (length json) = None) by (apply nth_error_None; lia).
  rewrite Hnone in Hall. discriminate.
Qed.

Lemma forallb_nth_error (w : jsstring) p c :
  forallb whitespace w = true -> nth_error w p = Some c -> whitespace c = true.
Proof.
  intros Hw Hp. rewrite forallb_forall in Hw. apply Hw. eapply nth_error_In; eauto.
Qed.

(** Leading white space is skipped before anything else is done. *)
Lemma parseValue_leading (w1 r : jsstring) fuel :
  forallb whitespace w1 = true ->
  parseValue (w1 ++ r) reviver fuel start
  = parseValue (w1 ++ r) reviver fuel (shift (length w1) start).
Proof.
  intros Hw. destruct fuel as [|fuel]; [reflexivity |].
  cbn [parseValue]. unfold bind at 1. unfold bind at 3.
  destruct (skipWhitespace_skips (w1 ++ r) (shift (length w1) start))
    as (s1 & Hrun & Hsk & Hc).
  rewrite Hrun.
  rewrite (@skips_run _ (w1 ++ r) start (index s1)).
  - destruct s1 as [i c]. simpl in Hc. subst c. reflexivity.
  - cbn [start index shift] in *. destruct Hsk as (Hle & Hall & Hstop).
    split; [lia | split; [| exact Hstop]].
    intros p Hp. destruct (Nat.lt_ge_cases p (length w1)) as [Hlt | Hge].
    + rewrite nth_error_app1 by exact Hlt.
      destruct (nth_error w1 p) as [c|] eqn:Hc'.
      * simpl. eapply forallb_nth_error; eauto.
      * apply nth_error_None in Hc'. lia.
    + apply Hall. lia.
Qed.

(** The value at the head of [v] is the value at the head of [v] between
    white space and a tail that no number goes on with. *)
Lemma parseValue_embedded (w1 v tail : jsstring) fuel a s1 s2 :
  forallb whitespace w1 = true ->
  parseValue v reviver fuel start = Return (a, s1) ->
  skipWhitespace v s1 = Return (tt, s2) ->
  length v <= index s2 ->
  numberStop (nth_error tail 0) = true ->
  parseValue (w1 ++ v ++ tail) reviver fuel start
  = Return (a, shift (length w1) s1)
  /\ index s1 <= length v
  /\ (forall p, index s1 <= p < length v -> testWhitespace (nth_error v p) = true).
Proof.
  intros Hw1 Hv Hskip Hend Htail.
  destruct (@parseValue_transfer _ v (w1 ++ v ++ tail) (length w1) _ _ _ _ _ Hv)
    as (Hlt & Hlen & Htr).
  destruct (skipWhitespace_skips v s1) as (s2' & Hrun & Hsk & _).
  rewrite Hrun in Hskip. injection Hskip as <-.
  pose proof (skips_bounded Hsk Hlen) as Hq.
  assert (Hws : forall p, index s1 <= p < length v ->
                          testWhitespace (nth_error v p) = true).
  { intros p Hp. destruct Hsk as (_ & Hall & _). apply Hall. lia. }
  split; [| split; [exact Hlen | exact Hws]].
  rewrite parseValue_leading by exact Hw1.
  apply Htr.
  - intros p Hp. cbn [start index] in Hp.
    rewrite nth_error_app2 by lia.
    replace (length w1 + p - length w1) with p by lia.
    apply nth_error_app1. lia.
  - rewrite nth_error_app2 by lia.
    replace (length w1 + index s1 - length w1) with (index s1) by lia.
    destruct (Nat.lt_ge_cases (index s1) (length v)) as [Hin | Hout].
    + rewrite nth_error_app1 by exact Hin.
      specialize (Hws (index s1) ltac:(lia)).
      destruct (nth_error v (index s1)) as [c|]; [| reflexivity].
      apply whitespace_numberStop. exact Hws.
    + rewrite nth_error_app2 by exact Hout.
      replace (index s1 - length v) with 0 by lia. exact Htail.
Qed.

(** From the end of the value on, white space up to the place [n] of the
    tail, where something else stands or the text ends. *)
Lemma skips_embedded (w1 v tail : jsstring) i n :
  i <= length v ->
  (forall p, i <= p < length v -> testWhitespace (nth_error v p) = true) ->
  forallb whitespace (firstn n tail) = true ->
  n <= length tail ->
  testWhitespace (nth_error tail n) = false ->
  skips (w1 ++ v ++ tail) (length w1 + i) (length w1 + length v + n).
Proof.
  intros Hi Hv Htail Hn Hstop. split; [lia | split].
  - intros p Hp. rewrite nth_error_app2 by lia.
    destruct (Nat.lt_ge_cases (p - length w1) (length v)) as [Hin | Hout].
    + rewrite nth_error_app1 by exact Hin. apply Hv. lia.
    + rewrite nth_error_app2 by exact Hout.
      assert (Hp' : p - length w1 - length v < n) by lia.
      destruct (nth_error tail (p - length w1 - length v)) as [c|] eqn:Hc.
      * simpl. apply (@forallb_nth_error (firstn n tail) (p - length w1 - length v)).
        -- exact Htail.
        -- rewrite nth_error_firstn. apply Nat.ltb_lt in Hp'. rewrite Hp'. exact Hc.
      * apply nth_error_None in Hc. lia.
  - rewrite nth_error_app2 by lia. rewrite nth_error_app2 by lia.
    replace (length w1 + length v + n - length w1 - length v) with n by lia.
    exact Hstop.
Qed.

End WholeText.

Lemma numberStop_head_whitespace (w : jsstring) :
  forallb whitespace w = true -> numberStop (nth_error w 0) = true.
Proof.
  destruct w as [|c w]; [reflexivity |]. simpl.
  rewrite andb_true_iff. intros [Hc _]. apply whitespace_numberStop. exact Hc.
Qed.

(** C7. Characters that are none of space, tab, newline and carriage
    return, and that [myParse] skips all the same: they are of the class
    [\s] of the regular expression of [skipWhitespace]. The text of
    [null] and a form feed is accepted, with the value [null], where
    the specification has the error of extra characters; so is the text
    of a vertical tab, a no-break space and [null], and the text of an
    array with a form feed before its closing bracket. *)
Theorem C7_form_feed_is_skipped {NI : NumberImpl} (fuel : nat) :
  myParse (S fuel) (lit "null" ++ [FF]) None = Return VNull
  /\ myParse (S fuel) ([VT; NBSP] ++ lit "null") None = Return VNull
  /\ myParse (S (S fuel)) (lit "[null" ++ [FF] ++ lit "]") None = Return (VArray [Some VNull])
  /\ fourSpaces FF = false /\ fourSpaces VT = false /\ fourSpaces NBSP = false
  /\ whitespace FF = true /\ whitespace VT = true /\ whitespace NBSP = true.
Proof. repeat split; reflexivity. Qed.

(** X26. White space around a text. A text that [myParse] accepts is
    accepted, with the same value, between two runs of characters of
    the class [\s]; and when after the value and the run behind it
    there is one more character that is not of the class (and, where it
    stands right after the value, does not go on a number), [myParse]
    throws the error of extra characters. *)
Theorem white_space_around_the_value {NI : NumberImpl}
        (fuel : nat) (reviver : option (jsstring -> value -> revived))
        (v w1 w2 : jsstring) (x : value) :
  forallb whitespace w1 = true ->
  forallb whitespace w2 = true ->
  myParse fuel v reviver = Return x ->
  myParse fuel (w1 ++ v ++ w2) reviver = Return x
  /\ (forall c rest,
         whitespace c = false ->
         w2 <> [] \/ numberStop (Some c) = true ->
         myParse fuel (w1 ++ v ++ w2 ++ c :: rest) reviver
         = Throw (SyntaxError UnexpectedExtraCharacters))
  /\ (forall c, fourSpaces c = true -> whitespace c = true).
Proof.
  intros Hw1 Hw2 H.
  split; [| split; [| exact fourSpaces_whitespace]].
  - unfold myParse, runParse in *.
    destruct (parseText v reviver fuel start) as [[x' sfin]| |] eqn:Hp; try discriminate.
    injection H as ->. unfold parseText in Hp.
    apply bind_Return_inv in Hp. destruct Hp as (a & s1 & Hv & Hp).
    apply bind_Return_inv in Hp. destruct Hp as ([] & s2 & Hskip & Hp).
    unfold bind at 1, get at 1 in Hp.
    destruct (Nat.ltb (index s2) (length v)) eqn:Hend; [discriminate |].
    apply Nat.ltb_ge in Hend.
    destruct (parseValue_embedded reviver w1 w2 fuel Hw1 Hv Hskip Hend
                                  (numberStop_head_whitespace _ Hw2))
      as (Hv' & Hlen & Hws).
    unfold parseText.
    rewrite (bind_Return _ _ _ Hv').
    rewrite (bind_Return _ _ _
               (skips_run (shift (length w1) s1)
                  (@skips_embedded w1 v w2 (index s1) (length w2) Hlen Hws
                     ltac:(rewrite firstn_all; exact Hw2) (le_n _)
                     ltac:(replace (nth_error w2 (length w2)) with (@None codeunit)
                            by (symmetry; apply nth_error_None; lia);
                           reflexivity)))).
    unfold bind at 1, get at 1. cbn [index].
    replace (Nat.ltb (length w1 + length v + length w2) (length (w1 ++ v ++ w2)))
      with false
      by (symmetry; apply Nat.ltb_ge; rewrite !length_app; lia).
    destruct reviver as [f|].
    + unfold callReviver, bind, record_revival, ret in *.
      injection Hp as <- _. reflexivity.
    + unfold ret in *. injection Hp as <- _. reflexivity.
  - intros c rest Hc Hstop.
    unfold myParse, runParse in *.
    destruct (parseText v reviver fuel start) as [[x' sfin]| |] eqn:Hp; try discriminate.
    injection H as ->. unfold parseText in Hp.
    apply bind_Return_inv in Hp. destruct Hp as (a & s1 & Hv & Hp).
    apply bind_Return_inv in Hp. destruct Hp as ([] & s2 & Hskip & Hp).
    unfold bind at 1, get at 1 in Hp.
    destruct (Nat.ltb (index s2) (length v)) eqn:Hend; [discriminate |].
    apply Nat.ltb_ge in Hend.
    assert (Htail : numberStop (nth_error (w2 ++ c :: rest) 0) = true).
    { destruct w2 as [|c0 w2'].
      - simpl. destruct Hstop as [Hne | Hs]; [congruence | exact Hs].
      - simpl in Hw2 |- *. apply andb_true_iff in Hw2.
        apply whitespace_numberStop. tauto. }
    destruct (parseValue_embedded reviver w1 (w2 ++ c :: rest) fuel Hw1 Hv Hskip Hend Htail)
      as (Hv' & Hlen & Hws).
    unfold parseText.
    rewrite (bind_Return _ _ _ Hv').
    rewrite (bind_Return _ _ _
               (skips_run (shift (length w1) s1)
                  (@skips_embedded w1 v (w2 ++ c :: rest) (index s1) (length w2) Hlen Hws
                     ltac:(rewrite firstn_app, firstn_all, Nat.sub_diag, app_nil_r;
                           exact Hw2)
                     ltac:(rewrite length_app; lia)
                     ltac:(rewrite nth_error_app2 by lia; rewrite Nat.sub_diag;
                           exact Hc)))).
    unfold bind at 1, get at 1. cbn [index].
    replace (Nat.ltb (length w1 + length v + length w2)
                     (length (w1 ++ v ++ w2 ++ c :: rest)))
      with true
      by (symmetry; apply Nat.ltb_lt; rewrite !length_app; simpl; lia).
    reflexivity.
Qed.

Lemma padded_text_witness :
  @myParse IntegerNumbers 4 (qlit "[1, 'a']") (Some exclaim)
  = Return (VArray [Some (vnum 1); Some (VString (lit "a!"))])
  /\ @myParse IntegerNumbers 4 ([TAB; SPACE] ++ qlit "[1, 'a']" ++ [LF; CR]) (Some exclaim)
     = Return (VArray [Some (vnum 1); Some (VString (lit "a!"))])
  /\ @myParse IntegerNumbers 4 ([TAB; SPACE] ++ qlit "[1, 'a']" ++ [LF; CR] ++ ch "x" :: [])
                               (Some exclaim)
     = Throw (SyntaxError UnexpectedExtraCharacters).
Proof.
  assert (H : @myParse IntegerNumbers 4 (qlit "[1, 'a']") (Some exclaim)
              = Return (VArray [Some (vnum 1); Some (VString (lit "a!"))]))
    by reflexivity.
  destruct (@white_space_around_the_value IntegerNumbers 4 (Some exclaim)
              (qlit "[1, 'a']") [TAB; SPACE] [LF; CR] _ eq_refl eq_refl H)
    as (H1 & H2 & _).
  split; [exact H | split; [exact H1 |]].
  apply H2; [reflexivity | left; discriminate].
Defined.

(* ================================================================== *)
(** ** The examples of the specification and of the tests *)

Section Examples.
#[local] Existing Instance IntegerNumbers.

(** The string of [a], a double quote, [b], a backslash, [c], a newline
    and [d]: quote, backslash and newline are escaped, and the text
    parses back to the string. *)
Example example_escaping :
  let s := lit "a" ++ [QUOTE] ++ lit "b\c" ++ [LF] ++ lit "d" in
  let text := [QUOTE] ++ lit "a\" ++ [QUOTE] ++ lit "b\\c\nd" ++ [QUOTE] in
  myStringify 1 [] (JString s) None SpaceOther = Return (Some text)
  /\ myParse 12 text None = Return (VString s).
Proof. split; reflexivity. Qed.

(** A reviver that returns [undefined] for a key removes the entry. *)
Example example_reviver_deletes :
  myParse 10 (qlit "{'name':'Alice','age':25}") (Some dropAge)
  = Return (VObject [(lit "name", VString (lit "Alice"))]).
Proof. reflexivity. Qed.

(** The regular expression of numbers takes [-3.14E-2] whole. *)
Example example_number_literal :
  numberRegex (lit "-3.14E-2") = Some 8
  /\ numberRegex (lit "1e+21") = Some 5
  /\ numberRegex (lit "-") = None
  /\ numberRegex (lit "1.") = Some 1.
Proof. repeat split; reflexivity. Qed.

(** Texts that are not well formed. *)
Example example_malformed :
  myParse 10 (qlit "{'a':}") None = Throw (SyntaxError UnexpectedCharacter)
  /\ myParse 10 (lit "[1,2") None = Throw (SyntaxError ExpectedComma)
  /\ myParse 10 (lit "tru") None = Throw (SyntaxError UnexpectedToken)
  /\ myParse 10 (lit "1 2") None = Throw (SyntaxError UnexpectedExtraCharacters).
Proof. repeat split; reflexivity. Qed.

(** The values of the tests of [myStringify]. *)
Example example_stringify_tests :
  myStringify 1 [] JNull None SpaceOther = Return (Some (lit "null"))
  /\ myStringify 1 [] JUndefined None SpaceOther = Return None
  /\ myStringify 1 [] (JNumber NaN) None SpaceOther = Return (Some (lit "null"))
  /\ myStringify 2 [CArray [Some (num 1); Some JUndefined; Some (JString (lit "text"))]]
                 (JRef 0) None SpaceOther
     = Return (Some (qlit "[1,null,'text']"))
  /\ myStringify 4 [CObject [(lit "user", JRef 1)];
                    CObject [(lit "name", JString (lit "Bob")); (lit "items", JRef 2)];
                    CArray [Some (num 1); Some (num 2); Some JNull]]
                 (JRef 0) None SpaceOther
     = Return (Some (qlit "{'user':{'name':'Bob','items':[1,2,null]}}")).
Proof. repeat split; reflexivity. Qed.

(** The values of the tests of [myParse]. *)
Example example_parse_tests :
  myParse 10 (qlit "[1,null,true,{'key':'value'}]") None
  = Return (VArray [Some (vnum 1); Some VNull; Some (VBoolean true);
                    Some (VObject [(lit "key", VString (lit "value"))])])
  /\ myParse 12 (qlit "'line\nfeed'") None
     = Return (VString (lit "line" ++ [LF] ++ lit "feed"))
  /\ myParse 10 (lit "-42") None = Return (vnum (-42)).
Proof. repeat split; reflexivity. Qed.

(** The key [__proto__]. Its assignment goes to the accessor of
    [Object.prototype], which makes no entry: it sets the prototype when
    the value is an object or [null] and does nothing for another
    value. Once the prototype is [null], or an object whose own
    prototype is, the accessor is out of reach and the next assignment
    makes an own key. *)
Example example_proto_keys :
  myParse 14 (qlit "{'__proto__':1,'a':2}") None = Return (VObject [(lit "a", vnum 2)])
  /\ myParse 14 (qlit "{'__proto__':null,'__proto__':1}") None
     = Return (VObjectProto None [(lit "__proto__", vnum 1)])
  /\ myParse 14 (qlit "{'__proto__':{'a':1},'b':2}") None
     = Return (VObjectProto (Some (VObject [(lit "a", vnum 1)])) [(lit "b", vnum 2)])
  /\ myParse 14 (qlit "{'__proto__':[],'__proto__':null}") None
     = Return (VObjectProto None [])
  /\ myParse 14 (qlit "{'__proto__':{'__proto__':null},'__proto__':1}") None
     = Return (VObjectProto (Some (VObjectProto None [])) [(lit "__proto__", vnum 1)]).
Proof. repeat split; reflexivity. Qed.

(** Keys that are array indices come first among the keys of a parsed
    object, a later duplicate overwrites the earlier entry where it
    stands, and an escape that is not in the table gives its character. *)
Example example_object_keys :
  myParse 10 (qlit "{'b':1,'0':2,'b':3}") None
  = Return (VObject [(lit "0", vnum 2); (lit "b", vnum 3)])
  /\ myParse 10 (qlit "'\q'") None = Return (VString (lit "q")).
Proof. split; reflexivity. Qed.

End Examples.

(* ================================================================== *)
(** ** Strings through [escapeString] and [parseString] *)

Lemma nth_error_after {A} (pre : list A) (x : A) (rest : list A) :
  nth_error (pre ++ x :: rest) (length pre) = Some x.
Proof.
  rewrite nth_error_app2 by lia. rewrite Nat.sub_diag. reflexivity.
Qed.

(** Every character of the class of [escapeString] has an escape of two
    characters, a backslash and a letter that [parseString] reads back
    as the character. *)
Lemma escape_pair (c : codeunit) :
  escapeClass c = true ->
  exists x, escapes c = Some [BACKSLASH; x] /\ unescapes x = Some c
            /\ N.eqb BACKSLASH QUOTE = false.
Proof.
  unfold escapeClass, escapes, unescapes.
  destruct (N.eqb_spec c QUOTE) as [-> | H1]; [intros _; exists QUOTE; auto |].
  destruct (N.eqb_spec c BACKSLASH) as [-> | H2]; [intros _; exists BACKSLASH; auto |].
  destruct (N.eqb_spec c BS) as [-> | H3]; [intros _; exists (ch "b"); auto |].
  destruct (N.eqb_spec c FF) as [-> | H4]; [intros _; exists (ch "f"); auto |].
  destruct (N.eqb_spec c LF) as [-> | H5]; [intros _; exists (ch "n"); auto |].
  destruct (N.eqb_spec c CR) as [-> | H6]; [intros _; exists (ch "r"); auto |].
  destruct (N.eqb_spec c TAB) as [-> | H7]; [intros _; exists (ch "t"); auto |].
  discriminate.
Qed.

Lemma escapeClass_false (c : codeunit) :
  escapeClass c = false -> N.eqb c QUOTE = false /\ N.eqb c BACKSLASH = false.
Proof.
  unfold escapeClass. rewrite !orb_false_iff. tauto.
Qed.

Section StringRoundTrip.
Context {NI : NumberImpl}.

(** The loop of [parseString] over the escaped text of [str], wherever
    it stands in the text, gives [str] back and leaves the cursor after
    the closing quote. *)
Lemma parseStringLoop_escaped :
  forall str pre rest result fuel calls,
    length str < fuel ->
    parseStringLoop (pre ++ escapeString str ++ QUOTE :: rest) fuel result
                    {| index := length pre; reviverCalls := calls |}
    = Return (result ++ str,
              {| index := length pre + length (escapeString str) + 1;
                 reviverCalls := calls |}).
Proof.
  induction str as [|c str IH]; intros pre rest result fuel calls Hfuel;
    (destruct fuel as [|fuel]; [simpl in Hfuel; lia |]).
  - cbn [parseStringLoop escapeString flat_map app].
    rewrite peek_bind. cbn [index]. unfold charAt.
    rewrite nth_error_after. cbn [charIs]. rewrite N.eqb_refl.
    rewrite advance_bind. unfold ret. cbn [index reviverCalls length].
    rewrite app_nil_r. do 3 f_equal. lia.
  - cbn [parseStringLoop].
    change (escapeString (c :: str))
      with ((if escapeClass c
             then match escapes c with Some e => e | None => [c] end
             else [c]) ++ escapeString str).
    destruct (escapeClass c) eqn:Hclass.
    + destruct (escape_pair _ Hclass) as (x & -> & Hx & Hbq).
      rewrite peek_bind. cbn [index]. unfold charAt.
      change (pre ++ ([BACKSLASH; x] ++ escapeString str) ++ QUOTE :: rest)
        with (pre ++ BACKSLASH :: (x :: escapeString str ++ QUOTE :: rest)).
      rewrite nth_error_after. cbn [charIs]. rewrite Hbq, N.eqb_refl.
      rewrite advance_bind. rewrite peek_bind. cbn [index reviverCalls].
      unfold charAt.
      replace (pre ++ BACKSLASH :: x :: escapeString str ++ QUOTE :: rest)
        with ((pre ++ [BACKSLASH]) ++ x :: escapeString str ++ QUOTE :: rest)
        by (rewrite <- app_assoc; reflexivity).
      replace (length pre + 1) with (length (pre ++ [BACKSLASH]))
        by (rewrite length_app; reflexivity).
      rewrite nth_error_after. cbn [option_map]. unfold unescaped. rewrite Hx.
      rewrite append_bind.
      rewrite advance_bind. cbn [index reviverCalls].
      replace ((pre ++ [BACKSLASH]) ++ x :: escapeString str ++ QUOTE :: rest)
        with ((pre ++ [BACKSLASH; x]) ++ escapeString str ++ QUOTE :: rest)
        by (rewrite <- !app_assoc; reflexivity).
      replace (length (pre ++ [BACKSLASH]) + 1) with (length (pre ++ [BACKSLASH; x]))
        by (rewrite !length_app; simpl; lia).
      rewrite IH by (simpl in Hfuel; lia).
      rewrite <- app_assoc. do 3 f_equal.
      rewrite !length_app. simpl. lia.
    + destruct (escapeClass_false _ Hclass) as [Hq Hb].
      rewrite peek_bind. cbn [index]. unfold charAt.
      change (pre ++ ([c] ++ escapeString str) ++ QUOTE :: rest)
        with (pre ++ c :: (escapeString str ++ QUOTE :: rest)).
      rewrite nth_error_after. cbn [charIs]. rewrite Hq, Hb.
      rewrite append_bind.
      rewrite advance_bind. cbn [index reviverCalls].
      replace (pre ++ c :: escapeString str ++ QUOTE :: rest)
        with ((pre ++ [c]) ++ escapeString str ++ QUOTE :: rest)
        by (rewrite <- app_assoc; reflexivity).
      replace (length pre + 1) with (length (pre ++ [c]))
        by (rewrite length_app; reflexivity).
      rewrite IH by (simpl in Hfuel; lia).
      rewrite <- app_assoc. do 3 f_equal.
      rewrite !length_app. simpl. lia.
Qed.

End StringRoundTrip.

Section StringValues.
Context {NI : NumberImpl}.

Lemma skipWhitespace_stays (json : jsstring) (s : pstate) :
  testWhitespace (charAt json (index s)) = false ->
  skipWhitespace json s = Return (tt, s).
Proof.
  intros H. rewrite (@skips_run _ json s (index s)).
  - destruct s; reflexivity.
  - split; [lia | split; [intros; lia | exact H]].
Qed.

Lemma skipWhitespace_at_end (json : jsstring) (s : pstate) :
  length json <= index s -> skipWhitespace json s = Return (tt, s).
Proof.
  intros H. apply skipWhitespace_stays. unfold charAt.
  replace (nth_error json (index s)) with (@None codeunit)
    by (symmetry; apply nth_error_None; exact H).
  reflexivity.
Qed.

(** A string literal written by [stringifyValue] is read by [parseValue]
    as the string it was written from, wherever it stands. *)
Lemma parseValue_string reviver (pre rest str : jsstring) fuel calls :
  length str < fuel ->
  parseValue (pre ++ QUOTE :: escapeString str ++ QUOTE :: rest) reviver (S fuel)
             {| index := length pre; reviverCalls := calls |}
  = Return (VString str,
            {| index := length pre + length (escapeString str) + 2;
               reviverCalls := calls |}).
Proof.
  intros Hfuel. cbn [parseValue].
  assert (Hskip : skipWhitespace (pre ++ QUOTE :: escapeString str ++ QUOTE :: rest)
                                 {| index := length pre; reviverCalls := calls |}
                  = Return (tt, {| index := length pre; reviverCalls := calls |})).
  { apply skipWhitespace_stays. cbn [index]. unfold charAt.
    rewrite nth_error_after. reflexivity. }
  rewrite (bind_Return _ _ _ Hskip).
  rewrite peek_bind. cbn [index]. unfold charAt. rewrite nth_error_after.
  cbn [charIs]. rewrite N.eqb_refl.
  unfold parseString. unfold bind at 1. rewrite advance_bind. cbn [index reviverCalls].
  replace (pre ++ QUOTE :: escapeString str ++ QUOTE :: rest)
    with ((pre ++ [QUOTE]) ++ escapeString str ++ QUOTE :: rest)
    by (rewrite <- app_assoc; reflexivity).
  replace (length pre + 1) with (length (pre ++ [QUOTE]))
    by (rewrite length_app; reflexivity).
  rewrite parseStringLoop_escaped by exact Hfuel.
  unfold ret. cbn [app]. do 3 f_equal. rewrite length_app. simpl. lia.
Qed.

End StringValues.

(** X1. Every string comes back from the round trip: [myStringify] writes it
    between quotes with its quotes, backslashes and the five control
    characters escaped, and [myParse], given fuel for its length, reads
    that text as the string. *)
Theorem string_round_trip {NI : NumberImpl}
        (heap : store) (space : space_arg) (str : jsstring) (fuel fuel' : nat) :
  length str + 1 < fuel' ->
  myStringify (S fuel) heap (JString str) None space
  = Return (Some ([QUOTE] ++ escapeString str ++ [QUOTE]))
  /\ myParse fuel' ([QUOTE] ++ escapeString str ++ [QUOTE]) None = Return (VString str).
Proof.
  intros Hfuel. split; [reflexivity |].
  destruct fuel' as [|fuel']; [lia |].
  unfold myParse, runParse, parseText.
  change ([QUOTE] ++ escapeString str ++ [QUOTE])
    with ([] ++ QUOTE :: escapeString str ++ QUOTE :: []).
  assert (Hvalue : length str < fuel') by lia.
  pose proof (@parseValue_string _ None [] [] str fuel' [] Hvalue) as Hparse.
  cbn [app length] in Hparse |- *. fold start in Hparse.
  rewrite (bind_Return _ _ _ Hparse).
  assert (Hskip : skipWhitespace (QUOTE :: escapeString str ++ [QUOTE])
                                 {| index := 0 + length (escapeString str) + 2;
                                    reviverCalls := [] |}
                  = Return (tt, {| index := 0 + length (escapeString str) + 2;
                                   reviverCalls := [] |})).
  { apply skipWhitespace_at_end. cbn [index length].
    rewrite length_app. simpl. lia. }
  rewrite (bind_Return _ _ _ Hskip).
  unfold bind, get. cbn [index].
  replace (Nat.ltb _ _) with false; [reflexivity |].
  symmetry. apply Nat.ltb_ge. rewrite length_app. simpl. lia.
Qed.

Lemma quoted_string_witness :
  @myParse IntegerNumbers 9 ([QUOTE] ++ escapeString (qlit "a'b\c") ++ [QUOTE]) None
  = Return (VString (qlit "a'b\c")).
Proof.
  apply (@string_round_trip IntegerNumbers [] SpaceOther (qlit "a'b\c") 0 9).
  simpl. lia.
Defined.

Lemma escapeString_grows (str : jsstring) :
  length (escapeString str) = length str + length (filter escapeClass str).
Proof.
  induction str as [|c s IH]; [reflexivity |].
  change (escapeString (c :: s))
    with ((if escapeClass c
           then match escapes c with Some e => e | None => [c] end
           else [c]) ++ escapeString s).
  rewrite length_app, IH. cbn [filter length]. destruct (escapeClass c) eqn:Hc.
  - destruct (escape_pair _ Hc) as (x & -> & _). cbn [length]. lia.
  - cbn [length]. lia.
Qed.

(** X2. [escapeString] adds one character for every quote, backslash,
    backspace, form feed, newline, carriage return and tab of the string
    and none for any other character; it gives the string back as it is
    exactly when the string has none of the seven. *)
Theorem escapeString_length (str : jsstring) :
  length (escapeString str) = length str + length (filter escapeClass str)
  /\ (escapeString str = str <-> filter escapeClass str = []).
Proof.
  pose proof escapeString_grows as Hlen.
  split; [apply Hlen | split].
  - intros Heq. pose proof (Hlen str) as H. rewrite Heq in H.
    destruct (filter escapeClass str); [reflexivity | cbn [length] in H; lia].
  - induction str as [|c s IH]; [reflexivity |].
    cbn [filter]. destruct (escapeClass c) eqn:Hc; [discriminate |].
    intros H. unfold escapeString. cbn [flat_map]. rewrite Hc. cbn [app].
    f_equal. apply IH, H.
Qed.

(* ================================================================== *)
(** ** Texts on which the parser does not stop *)

Section NoWayOut.
Context {NI : NumberImpl}.

Lemma skips_prefix (w rest : jsstring) :
  forallb whitespace w = true ->
  testWhitespace (nth_error rest 0) = false ->
  skips (w ++ rest) 0 (length w).
Proof.
  intros Hw Hstop. split; [lia | split].
  - intros p Hp. rewrite nth_error_app1 by lia.
    destruct (nth_error w p) as [c|] eqn:Hc.
    + simpl. eapply forallb_nth_error; eauto.
    + apply nth_error_None in Hc. lia.
  - rewrite nth_error_app2 by lia. rewrite Nat.sub_diag. exact Hstop.
Qed.

(** The cursor of [skipWhitespace] never goes back. *)
Lemma skipWhitespace_forward (json : jsstring) s s1 :
  skipWhitespace json s = Return (tt, s1) -> index s <= index s1.
Proof.
  intros H. destruct (skipWhitespace_skips json s) as (s2 & Hrun & (Hle & _) & _).
  rewrite Hrun in H. injection H as <-. exact Hle.
Qed.

Lemma parseString_unterminated (json : jsstring) fuel s :
  (forall p, index s < p -> charAt json p <> Some QUOTE) ->
  sat (parseString json fuel s)
      (fun _ _ => False) (fun e => e = RangeError_invalid_string_length) True.
Proof.
  intros Hq. unfold parseString. rewrite advance_bind.
  apply parseStringLoop_unterminated. cbn [index]. intros p Hp. apply Hq. lia.
Qed.

Lemma parseString_overflows (json : jsstring) fuel s :
  (forall p, index s < p -> charAt json p <> Some QUOTE) ->
  0 < length json ->
  length json + N.to_nat maxStringLength <= fuel ->
  parseString json fuel s = Throw RangeError_invalid_string_length.
Proof.
  intros Hq Hlen Hfuel. unfold parseString. rewrite advance_bind.
  apply parseStringLoop_overflows; cbn [index length].
  - intros p Hp. apply Hq. lia.
  - lia.
  - lia.
Qed.

Lemma no_quote_after (w : jsstring) (c : codeunit) (body : jsstring) p :
  ~ In QUOTE body -> length w < p -> charAt (w ++ c :: body) p <> Some QUOTE.
Proof.
  intros Hno Hp. unfold charAt. rewrite nth_error_app2 by lia.
  destruct (p - length w) as [|n] eqn:Hn; [lia |]. simpl.
  intros H. apply Hno. eapply nth_error_In; eauto.
Qed.

End NoWayOut.

(** X3. A string that is opened and never closed: when the first character
    of the text that is not white space is a quote and no quote follows
    it, [myParse] returns no value and throws no [SyntaxError], whatever
    the fuel and the reviver. The call does not return or throws the
    error of the string that is too long, and it throws that error when
    the fuel is more than the length of the text and of the longest
    string together: the loop of [parseString] goes on past the end of
    the text and appends the name of [undefined] until the string is
    too long. *)
Theorem unterminated_string_never_returns {NI : NumberImpl}
        (w body : jsstring) (fuel : nat)
        (reviver : option (jsstring -> value -> revived)) :
  forallb whitespace w = true ->
  ~ In QUOTE body ->
  (myParse fuel (w ++ QUOTE :: body) reviver = Timeout
   \/ myParse fuel (w ++ QUOTE :: body) reviver = Throw RangeError_invalid_string_length)
  /\ (length (w ++ QUOTE :: body) + N.to_nat maxStringLength < fuel ->
      myParse fuel (w ++ QUOTE :: body) reviver = Throw RangeError_invalid_string_length).
Proof.
  intros Hw Hno.
  assert (Hstep : forall n,
             parseValue (w ++ QUOTE :: body) reviver (S n) start
             = bind (parseString (w ++ QUOTE :: body) n) (fun s => ret (VString s))
                    {| index := length w; reviverCalls := [] |}).
  { intros n. cbn [parseValue].
    rewrite (bind_Return _ _ _ (@skips_run _ (w ++ QUOTE :: body) start (length w)
                                           (skips_prefix w (QUOTE :: body) Hw eq_refl))).
    rewrite peek_bind. cbn [index]. unfold charAt at 1.
    rewrite nth_error_after. cbn [charIs]. rewrite N.eqb_refl. reflexivity. }
  assert (Hq : forall p, length w < p -> charAt (w ++ QUOTE :: body) p <> Some QUOTE).
  { intros p Hp. apply no_quote_after; assumption. }
  split.
  - apply myParse_no_value.
    destruct fuel as [|fuel]; [exact I |].
    rewrite Hstep. apply sat_bind.
    eapply sat_post; [apply parseString_unterminated; exact Hq |].
    intros r s [].
  - intros Hfuel. destruct fuel as [|fuel]; [lia |].
    unfold myParse, runParse, parseText.
    unfold bind at 1. rewrite Hstep. unfold bind at 1.
    rewrite parseString_overflows; [reflexivity | exact Hq | | lia].
    rewrite length_app. cbn [length]. lia.
Qed.

Lemma open_string_witness :
  let text := lit "  " ++ QUOTE :: lit "abc, 12]" in
  (@myParse IntegerNumbers 50 text None = Timeout
   \/ @myParse IntegerNumbers 50 text None = Throw RangeError_invalid_string_length)
  /\ (length text + N.to_nat (@maxStringLength IntegerNumbers) < 50 ->
      @myParse IntegerNumbers 50 text None = Throw RangeError_invalid_string_length).
Proof.
  apply (@unterminated_string_never_returns IntegerNumbers (lit "  ") (lit "abc, 12]") 50 None).
  - reflexivity.
  - cbv. intros H. repeat (destruct H as [H | H]; [discriminate H |]). exact H.
Defined.

(** X4. An object whose first key is not written as a string: when the
    first character of the text that is not white space is an opening
    brace, what follows the brace and white space is not a closing
    brace, and no quote follows the brace, [myParse] returns no value
    and throws no [SyntaxError], whatever the fuel and the reviver.
    [parseObject] calls [parseString] for the key without looking for
    the opening quote, and the loop of [parseString] goes on past the
    end of the text: the call does not return or throws the error of
    the string that is too long, and it throws that error when the fuel
    is more than the length of the text and of the longest string
    together. *)
Theorem object_without_quote_never_returns {NI : NumberImpl}
        (w body : jsstring) (fuel : nat)
        (reviver : option (jsstring -> value -> revived)) :
  forallb whitespace w = true ->
  ~ In QUOTE body ->
  charIs (ch "}") (nth_error body (skipWhitespaceFrom body (length body) 0)) = false ->
  (myParse fuel (w ++ ch "{" :: body) reviver = Timeout
   \/ myParse fuel (w ++ ch "{" :: body) reviver = Throw RangeError_invalid_string_length)
  /\ (length (w ++ ch "{" :: body) + N.to_nat maxStringLength < fuel ->
      myParse fuel (w ++ ch "{" :: body) reviver = Throw RangeError_invalid_string_length).
Proof.
  intros Hw Hno Hbrace.
  set (json := w ++ ch "{" :: body).
  destruct (skipWhitespace_skips json {| index := length w + 1; reviverCalls := [] |})
    as (s1 & Hrun & Hsk & _).
  cbn [index] in Hsk.
  assert (Hs1 : index s1 = length w + 1 + skipWhitespaceFrom body (length body) 0).
  { apply (@skips_unique json (length w + 1)); [exact Hsk |].
    destruct (@skipWhitespaceFrom_skips body (length body) 0 ltac:(lia))
      as (Hle & Hall & Hstop).
    assert (Hat : forall p, nth_error json (length w + 1 + p) = nth_error body p).
    { intros p. unfold json. rewrite nth_error_app2 by lia.
      replace (length w + 1 + p - length w) with (S p) by lia. reflexivity. }
    split; [lia | split].
    - intros p Hp. replace p with (length w + 1 + (p - (length w + 1))) by lia.
      rewrite Hat. apply Hall. lia.
    - rewrite Hat. exact Hstop. }
  assert (Hnot : charIs (ch "}") (charAt json (index s1)) = false).
  { rewrite Hs1. unfold charAt, json. rewrite nth_error_app2 by lia.
    replace (length w + 1 + skipWhitespaceFrom body (length body) 0 - length w)
      with (S (skipWhitespaceFrom body (length body) 0)) by lia.
    exact Hbrace. }
  destruct (skipWhitespace_skips json s1) as (s2 & Hrun2 & (Hle2 & _) & _).
  assert (Hq : forall p, index s2 < p -> charAt json p <> Some QUOTE).
  { intros p Hp. apply no_quote_after; [exact Hno | lia]. }
  assert (Hvalue : forall f,
             parseValue json reviver (S f) start
             = bind (parseObjectLoop json (parseValue json reviver f) f f (VObject []))
                    (fun result => applyReviver reviver f result) s1).
  { intros f. cbn [parseValue].
    rewrite (bind_Return _ _ _ (@skips_run _ json start (length w)
                                           (skips_prefix w (ch "{" :: body) Hw eq_refl))).
    rewrite peek_bind. cbn [index].
    assert (Hopen : charAt json (length w) = Some (ch "{"))
      by (unfold charAt, json; apply nth_error_after).
    rewrite !Hopen.
    replace (charIs QUOTE (Some (ch "{"))) with false by reflexivity.
    replace (charIs (ch "{") (Some (ch "{"))) with true by reflexivity.
    unfold parseObject. rewrite advance_bind. cbn [index reviverCalls start].
    rewrite (bind_Return _ _ _ Hrun). rewrite peek_bind. rewrite Hnot. reflexivity. }
  split.
  - apply myParse_no_value.
    destruct fuel as [|fuel]; [exact I |].
    rewrite Hvalue. apply sat_bind.
    destruct fuel as [|fuel]; [exact I |].
    cbn [parseObjectLoop]. rewrite (bind_Return _ _ _ Hrun2). apply sat_bind.
    eapply sat_post; [apply parseString_unterminated; exact Hq |].
    intros r s [].
  - intros Hfuel.
    assert (Hlen : 0 < length json)
      by (unfold json; rewrite length_app; cbn [length]; lia).
    fold json in Hfuel.
    destruct fuel as [|[|fuel]]; [lia | lia |].
    unfold myParse, runParse, parseText.
    unfold bind at 1. rewrite Hvalue. unfold bind at 1.
    cbn [parseObjectLoop]. rewrite (bind_Return _ _ _ Hrun2).
    assert (Hfuel' : length json + N.to_nat maxStringLength <= S fuel) by lia.
    rewrite (bind_Throw _ _ _ (@parseString_overflows _ json (S fuel) s2 Hq Hlen Hfuel')).
    reflexivity.
Qed.

Lemma bare_key_witness :
  let text := lit "{a:1}" in
  (@myParse IntegerNumbers 50 text None = Timeout
   \/ @myParse IntegerNumbers 50 text None = Throw RangeError_invalid_string_length)
  /\ (length text + N.to_nat (@maxStringLength IntegerNumbers) < 50 ->
      @myParse IntegerNumbers 50 text None = Throw RangeError_invalid_string_length).
Proof.
  apply (@object_without_quote_never_returns IntegerNumbers [] (lit "a:1}") 50 None).
  - reflexivity.
  - cbv. intros H. repeat (destruct H as [H | H]; [discriminate H |]). exact H.
  - reflexivity.
Defined.

(* ================================================================== *)
(** ** The cursor of the parser *)

(** X5. [skipWhitespace] always returns. It leaves the cursor on the first
    character at or after it that is not of the class of white space, or
    on the end of the text when there is none; it goes over white space
    only, never past the end of the text when it starts inside, does not
    call the reviver, and a second call right after changes nothing. *)
Theorem skipWhitespace_stops_at_first_other {NI : NumberImpl}
        (json : jsstring) (s : pstate) :
  exists q,
    skipWhitespace json s = Return (tt, {| index := q; reviverCalls := reviverCalls s |})
    /\ index s <= q <= Nat.max (index s) (length json)
    /\ (forall p, index s <= p < q -> testWhitespace (charAt json p) = true)
    /\ testWhitespace (charAt json q) = false
    /\ skipWhitespace json {| index := q; reviverCalls := reviverCalls s |}
       = Return (tt, {| index := q; reviverCalls := reviverCalls s |}).
Proof.
  destruct (skipWhitespace_skips json s) as (s1 & Hrun & Hsk & Hc).
  exists (index s1).
  assert (Hs1 : s1 = {| index := index s1; reviverCalls := reviverCalls s |})
    by (destruct s1; simpl in *; congruence).
  rewrite <- Hs1.
  destruct Hsk as (Hle & Hall & Hstop).
  split; [exact Hrun | split; [| split; [exact Hall | split; [exact Hstop |]]]].
  - split; [exact Hle |].
    destruct (Nat.le_gt_cases (index s) (length json)) as [Hin | Hout].
    + pose proof (@skips_bounded json (index s) (index s1)
                                 (conj Hle (conj Hall Hstop)) Hin). lia.
    + destruct (Nat.eq_dec (index s1) (index s)) as [-> | Hne]; [lia |].
      specialize (Hall (index s) ltac:(lia)).
      assert (Hnone : nth_error json (index s) = None) by (apply nth_error_None; lia).
      rewrite Hnone in Hall. discriminate.
  - apply skipWhitespace_stays. exact Hstop.
Qed.

(** X6. A call of [parseValue] that returns has read at least one character
    and has not gone past the end of the text, with or without reviver. *)
Theorem parseValue_moves_within_text {NI : NumberImpl}
        (json : jsstring) (reviver : option (jsstring -> value -> revived))
        (fuel : nat) (s s1 : pstate) (v : value) :
  parseValue json reviver fuel s = Return (v, s1) ->
  index s < index s1 <= length json.
Proof.
  intros H.
  destruct (@parseValue_transfer NI json json 0 reviver fuel s v s1 H) as (Hlt & Hle & _).
  split; assumption.
Qed.

Lemma cursor_moves_witness :
  let s := {| index := 1; reviverCalls := [] |} in
  let s1 := {| index := 5; reviverCalls := [] |} in
  @parseValue IntegerNumbers (lit "[true,7]") None 3 s = Return (VBoolean true, s1)
  /\ index s < index s1 <= length (lit "[true,7]").
Proof.
  intros s s1.
  assert (H : @parseValue IntegerNumbers (lit "[true,7]") None 3 s
              = Return (VBoolean true, s1)) by reflexivity.
  split; [exact H |].
  exact (@parseValue_moves_within_text IntegerNumbers (lit "[true,7]") None 3 s s1
                                       (VBoolean true) H).
Defined.

(** X7. A text with nothing in it but white space, the empty text among
    them, is rejected with the error of an unexpected character. *)
Theorem blank_text_is_rejected {NI : NumberImpl}
        (w : jsstring) (fuel : nat)
        (reviver : option (jsstring -> value -> revived)) :
  forallb whitespace w = true ->
  myParse (S fuel) w reviver = Throw (SyntaxError UnexpectedCharacter).
Proof.
  intros Hw. unfold myParse, runParse, parseText.
  assert (H : parseValue w reviver (S fuel) start = Throw (SyntaxError UnexpectedCharacter)).
  { cbn [parseValue].
    assert (Hsk : skips w 0 (length w)).
    { rewrite <- (app_nil_r w) at 1. apply skips_prefix; [exact Hw | reflexivity]. }
    rewrite (bind_Return _ _ _ (@skips_run _ w start (length w) Hsk)).
    rewrite peek_bind. cbn [index].
    assert (Hend : charAt w (length w) = None)
      by (unfold charAt; apply nth_error_None; lia).
    rewrite !Hend. reflexivity. }
  unfold bind at 1. rewrite H. reflexivity.
Qed.

Lemma only_spaces_witness :
  @myParse IntegerNumbers 1 [SPACE; LF; NBSP] None = Throw (SyntaxError UnexpectedCharacter).
Proof.
  apply (@blank_text_is_rejected IntegerNumbers [SPACE; LF; NBSP] 0 None). reflexivity.
Defined.

(** X8. What [parseValue] reads depends on nothing but the characters it
    goes over: when a call on the text [t] returns with the cursor at
    [j], the same call on any text that has the first [j] characters of
    [t] after a prefix, with the cursor moved on by the length of the
    prefix, returns the same value and makes the same calls to the
    reviver, provided that what follows is not a character a number
    could go on with. *)
Theorem parseValue_reads_only_its_characters {NI : NumberImpl}
        (t pre post : jsstring) (reviver : option (jsstring -> value -> revived))
        (fuel : nat) (s s1 : pstate) (v : value) :
  parseValue t reviver fuel s = Return (v, s1) ->
  numberStop (nth_error post 0) = true ->
  parseValue (pre ++ firstn (index s1) t ++ post) reviver fuel (shift (length pre) s)
  = Return (v, shift (length pre) s1).
Proof.
  intros H Hstop.
  destruct (@parseValue_transfer NI t (pre ++ firstn (index s1) t ++ post) (length pre)
                                 reviver fuel s v s1 H) as (Hlt & Hle & Htr).
  assert (Hlen : length (firstn (index s1) t) = index s1)
    by (rewrite length_firstn; lia).
  apply Htr.
  - intros p Hp. rewrite nth_error_app2 by lia.
    replace (length pre + p - length pre) with p by lia.
    rewrite nth_error_app1 by lia.
    apply nth_error_firstn_lt || (rewrite nth_error_firstn;
      destruct (Nat.ltb_spec p (index s1)); [reflexivity | lia]).
  - rewrite nth_error_app2 by lia.
    replace (length pre + index s1 - length pre) with (index s1) by lia.
    rewrite nth_error_app2 by lia. rewrite Hlen, Nat.sub_diag. exact Hstop.
Qed.

Lemma locality_witness :
  @parseValue IntegerNumbers (qlit "{'k':[10,'x']} and more") None 5 start
  = Return (VObject [(lit "k", VArray [Some (vnum 10); Some (VString (lit "x"))])],
            {| index := 14; reviverCalls := [] |})
  /\ @parseValue IntegerNumbers (lit "[0, " ++ qlit "{'k':[10,'x']}" ++ lit " ]") None 5
                 {| index := 4; reviverCalls := [] |}
     = Return (VObject [(lit "k", VArray [Some (vnum 10); Some (VString (lit "x"))])],
               {| index := 18; reviverCalls := [] |}).
Proof.
  assert (H : @parseValue IntegerNumbers (qlit "{'k':[10,'x']} and more") None 5 start
              = Return (VObject [(lit "k", VArray [Some (vnum 10); Some (VString (lit "x"))])],
                        {| index := 14; reviverCalls := [] |})) by reflexivity.
  split; [exact H |].
  exact (@parseValue_reads_only_its_characters IntegerNumbers
           (qlit "{'k':[10,'x']} and more") (lit "[0, ") (lit " ]") None 5 start
           {| index := 14; reviverCalls := [] |} _ H eq_refl).
Defined.

(* ================================================================== *)
(** ** Number literals *)

Lemma digitRun_stop (s : jsstring) : isDigit (nth_error s (digitRun s)) = false.
Proof.
  induction s as [|c s IH]; [reflexivity |].
  cbn [digitRun]. destruct (isDigitUnit c) eqn:Hc; [exact IH |].
  cbn [nth_error isDigit]. exact Hc.
Qed.

Lemma digitRun_all (ds rest : jsstring) :
  forallb isDigitUnit ds = true -> digitRun (ds ++ rest) = length ds + digitRun rest.
Proof.
  induction ds as [|c ds IH]; [reflexivity |].
  cbn [forallb app digitRun length]. intros H. apply andb_prop in H. destruct H as [Hc Hds].
  rewrite Hc, IH by exact Hds. reflexivity.
Qed.

Lemma matchFraction_stop (s : jsstring) :
  matchFraction s <> 0 -> isDigit (nth_error s (matchFraction s)) = false.
Proof.
  destruct s as [|c s]; [intros H; contradiction H; reflexivity |].
  cbn [matchFraction].
  destruct (N.eqb c (ch ".") && Nat.ltb 0 (digitRun s));
    [| intros H; contradiction H; reflexivity].
  intros _. cbn [Nat.add nth_error]. apply digitRun_stop.
Qed.

Lemma matchExponent_stop (s : jsstring) :
  matchExponent s <> 0 -> isDigit (nth_error s (matchExponent s)) = false.
Proof.
  destruct s as [|c s]; [intros H; contradiction H; reflexivity |].
  cbn [matchExponent].
  destruct (N.eqb c (ch "e") || N.eqb c (ch "E"));
    [| intros H; contradiction H; reflexivity].
  cbv zeta.
  set (sign := match s with
               | c' :: _ => if N.eqb c' (ch "+") || N.eqb c' (ch "-") then 1 else 0
               | [] => 0
               end).
  destruct (Nat.ltb 0 (digitRun (skipn sign s)));
    [| intros H; contradiction H; reflexivity].
  intros _. cbn [Nat.add nth_error].
  rewrite <- nth_error_skipn. apply digitRun_stop.
Qed.

(** The match of the regular expression of [parseNumber] never stops
    before a digit. *)
Lemma numberRegex_stop (s : jsstring) (n : nat) :
  numberRegex s = Some n -> isDigit (nth_error s n) = false.
Proof.
  unfold numberRegex. cbv zeta.
  set (sign := matchSign s). set (d := digitRun (skipn sign s)).
  destruct (Nat.eqb d 0); [discriminate |].
  set (frac := matchFraction (skipn (sign + d) s)).
  set (expo := matchExponent (skipn (sign + d + frac) s)).
  intros H. injection H as <-.
  destruct (Nat.eq_dec expo 0) as [He | He].
  - rewrite He, Nat.add_0_r.
    destruct (Nat.eq_dec frac 0) as [Hf | Hf].
    + rewrite Hf, Nat.add_0_r. rewrite <- nth_error_skipn. apply digitRun_stop.
    + rewrite <- nth_error_skipn. apply matchFraction_stop. exact Hf.
  - rewrite <- nth_error_skipn. apply matchExponent_stop. exact He.
Qed.

(** X9. A call of [parseNumber] that returns has read at least one
    character, has stayed within the text and has stopped before a
    character that is not a digit; the number is [Number] of the
    characters read. *)
Theorem parseNumber_reads_to_the_last_digit {NI : NumberImpl}
        (json : jsstring) (s s1 : pstate) (v : value) :
  parseNumber json s = Return (v, s1) ->
  index s < index s1 <= length json
  /\ isDigit (charAt json (index s1)) = false
  /\ v = VNumber (stringToNumber (slice json (index s) (index s1 - index s))).
Proof.
  unfold parseNumber, bind, get, advance, ret.
  destruct (numberRegex (skipn (index s) json)) as [n|] eqn:Hn; [| discriminate].
  intros H. injection H as <- <-. cbn [index].
  pose proof (numberRegex_length _ Hn) as Hlen. rewrite length_skipn in Hlen.
  split; [lia | split].
  - unfold charAt. rewrite <- nth_error_skipn. apply numberRegex_stop. exact Hn.
  - replace (index s + n - index s) with n by lia. reflexivity.
Qed.

Lemma last_digit_witness :
  let s := {| index := 1; reviverCalls := [] |} in
  let s1 := {| index := 4; reviverCalls := [] |} in
  @parseNumber IntegerNumbers (lit "[-12.x]") s = Return (vnum (-12), s1)
  /\ isDigit (charAt (lit "[-12.x]") (index s1)) = false.
Proof.
  intros s s1.
  assert (H : @parseNumber IntegerNumbers (lit "[-12.x]") s = Return (vnum (-12), s1))
    by reflexivity.
  split; [exact H |].
  exact (proj1 (proj2 (@parseNumber_reads_to_the_last_digit IntegerNumbers
                         (lit "[-12.x]") s s1 (vnum (-12)) H))).
Defined.

Lemma digit_not_opener (c : codeunit) :
  isDigitUnit c = true ->
  N.eqb c QUOTE = false /\ N.eqb c (ch "{") = false /\ N.eqb c (ch "[") = false
  /\ N.eqb c (ch "t") = false /\ N.eqb c (ch "f") = false /\ N.eqb c (ch "n") = false
  /\ N.eqb c (ch "-") = false /\ whitespace c = false.
Proof.
  unfold isDigitUnit. intros H. apply andb_prop in H. destruct H as [H1 H2].
  apply N.leb_le in H1. apply N.leb_le in H2.
  assert (Hne : forall k : N, (k < 48 \/ 57 < k)%N -> N.eqb c k = false)
    by (intros k Hk; apply N.eqb_neq; lia).
  repeat split; try (apply Hne; cbv; intuition congruence).
  unfold whitespace.
  repeat match goal with
         | |- _ || _ = false => apply orb_false_intro
         end;
    try (apply Hne; cbv; intuition congruence);
    first [ apply andb_false_intro2; apply N.leb_gt; lia
          | apply andb_false_intro1; apply N.leb_gt; lia ].
Qed.

Lemma numberRegex_head (s : jsstring) (n : nat) :
  numberRegex s = Some n ->
  exists c r, s = c :: r /\ (c = ch "-" \/ isDigitUnit c = true).
Proof.
  unfold numberRegex. cbv zeta. destruct s as [|c r]; [discriminate |].
  intros H. exists c, r. split; [reflexivity |].
  cbn [matchSign] in H. destruct (N.eqb c (ch "-")) eqn:Hc.
  - left. apply N.eqb_eq. exact Hc.
  - right. cbn [skipn digitRun] in H.
    destruct (isDigitUnit c); [reflexivity | discriminate].
Qed.

Lemma numberRegex_digits (ds : jsstring) :
  ds <> [] -> forallb isDigitUnit ds = true ->
  numberRegex ds = Some (length ds)
  /\ numberRegex (ch "-" :: ds) = Some (length (ch "-" :: ds)).
Proof.
  intros Hne Hds.
  assert (Hrun : digitRun ds = length ds).
  { rewrite <- (app_nil_r ds) at 1. rewrite digitRun_all by exact Hds.
    cbn [digitRun]. lia. }
  assert (Hpos : Nat.eqb (length ds) 0 = false).
  { apply Nat.eqb_neq. destruct ds; [contradiction Hne; reflexivity | discriminate]. }
  assert (Hend : forall k, length ds <= k -> skipn k ds = []).
  { intros k Hk. apply skipn_all2. exact Hk. }
  split.
  - unfold numberRegex. cbv zeta.
    assert (Hsign : matchSign ds = 0).
    { destruct ds as [|c ds']; [reflexivity |]. cbn [matchSign].
      cbn [forallb] in Hds. apply andb_prop in Hds. destruct Hds as [Hc _].
      destruct (digit_not_opener _ Hc) as (_ & _ & _ & _ & _ & _ & Hm & _).
      rewrite Hm. reflexivity. }
    rewrite Hsign. cbn [skipn Nat.add]. rewrite Hrun, Hpos.
    rewrite !Hend by lia. cbn [matchFraction matchExponent]. f_equal. lia.
  - unfold numberRegex. cbv zeta. cbn [matchSign]. rewrite N.eqb_refl.
    cbn [skipn]. rewrite Hrun, Hpos.
    replace (skipn (1 + length ds) (ch "-" :: ds)) with (@nil codeunit)
      by (cbn [Nat.add skipn]; symmetry; apply Hend; lia).
    cbn [matchFraction Nat.add].
    replace (skipn (S (length ds + 0)) (ch "-" :: ds)) with (@nil codeunit)
      by (cbn [skipn]; symmetry; apply Hend; lia).
    cbn [matchExponent length]. f_equal. lia.
Qed.

Section NumberValues.
Context {NI : NumberImpl}.

(** A text that the regular expression matches as a whole is read by
    [parseValue] as [Number] of it, wherever it stands before a
    character that no number goes on with. *)
Lemma parseValue_number reviver (pre text post : jsstring) fuel calls :
  numberRegex text = Some (length text) ->
  numberStop (nth_error post 0) = true ->
  parseValue (pre ++ text ++ post) reviver (S fuel)
             {| index := length pre; reviverCalls := calls |}
  = Return (VNumber (stringToNumber text),
            {| index := length pre + length text; reviverCalls := calls |}).
Proof.
  intros Hre Hstop.
  destruct (numberRegex_head _ Hre) as (c & r & Htext & Hc).
  assert (Hat : charAt (pre ++ text ++ post) (length pre) = Some c).
  { unfold charAt. rewrite Htext. apply nth_error_after. }
  assert (Hclass : whitespace c = false /\ N.eqb c QUOTE = false
                   /\ N.eqb c (ch "{") = false /\ N.eqb c (ch "[") = false
                   /\ N.eqb c (ch "t") = false /\ N.eqb c (ch "f") = false
                   /\ N.eqb c (ch "n") = false
                   /\ N.eqb c (ch "-") || isDigitUnit c = true).
  { destruct Hc as [-> | Hd].
    - repeat split; reflexivity.
    - destruct (digit_not_opener _ Hd) as (H1 & H2 & H3 & H4 & H5 & H6 & _ & H8).
      rewrite Hd, orb_true_r. repeat split; assumption. }
  destruct Hclass as (Hws & H1 & H2 & H3 & H4 & H5 & H6 & H7).
  cbn [parseValue].
  assert (Hskip : skipWhitespace (pre ++ text ++ post)
                                 {| index := length pre; reviverCalls := calls |}
                  = Return (tt, {| index := length pre; reviverCalls := calls |})).
  { apply skipWhitespace_stays. cbn [index]. rewrite Hat. exact Hws. }
  rewrite (bind_Return _ _ _ Hskip). rewrite peek_bind. cbn [index].
  rewrite !Hat. cbn [charIs isDigit]. rewrite H1, H2, H3, H4, H5, H6, H7.
  unfold parseNumber, bind, get, advance, ret. cbn [index reviverCalls].
  assert (Hskipn : skipn (length pre) (pre ++ text ++ post) = text ++ post).
  { rewrite skipn_app, skipn_all, Nat.sub_diag. reflexivity. }
  rewrite Hskipn.
  assert (Hloc : numberRegex (text ++ post) = Some (length text)).
  { apply (numberRegex_local Hre).
    - intros p Hp. apply nth_error_app1. exact Hp.
    - rewrite nth_error_app2 by lia. rewrite Nat.sub_diag. exact Hstop. }
  rewrite Hloc. unfold slice. rewrite Hskipn.
  rewrite firstn_app, firstn_all, Nat.sub_diag. cbn [firstn]. rewrite app_nil_r.
  reflexivity.
Qed.

(** When [parseValue] has read the whole text, [myParse] without
    reviver returns what it read. *)
Lemma myParse_whole (json : jsstring) fuel v calls :
  parseValue json None fuel start
  = Return (v, {| index := length json; reviverCalls := calls |}) ->
  myParse fuel json None = Return v.
Proof.
  intros H. unfold myParse, runParse, parseText.
  rewrite (bind_Return _ _ _ H).
  assert (Hskip : skipWhitespace json {| index := length json; reviverCalls := calls |}
                  = Return (tt, {| index := length json; reviverCalls := calls |}))
    by (apply skipWhitespace_at_end; cbn [index]; lia).
  rewrite (bind_Return _ _ _ Hskip).
  unfold bind, get. cbn [index]. rewrite Nat.ltb_irrefl. reflexivity.
Qed.

End NumberValues.

(** X10. Every run of digits is read as a number, with or without a minus
    sign before it: the regular expression of [parseNumber] lets zeros
    lead, so that a text such as [007] is accepted. *)
Theorem digits_are_read_as_a_number {NI : NumberImpl} (ds : jsstring) (fuel : nat) :
  ds <> [] ->
  forallb isDigitUnit ds = true ->
  myParse (S fuel) ds None = Return (VNumber (stringToNumber ds))
  /\ myParse (S fuel) (ch "-" :: ds) None
     = Return (VNumber (stringToNumber (ch "-" :: ds))).
Proof.
  intros Hne Hds. destruct (numberRegex_digits Hne Hds) as [Hplain Hminus].
  split.
  - apply myParse_whole with (calls := []).
    pose proof (@parseValue_number NI None [] ds [] fuel [] Hplain eq_refl) as H.
    cbn [app length Nat.add] in H. rewrite app_nil_r in H. exact H.
  - apply myParse_whole with (calls := []).
    pose proof (@parseValue_number NI None [] (ch "-" :: ds) [] fuel [] Hminus eq_refl) as H.
    cbn [app length Nat.add] in H. rewrite app_nil_r in H. exact H.
Qed.

Lemma leading_zeros_witness :
  @myParse IntegerNumbers 1 (lit "007") None = Return (vnum 7)
  /\ @myParse IntegerNumbers 1 (lit "-007") None = Return (vnum (-7)).
Proof.
  apply (@digits_are_read_as_a_number IntegerNumbers (lit "007") 0).
  - discriminate.
  - reflexivity.
Defined.

(* ================================================================== *)
(** ** The stack of the serializer *)

Lemma includes_true (l : loc) (st : list loc) :
  includes l st = true -> In l st.
Proof.
  unfold includes. intros H. apply existsb_exists in H.
  destruct H as (x & Hin & Heq). apply Nat.eqb_eq in Heq. subst x. exact Hin.
Qed.

Section Stack.
Context {NI : NumberImpl}.
Variable heap : store.
Variable indent : jsstring.

(** Whatever the replacer, a visit keeps the stack: what it pushes it
    pops. *)
Lemma stringifyValue_keeps_stack replacerFn :
  forall fuel key v depth st,
    sat (stringifyValue heap replacerFn indent fuel key v depth st)
        (fun _ st' => stack st' = stack st) (fun _ => True) True.
Proof.
  induction fuel as [|fuel IH]; intros key v depth st; [exact I |].
  cbn [stringifyValue]. apply sat_bind.
  assert (Hrep : sat (applyReplacer replacerFn key v st)
                     (fun _ s1 => stack s1 = stack st) (fun _ => True) True).
  { unfold applyReplacer. destruct replacerFn; reflexivity. }
  eapply sat_post; [exact Hrep |]. clear Hrep.
  intros v' s1 Hs1. cbn beta. rewrite <- Hs1. clear Hs1 st v.
  destruct v' as [|b|n|s|l| |]; try reflexivity.
  unfold bind at 1, get at 1.
  destruct (includes l (stack s1)); [exact I |].
  destruct (nth_error heap l) as [[items|entries]|]; [| | exact I].
  - unfold stringifyArray. apply sat_bind. cbn [push sat].
    apply sat_bind.
    eapply sat_post;
      [apply (@sat_mapM _ _ _ _ (fun s => stack s = stack s1 ++ [l]) (fun _ => True));
       [reflexivity |] |].
    + intros [item|] s2 _ Hs2.
      * apply sat_bind. eapply sat_post; [apply IH |].
        intros r s3 Hs3. cbn. split; [congruence | exact I].
      * cbn. auto.
    + intros pieces s2 [Hs2 _]. cbn. rewrite Hs2. apply removelast_last.
  - unfold stringifyObject. apply sat_bind. cbn [push sat].
    apply sat_bind.
    eapply sat_post;
      [apply (@sat_filterM _ _ _ (fun s => stack s = stack s1 ++ [l]) (fun _ => True));
       [reflexivity |] |].
    + intros entry s2 _ Hs2.
      apply sat_bind. eapply sat_post; [apply IH |].
      intros r s3 Hs3. cbn. split; [congruence | exact I].
    + intros kept s2 (Hs2 & _ & _). cbn beta.
      apply sat_bind.
      eapply sat_post;
        [apply (@sat_mapM _ _ _ _ (fun s => stack s = stack s1 ++ [l]) (fun _ => True));
         [exact Hs2 |] |].
      * intros entry s3 _ Hs3.
        apply sat_bind. eapply sat_post; [apply IH |].
        intros r s4 Hs4. cbn. split; [congruence | exact I].
      * intros pieces s3 [Hs3 _]. cbn. rewrite Hs3. apply removelast_last.
Qed.

Lemma above_child stk l c v :
  above heap stk (JRef l) ->
  nth_error heap l = Some c ->
  In v (children c) ->
  above heap (stk ++ [l]) v.
Proof.
  intros Habove Hl Hin m Hm x Hx.
  destruct v as [| | | |m0| |]; simpl in Hx; try contradiction.
  assert (Hown : owns heap l m0) by (exists c; auto).
  apply in_app_iff in Hm. destruct Hm as [Hm | [<- | []]].
  - apply (Habove m Hm). simpl. eapply reaches_step; eauto.
  - exists m0. auto.
Qed.

(** Without replacer, the error of cycles is thrown only when a
    container that is reachable from itself is reachable from the value. *)
Lemma stringifyValue_throws_on_cycles_only :
  forall fuel key v depth st,
    above heap (stack st) v ->
    sat (stringifyValue heap None indent fuel key v depth st)
        (fun _ st' => stack st' = stack st)
        (fun e => e = TypeError_cyclic_object_value -> cyclic heap v)
        True.
Proof.
  induction fuel as [|fuel IH]; intros key v depth st Habove; [exact I |].
  cbn [stringifyValue applyReplacer]. unfold bind at 1, ret at 1.
  destruct v as [|b|n|s|l| |]; try reflexivity.
  unfold bind at 1, get at 1.
  destruct (includes l (stack st)) eqn:Hinc.
  - cbn. intros _. apply includes_true in Hinc.
    destruct (Habove l Hinc l (reaches_here heap l)) as (m' & Hown & Hback).
    exists l. split; [apply reaches_here | exists m'; auto].
  - destruct (nth_error heap l) as [c|] eqn:Hl; [| cbn; discriminate].
    assert (Hchild : forall k v' d s1,
               In v' (children c) -> stack s1 = stack st ++ [l] ->
               sat (stringifyValue heap None indent fuel k v' d s1)
                   (fun _ s2 => stack s2 = stack st ++ [l])
                   (fun e => e = TypeError_cyclic_object_value -> cyclic heap (JRef l))
                   True).
    { intros k v' d s1 Hin Hs1.
      eapply sat_weaken; [apply IH; rewrite Hs1; eapply above_child; eauto | | | auto].
      - intros r s2 Hs2. cbn beta in Hs2. congruence.
      - intros e He Hcyc. destruct (He Hcyc) as (x & Hx & Hon).
        exists x. split; [| exact Hon].
        destruct v' as [| | | |m0| |]; simpl in Hx; try contradiction.
        simpl. eapply reaches_step; [exists c; eauto | exact Hx]. }
    destruct c as [items | entries].
    + unfold stringifyArray. apply sat_bind. cbn [push sat].
      apply sat_bind.
      eapply sat_post;
        [apply (@sat_mapM _ _ _ _ (fun s => stack s = stack st ++ [l]) (fun _ => True));
         [reflexivity |] |].
      * intros [item|] s1 Hin Hs1.
        -- apply sat_bind. eapply sat_post; [apply Hchild; [| exact Hs1] |].
           ++ simpl. apply in_flat_map. exists (Some item).
              split; [exact Hin | left; reflexivity].
           ++ intros r s2 Hs2. cbn. auto.
        -- cbn. auto.
      * intros pieces s2 [Hs2 _]. cbn. rewrite Hs2. apply removelast_last.
    + unfold stringifyObject. apply sat_bind. cbn [push sat].
      apply sat_bind.
      eapply sat_post;
        [apply (@sat_filterM _ _ _ (fun s => stack s = stack st ++ [l]) (fun _ => True));
         [reflexivity |] |].
      * intros entry s1 Hin Hs1.
        apply sat_bind. eapply sat_post; [apply Hchild; [| exact Hs1] |].
        -- simpl. apply in_map. exact Hin.
        -- intros r s2 Hs2. cbn. auto.
      * intros kept s2 (Hs2 & _ & Hincl). cbn beta.
        apply sat_bind.
        eapply sat_post;
          [apply (@sat_mapM _ _ _ _ (fun s => stack s = stack st ++ [l]) (fun _ => True));
           [exact Hs2 |] |].
        -- intros entry s3 Hin Hs3.
           apply sat_bind. eapply sat_post; [apply Hchild; [| exact Hs3] |].
           ++ simpl. apply in_map. apply Hincl. exact Hin.
           ++ intros r s4 Hs4. cbn. auto.
        -- intros pieces s3 [Hs3 _]. cbn. rewrite Hs3. apply removelast_last.
Qed.

End Stack.

(** X11. The stack of the containers being visited is left as it was found
    by every visit that returns, with or without replacer, so that a
    call of [myStringify] that returns ends with the stack empty. *)
Theorem stack_is_restored {NI : NumberImpl}
        (heap : store) (replacer : option replacer_fn)
        (indent : jsstring) (fuel : nat) (key : jsstring) (v : jsval) (depth : nat)
        (st st' : sstate) (r : option jsstring) :
  stringifyValue heap replacer indent fuel key v depth st = Return (r, st') ->
  stack st' = stack st.
Proof.
  intros H.
  pose proof (stringifyValue_keeps_stack heap indent replacer fuel key v depth st) as Hsat.
  rewrite H in Hsat. exact Hsat.
Qed.

Lemma balanced_stack_witness :
  let heap := [CArray [Some (JRef 1); Some (num 2)]; CObject [(lit "a", JRef 2)]; CArray []] in
  let st := {| stack := [7]; calls := [] |} in
  exists st',
    stringifyValue heap (Some (fun _ _ v => v)) [] 4 [] (JRef 0) 0 st
    = Return (Some (qlit "[{'a':[]},2]"), st')
    /\ stack st' = [7].
Proof.
  intros heap st. eexists.
  assert (H : stringifyValue heap (Some (fun _ _ v => v)) [] 4 [] (JRef 0) 0 st
              = Return (Some (qlit "[{'a':[]},2]"),
                        {| stack := [7];
                           calls := [([], JRef 0); ([], JRef 1); (lit "a", JRef 2);
                                     (lit "a", JRef 2); ([], num 2)] |})) by reflexivity.
  split; [exact H |].
  exact (@stack_is_restored IntegerNumbers heap (Some (fun _ _ v => v)) [] 4 [] (JRef 0) 0
                            st _ _ H).
Defined.

(** X12. On a closed store and with fuel for its containers, [myStringify]
    without replacer throws the error of cycles exactly when a container
    that is reachable from itself is reachable from the value, and
    returns exactly when there is none: a container met twice on
    different paths is not taken for a cycle. *)
Theorem cycle_error_exactly_on_cycles {NI : NumberImpl}
        (heap : store) (v : jsval) (space : space_arg) (fuel : nat) :
  closed heap = true ->
  inStore heap v = true ->
  length heap + 1 <= fuel ->
  (myStringify fuel heap v None space = Throw TypeError_cyclic_object_value
   <-> cyclic heap v)
  /\ ((exists r, myStringify fuel heap v None space = Return r) <-> ~ cyclic heap v).
Proof.
  intros Hclosed Hin Hfuel.
  pose proof (@stringifyValue_visit NI heap (indentOf space) Hclosed
                fuel [] v 0 initial Hin (NoDup_nil _)
                ltac:(intros l []) ltac:(simpl; lia)) as Hvisit.
  pose proof (@stringifyValue_throws_on_cycles_only NI heap (indentOf space)
                fuel [] v 0 initial ltac:(intros m [])) as Honly.
  unfold myStringify, runStringify.
  destruct (stringifyValue heap None (indentOf space) fuel [] v 0 initial)
    as [[r st']| e |]; cbn [sat] in Hvisit, Honly.
  - destruct Hvisit as [_ [_ Hno]]. split; split.
    + discriminate.
    + intros Hcyc. contradiction.
    + intros _. exact Hno.
    + intros _. exists r. reflexivity.
  - subst e. split; split.
    + intros _. apply Honly. reflexivity.
    + reflexivity.
    + intros [r Hr]. discriminate.
    + intros Hno. exfalso. apply Hno, Honly. reflexivity.
  - contradiction.
Qed.

Lemma shared_container_witness :
  let heap := [CArray [Some (JRef 1); Some (JRef 1)]; CObject [(lit "a", num 1)]] in
  myStringify 3 heap (JRef 0) None SpaceOther = Return (Some (qlit "[{'a':1},{'a':1}]"))
  /\ ~ cyclic heap (JRef 0).
Proof.
  intros heap.
  assert (H : myStringify 3 heap (JRef 0) None SpaceOther
              = Return (Some (qlit "[{'a':1},{'a':1}]"))) by reflexivity.
  split; [exact H |].
  apply (proj2 (@cycle_error_exactly_on_cycles IntegerNumbers heap (JRef 0) SpaceOther 3
                  eq_refl eq_refl ltac:(simpl; lia))).
  eexists. exact H.
Defined.

(** X13. [myStringify] returns [undefined] in place of a text exactly when
    the value, once the replacer has been applied to it under the empty
    key, is [undefined] or a function; a text is returned for every
    other value on which the call returns. *)
Theorem undefined_exactly_for_unsupported {NI : NumberImpl}
        (fuel : nat) (heap : store) (v : jsval)
        (replacer : option replacer_fn) (space : space_arg)
        (r : option jsstring) :
  myStringify fuel heap v replacer space = Return r ->
  (r = None <-> represented replacer [] [] v = false).
Proof.
  unfold myStringify, runStringify.
  destruct (stringifyValue heap replacer (indentOf space) fuel [] v 0 initial)
    as [[r' st']| |] eqn:H; try discriminate.
  intros Hr. injection Hr as ->.
  apply stringifyValue_represented in H. cbn [calls initial] in H. rewrite <- H.
  destruct r; simpl; split; congruence.
Qed.

Lemma hidden_value_witness :
  let hide := fun (history : list (jsstring * @jsval IntegerNumbers))
                   (key : jsstring) (v : @jsval IntegerNumbers) =>
                match v with JString _ => JUndefined | _ => v end in
  myStringify 1 [] (JString (lit "secret")) (Some hide) SpaceOther = Return None
  /\ represented (Some hide) [] [] (JString (lit "secret")) = false.
Proof.
  intros hide.
  assert (H : myStringify 1 [] (JString (lit "secret")) (Some hide) SpaceOther = Return None)
    by reflexivity.
  split; [exact H |].
  exact (proj1 (@undefined_exactly_for_unsupported IntegerNumbers 1 []
                  (JString (lit "secret")) (Some hide) SpaceOther None H) eq_refl).
Defined.

(* ================================================================== *)
(** ** The keys of parsed objects *)

Lemma jsstring_eqb_refl (a : jsstring) : jsstring_eqb a a = true.
Proof.
  induction a as [|x a IH]; [reflexivity |]. simpl. rewrite N.eqb_refl. exact IH.
Qed.

Section ParsedKeys.
Context {NI : NumberImpl}.

Lemma obj_get_None (key : jsstring) (entries : list (jsstring * value)) :
  obj_get key entries = None -> ~ In key (map fst entries).
Proof.
  induction entries as [|[k v] rest IH]; simpl; [tauto |].
  destruct (jsstring_eqb k key) eqn:Hk; [discriminate |].
  intros H [Heq | Hin]; [| exact (IH H Hin)].
  subst k. rewrite jsstring_eqb_refl in Hk. discriminate.
Qed.

Lemma obj_replace_keys (key : jsstring) (v : value) (entries : list (jsstring * value)) :
  map fst (obj_replace key v entries) = map fst entries.
Proof.
  induction entries as [|[k w] rest IH]; simpl; [reflexivity |].
  destruct (jsstring_eqb k key); simpl; [reflexivity | rewrite IH; reflexivity].
Qed.

Lemma obj_insert_keys (key : jsstring) (v : value) (entries : list (jsstring * value)) :
  exists before after,
    map fst entries = before ++ after
    /\ map fst (obj_insert key v entries) = before ++ key :: after.
Proof.
  induction entries as [|[k w] rest IH].
  - exists [], []. split; reflexivity.
  - destruct IH as (before & after & Hrest & Hins).
    cbn [obj_insert].
    destruct (arrayIndex key) as [n|]; [destruct (arrayIndex k) as [m|];
                                        [destruct (N.ltb n m) |] |].
    + exists [], (map fst ((k, w) :: rest)). split; reflexivity.
    + exists (k :: before), after. cbn [map fst app]. rewrite Hrest, Hins.
      split; reflexivity.
    + exists [], (map fst ((k, w) :: rest)). split; reflexivity.
    + exists (k :: before), after. cbn [map fst app]. rewrite Hrest, Hins.
      split; reflexivity.
Qed.

(** [result[key] = value] keeps the keys of [result] as they should be. *)
Lemma obj_set_keys (key : jsstring) (v : value) (obj : value) :
  (exists entries, obj = VObject entries)
  \/ (exists proto entries, obj = VObjectProto proto entries) ->
  properKeys obj ->
  ((exists entries, obj_set key v obj = VObject entries)
   \/ (exists proto entries, obj_set key v obj = VObjectProto proto entries))
  /\ properKeys (obj_set key v obj).
Proof.
  intros Hobj [Hnd Hno]. unfold obj_set.
  assert (Hwith : forall entries,
             ((exists e, withEntries obj entries = VObject e)
              \/ (exists proto e, withEntries obj entries = VObjectProto proto e))
             /\ entriesOf (withEntries obj entries) = entries
             /\ inheritsAccessor (withEntries obj entries) = inheritsAccessor obj).
  { intros entries.
    destruct Hobj as [(e & ->) | (proto & e & ->)]; cbn [withEntries entriesOf];
      (split; [eauto | split; reflexivity]). }
  destruct (obj_get key (entriesOf obj)) eqn:Hget.
  - destruct (Hwith (obj_replace key v (entriesOf obj))) as (Hshape & Hentries & Hacc).
    split; [exact Hshape |]. unfold properKeys.
    rewrite Hentries, Hacc, obj_replace_keys. auto.
  - apply obj_get_None in Hget.
    destruct (jsstring_eqb key (lit "__proto__") && inheritsAccessor obj) eqn:Hproto.
    + apply andb_prop in Hproto. destruct Hproto as [Hkey _].
      apply jsstring_eqb_eq in Hkey. subst key.
      assert (Hset : forall w, (w = obj \/ exists proto, w = VObjectProto proto (entriesOf obj)) ->
                               ((exists e, w = VObject e)
                                \/ (exists proto e, w = VObjectProto proto e))
                               /\ properKeys w).
      { intros w [-> | (proto & ->)].
        - split; [exact Hobj | split; assumption].
        - split; [right; eauto |]. split; cbn [entriesOf]; [exact Hnd |].
          intros Hin. contradiction. }
      apply Hset. unfold setPrototype.
      destruct v; eauto.
    + destruct (Hwith (obj_insert key v (entriesOf obj))) as (Hshape & Hentries & Hacc).
      split; [exact Hshape |]. unfold properKeys. rewrite Hentries, Hacc.
      destruct (obj_insert_keys key v (entriesOf obj)) as (before & after & Hkeys & Hins).
      rewrite Hins. rewrite Hkeys in Hnd, Hno, Hget. split.
      * apply (NoDup_Add (Add_app key before after)). split; assumption.
      * intros Hin. apply in_app_iff in Hin. destruct Hin as [Hin | [Heq | Hin]].
        -- apply Hno, in_app_iff. auto.
        -- subst key. rewrite jsstring_eqb_refl in Hproto. cbn [andb] in Hproto.
           exact Hproto.
        -- apply Hno, in_app_iff. auto.
Qed.

Lemma parseObjectLoop_keys (json : jsstring) (pv : M pstate value) fuel :
  forall n result s res s1,
    parseObjectLoop json pv fuel n result s = Return (res, s1) ->
    (exists entries, result = VObject entries)
    \/ (exists proto entries, result = VObjectProto proto entries) ->
    properKeys result ->
    ((exists entries, res = VObject entries)
     \/ (exists proto entries, res = VObjectProto proto entries))
    /\ properKeys res.
Proof.
  induction n as [|n IH]; intros result s res s1 H Hobj Hres; [discriminate |].
  cbn [parseObjectLoop] in H.
  apply bind_Return_inv in H. destruct H as ([] & sa & _ & H).
  apply bind_Return_inv in H. destruct H as (key & sb & _ & H).
  apply bind_Return_inv in H. destruct H as ([] & sc & _ & H).
  rewrite peek_bind in H.
  destruct (negb (charIs (ch ":") (charAt json (index sc)))); [discriminate |].
  rewrite advance_bind in H.
  apply bind_Return_inv in H. destruct H as ([] & sd & _ & H).
  apply bind_Return_inv in H. destruct H as (v & se & _ & H).
  apply bind_Return_inv in H. destruct H as ([] & sf & _ & H).
  rewrite peek_bind in H.
  pose proof (@obj_set_keys key v result Hobj Hres) as Hset.
  destruct (charIs (ch "}") (charAt json (index sf))).
  - rewrite advance_bind in H. unfold ret in H. injection H as <- _. exact Hset.
  - destruct (negb (charIs (ch ",") (charAt json (index sf)))); [discriminate |].
    rewrite advance_bind in H. destruct Hset as [Hshape Hkeys]. eapply IH; eauto.
Qed.

End ParsedKeys.

(** X14. An object that [parseValue] returns when there is no reviver has no
    key twice: a key that comes again in the text overwrites the entry
    it has. The key [__proto__] is among its own keys only when its
    prototype does not lead to the accessor of [Object.prototype], which
    takes the assignment and makes no entry; an object that has the
    prototype of object literals has no such key. After an entry
    [__proto__] with the value [null] the prototype is [null], and the
    next entry [__proto__] makes an own key. *)
Theorem parsed_object_keys {NI : NumberImpl}
        (json : jsstring) (fuel : nat) (s s1 : pstate) (v : value) :
  parseValue json None fuel s = Return (v, s1) ->
  NoDup (map fst (entriesOf v))
  /\ (In (lit "__proto__") (map fst (entriesOf v)) -> inheritsAccessor v = false)
  /\ (forall entries, v = VObject entries -> ~ In (lit "__proto__") (map fst entries)).
Proof.
  intros H.
  assert (Hkeys : properKeys v).
  { destruct fuel as [|fuel]; [discriminate |].
    cbn [parseValue] in H.
    apply bind_Return_inv in H. destruct H as ([] & sa & _ & H).
    rewrite peek_bind in H.
    destruct (charIs QUOTE (charAt json (index sa))).
    { apply bind_Return_inv in H. destruct H as (str & sb & _ & H).
      unfold ret in H. injection H as <- _. split; [constructor | intros []]. }
    destruct (charIs (ch "{") (charAt json (index sa))).
    { unfold parseObject in H. rewrite advance_bind in H.
      apply bind_Return_inv in H. destruct H as ([] & sb & _ & H).
      rewrite peek_bind in H.
      destruct (charIs (ch "}") (charAt json (index sb))).
      - rewrite advance_bind in H. unfold applyReviver, ret in H.
        injection H as <- _. split; [constructor | intros []].
      - apply bind_Return_inv in H. destruct H as (res & sc & Hloop & H).
        unfold applyReviver, ret in H. injection H as <- _.
        eapply parseObjectLoop_keys; [exact Hloop | left; eauto |].
        split; [constructor | intros []]. }
    destruct (charIs (ch "[") (charAt json (index sa))).
    { unfold parseArray in H. rewrite advance_bind in H.
      apply bind_Return_inv in H. destruct H as ([] & sb & _ & H).
      rewrite peek_bind in H.
      destruct (charIs (ch "]") (charAt json (index sb))).
      - rewrite advance_bind in H. unfold applyReviver, ret in H.
        injection H as <- _. split; [constructor | intros []].
      - apply bind_Return_inv in H. destruct H as (res & sc & _ & H).
        unfold applyReviver, ret in H. injection H as <- _.
        split; [constructor | intros []]. }
    assert (Hlit : forall l (w : value),
               properKeys w -> parseLiteral json l w sa = Return (v, s1) -> properKeys v).
    { intros l w Hw Hl. unfold parseLiteral, bind, get in Hl.
      destruct (jsstring_eqb _ _); [| discriminate].
      unfold advance, ret in Hl. injection Hl as <- _. exact Hw. }
    destruct (charIs (ch "t") (charAt json (index sa)));
      [eapply Hlit; [| exact H]; split; [constructor | intros []] |].
    destruct (charIs (ch "f") (charAt json (index sa)));
      [eapply Hlit; [| exact H]; split; [constructor | intros []] |].
    destruct (charIs (ch "n") (charAt json (index sa)));
      [eapply Hlit; [| exact H]; split; [constructor | intros []] |].
    destruct (charIs (ch "-") (charAt json (index sa)) || isDigit (charAt json (index sa)));
      [| discriminate].
    unfold parseNumber, bind, get in H.
    destruct (numberRegex _); [| discriminate].
    unfold advance, ret in H. injection H as <- _. split; [constructor | intros []]. }
  destruct Hkeys as [Hnd Hno].
  split; [exact Hnd | split; [exact Hno |]].
  intros entries -> Hin. specialize (Hno Hin). discriminate Hno.
Qed.

Lemma repeated_key_witness :
  @parseValue IntegerNumbers (qlit "{'a':1,'__proto__':null,'__proto__':2,'a':3}") None 12 start
  = Return (VObjectProto None [(lit "a", vnum 3); (lit "__proto__", vnum 2)],
            {| index := 44; reviverCalls := [] |})
  /\ NoDup [lit "a"; lit "__proto__"].
Proof.
  assert (H : @parseValue IntegerNumbers
                (qlit "{'a':1,'__proto__':null,'__proto__':2,'a':3}") None 12 start
              = Return (VObjectProto None [(lit "a", vnum 3); (lit "__proto__", vnum 2)],
                        {| index := 44; reviverCalls := [] |}))
    by reflexivity.
  split; [exact H |].
  exact (proj1 (@parsed_object_keys IntegerNumbers _ 12 start _ _ H)).
Defined.

(* ================================================================== *)
(** ** The round trip *)

Lemma Forall2_applied {A B} (F : A -> B -> Prop) (xs : list A) (ys : list B) :
  Forall2 (fun (Q : B -> Prop) y => Q y) (map F xs) ys <-> Forall2 F xs ys.
Proof.
  revert ys. induction xs as [|x xs IH]; intros ys; split; intros H.
  - inversion H; subst. constructor.
  - inversion H; subst. constructor.
  - cbn [map] in H. inversion H as [|? y ? ys' Hy Hrest]; subst.
    constructor; [exact Hy | apply IH; exact Hrest].
  - inversion H as [|? y ? ys' Hy Hrest]; subst.
    cbn [map]. constructor; [exact Hy | apply IH; exact Hrest].
Qed.

Lemma Forall_holds {A} (F : A -> Prop) (xs : list A) :
  Forall (fun Q : Prop => Q) (map F xs) <-> Forall F xs.
Proof.
  rewrite Forall_map. reflexivity.
Qed.

Lemma mapM_fixed {St A B} (f : A -> M St B) (s : St) (xs : list A) (ys : list B) :
  Forall2 (fun x y => f x s = Return (y, s)) xs ys ->
  mapM f xs s = Return (ys, s).
Proof.
  induction 1 as [|x y xs ys Hx _ IH]; [reflexivity |].
  cbn [mapM]. rewrite (bind_Return _ _ _ Hx). rewrite (bind_Return _ _ _ IH). reflexivity.
Qed.

Lemma filterM_keeps_all {St A} (p : A -> M St bool) (s : St) (xs : list A) :
  Forall (fun x => p x s = Return (true, s)) xs ->
  filterM p xs s = Return (xs, s).
Proof.
  induction 1 as [|x xs Hx _ IH]; [reflexivity |].
  cbn [filterM]. rewrite (bind_Return _ _ _ Hx). rewrite (bind_Return _ _ _ IH). reflexivity.
Qed.

Lemma includes_not_in (l : loc) (st : list loc) :
  ~ In l st -> includes l st = false.
Proof.
  intros H. destruct (includes l st) eqn:Hinc; [| reflexivity].
  contradiction H. apply includes_true. exact Hinc.
Qed.

Lemma list_max_In (n : nat) (l : list nat) : In n l -> n <= list_max l.
Proof.
  intros Hin. pose proof (proj1 (list_max_le l (list_max l)) (Nat.le_refl _)) as H.
  rewrite Forall_forall in H. apply H. exact Hin.
Qed.

Section TreesInTheStore.
Context {NI : NumberImpl}.
Variable heap : store.

Lemma represents_array slots jv :
  represents heap (VArray slots) jv <->
  exists l items,
    jv = JRef l /\ nth_error heap l = Some (CArray items) /\
    Forall2 (fun slot item => match slot, item with
                              | Some v, Some x => represents heap v x
                              | _, _ => False
                              end) slots items.
Proof.
  cbn [represents]. split; intros (l & items & Hjv & Hl & Hall);
    exists l, items; (split; [exact Hjv | split; [exact Hl |]]);
    apply Forall2_applied; exact Hall.
Qed.

Lemma represents_object entries jv :
  represents heap (VObject entries) jv <->
  exists l own,
    jv = JRef l /\ nth_error heap l = Some (CObject own) /\
    Forall2 (fun entry e => fst e = fst entry /\ represents heap (snd entry) (snd e))
            entries own.
Proof.
  cbn [represents]. split; intros (l & own & Hjv & Hl & Hall);
    exists l, own; (split; [exact Hjv | split; [exact Hl |]]).
  - apply (proj1 (Forall2_applied _ _ _)) in Hall.
    eapply Forall2_impl; [| exact Hall]. intros [k v] e H. exact H.
  - apply (proj2 (Forall2_applied _ _ _)).
    eapply Forall2_impl; [| exact Hall]. intros [k v] e H. exact H.
Qed.

Lemma height_slot slots v : In (Some v) slots -> height v < height (VArray slots).
Proof.
  intros Hin. cbn [height]. apply Nat.lt_succ_r. apply list_max_In.
  apply in_map_iff. exists (Some v). split; [reflexivity | exact Hin].
Qed.

Lemma height_entry entries k v : In (k, v) entries -> height v < height (VObject entries).
Proof.
  intros Hin. cbn [height]. apply Nat.lt_succ_r. apply list_max_In.
  apply in_map_iff. exists (k, v). split; [reflexivity | exact Hin].
Qed.

(** What a container of the store holds is a tree below the tree of
    the container. *)
Lemma represents_child tv m m1 :
  represents heap tv (JRef m) ->
  owns heap m m1 ->
  exists tv1, height tv1 < height tv /\ represents heap tv1 (JRef m1)
              /\ ((exists slots, tv = VArray slots /\ In (Some tv1) slots)
                  \/ (exists entries k, tv = VObject entries /\ In (k, tv1) entries)).
Proof.
  intros Hrep (c & Hc & Hin).
  destruct tv as [ | b | n | s | slots | entries | proto entries | ];
    try discriminate Hrep; try contradiction.
  - apply represents_array in Hrep. destruct Hrep as (l & items & Hjv & Hl & Hall).
    injection Hjv as <-. rewrite Hl in Hc. injection Hc as <-.
    cbn [children] in Hin. apply in_flat_map in Hin.
    destruct Hin as ([x|] & Hx & Hin); [| contradiction].
    destruct Hin as [-> | []].
    clear Hl. induction Hall as [|slot item slots items Hslot Hrest IH].
    + destruct Hx.
    + destruct Hx as [-> | Hx].
      * destruct slot as [v|]; [| contradiction].
        exists v. split; [apply height_slot; left; reflexivity |].
        split; [exact Hslot | left; exists (Some v :: slots); split; [reflexivity | left; reflexivity]].
      * destruct (IH Hx) as (tv1 & _ & Hrep1 & Hwhere).
        destruct Hwhere as [(slots' & Heq & Hin') | (e & k & Heq & _)]; [| discriminate].
        injection Heq as <-.
        exists tv1. split; [apply height_slot; right; exact Hin' |].
        split; [exact Hrep1 | left; exists (slot :: slots); split; [reflexivity | right; exact Hin']].
  - apply represents_object in Hrep. destruct Hrep as (l & own & Hjv & Hl & Hall).
    injection Hjv as <-. rewrite Hl in Hc. injection Hc as <-.
    cbn [children] in Hin. apply in_map_iff in Hin.
    destruct Hin as (e & He & Hin).
    clear Hl. induction Hall as [|entry e0 entries own [Hkey Hentry] Hrest IH].
    + destruct Hin.
    + destruct Hin as [-> | Hin].
      * destruct entry as [k v]. cbn [snd] in Hentry. rewrite He in Hentry.
        exists v. split; [apply height_entry with (k := k); left; reflexivity |].
        split; [exact Hentry |].
        right. exists ((k, v) :: entries), k. split; [reflexivity | left; reflexivity].
      * destruct (IH Hin) as (tv1 & _ & Hrep1 & Hwhere).
        destruct Hwhere as [(slots' & Heq & _) | (e' & k & Heq & Hin')]; [discriminate |].
        injection Heq as <-.
        exists tv1. split; [apply height_entry with (k := k); right; exact Hin' |].
        split; [exact Hrep1 |].
        right. exists (entry :: entries), k. split; [reflexivity | right; exact Hin'].
Qed.

(** A container that is a tree reaches no container that is reachable
    from itself. *)
Lemma represents_no_cycle :
  forall n tv m x,
    height tv <= n ->
    represents heap tv (JRef m) ->
    reaches heap m x ->
    onCycle heap x ->
    False.
Proof.
  induction n as [|n IH]; intros tv m x Hn Hrep Hreach Hcycle.
  - destruct tv; cbn [height] in Hn; lia.
  - assert (Hnext : exists m1, owns heap m m1 /\ reaches heap m1 x).
    { inversion Hreach as [|? m1 ? Hown Hrest]; subst.
      - destruct Hcycle as (m1 & Hown & Hback). exists m1. auto.
      - exists m1. auto. }
    destruct Hnext as (m1 & Hown & Hrest).
    destruct (represents_child _ Hrep Hown) as (tv1 & Hlt & Hrep1 & _).
    apply (IH tv1 m1 x); [lia | exact Hrep1 | exact Hrest | exact Hcycle].
Qed.

End TreesInTheStore.

Section StringifyTrees.
Context {NI : NumberImpl}.
Variable heap : store.
Variable indent : jsstring.

(** While a container that is a tree is visited, nothing reachable from
    what it holds is on the stack. *)
Lemma child_is_free tv l c x (stk : list loc) :
  represents heap tv (JRef l) ->
  nth_error heap l = Some c ->
  In x (children c) ->
  (forall l', reachable heap (JRef l) l' -> ~ In l' stk) ->
  forall l', reachable heap x l' -> ~ In l' (stk ++ [l]).
Proof.
  intros Hrep Hl Hin Hfree l' Hreach Hstk.
  destruct x as [| | | |m0| |]; simpl in Hreach; try contradiction.
  assert (Hown : owns heap l m0) by (exists c; auto).
  apply in_app_iff in Hstk. destruct Hstk as [Hstk | [<- | []]].
  - apply (Hfree l'); [| exact Hstk]. simpl. eapply reaches_step; eauto.
  - apply (@represents_no_cycle NI heap (height tv) tv l l (Nat.le_refl _) Hrep).
    + apply reaches_here.
    + exists m0. auto.
Qed.

(** Without replacer and with fuel for its nesting, the visit of a value
    that is a tree returns the text of the tree and leaves the state as
    it found it, provided that nothing reachable from the value is being
    visited. *)
Lemma stringifyValue_render :
  forall fuel tv jv key depth st,
    represents heap tv jv ->
    height tv <= fuel ->
    (forall l, reachable heap jv l -> ~ In l (stack st)) ->
    stringifyValue heap None indent fuel key jv depth st
    = Return (Some (render indent depth tv), st).
Proof.
  induction fuel as [|fuel IH]; intros tv jv key depth st Hrep Hfuel Hfree.
  { destruct tv; cbn [height] in Hfuel; lia. }
  destruct tv as [ | b | n | s | slots | entries | proto entries | ];
    try (cbn [represents] in Hrep; subst jv; reflexivity);
    [| | contradiction | contradiction].
  - pose proof Hrep as Hrep0.
    apply represents_array in Hrep. destruct Hrep as (l & items & -> & Hl & Hall).
    cbn [stringifyValue applyReplacer]. unfold bind at 1, ret at 1.
    unfold bind at 1, get at 1.
    assert (Hnot : ~ In l (stack st)) by (apply Hfree; apply reaches_here).
    rewrite (@includes_not_in l (stack st) Hnot), Hl.
    unfold stringifyArray. unfold bind at 1, push at 1.
    set (st1 := {| stack := stack st ++ [l]; calls := calls st |}).
    set (txt := fun slot : option value =>
                  match slot with Some x => render indent (depth + 1) x | None => [] end).
    assert (Hchildren : forall x, In (Some x) items ->
                                  forall l', reachable heap x l' -> ~ In l' (stack st1)).
    { intros x Hx.
      apply (@child_is_free (VArray slots) l (CArray items) x (stack st) Hrep0 Hl);
        [| exact Hfree].
      cbn [children]. apply in_flat_map. exists (Some x). split; [exact Hx | left; reflexivity]. }
    assert (Hheights : forall v, In (Some v) slots -> height v <= fuel).
    { intros v Hv. pose proof (height_slot _ _ Hv). lia. }
    assert (Hmap : Forall2
                     (fun (slot : option jsval) (y : option jsstring) =>
                        match slot with
                        | Some item =>
                            r <- stringifyValue heap None indent fuel [] item (depth + 1) ;;
                            ret (Some (nullish r (lit "null")))
                        | None => ret None
                        end st1 = Return (y, st1))
                     items (map (fun slot => Some (txt slot)) slots)).
    { clear Hl Hrep0 Hfuel. revert Hchildren Hheights.
      induction Hall as [|slot item slots items Hslot _ IHall]; intros Hchildren Hheights.
      - constructor.
      - cbn [map]. constructor.
        + destruct slot as [v|]; [| contradiction].
          destruct item as [x|]; [| contradiction].
          rewrite (bind_Return _ _ _ (IH v x [] (depth + 1) st1 Hslot
                                         (Hheights v (or_introl eq_refl))
                                         (Hchildren x (or_introl eq_refl)))).
          reflexivity.
        + apply IHall.
          * intros x Hx. apply Hchildren. right. exact Hx.
          * intros v Hv. apply Hheights. right. exact Hv. }
    rewrite (bind_Return _ _ _ (mapM_fixed _ Hmap)).
    unfold bind, pop, ret. cbn [stack calls st1].
    rewrite removelast_last. destruct st as [stk cs]. cbn [stack calls].
    cbn [render]. rewrite map_map. reflexivity.
  - pose proof Hrep as Hrep0.
    apply represents_object in Hrep. destruct Hrep as (l & own & -> & Hl & Hall).
    cbn [stringifyValue applyReplacer]. unfold bind at 1, ret at 1.
    unfold bind at 1, get at 1.
    assert (Hnot : ~ In l (stack st)) by (apply Hfree; apply reaches_here).
    rewrite (@includes_not_in l (stack st) Hnot), Hl.
    unfold stringifyObject. unfold bind at 1, push at 1.
    set (st1 := {| stack := stack st ++ [l]; calls := calls st |}).
    assert (Hchildren : forall e, In e own ->
                                  forall l', reachable heap (snd e) l' -> ~ In l' (stack st1)).
    { intros e He.
      apply (@child_is_free (VObject entries) l (CObject own) (snd e) (stack st) Hrep0 Hl);
        [| exact Hfree].
      cbn [children]. apply in_map. exact He. }
    assert (Hheights : forall k v, In (k, v) entries -> height v <= fuel).
    { intros k v Hv. pose proof (height_entry _ _ _ Hv). lia. }
    assert (Hvisit : forall d,
               Forall2 (fun (entry : jsstring * value) (e : jsstring * jsval) =>
                          fst e = fst entry
                          /\ stringifyValue heap None indent fuel (fst e) (snd e) d st1
                             = Return (Some (render indent d (snd entry)), st1))
                       entries own).
    { intros d. clear Hl Hrep0 Hfuel. revert Hchildren Hheights.
      induction Hall as [|entry e entries own [Hkey Hentry] _ IHall];
        intros Hchildren Hheights.
      - constructor.
      - constructor.
        + split; [exact Hkey |]. destruct entry as [k v].
          apply IH; [exact Hentry | apply (Hheights k v); left; reflexivity
                     | apply Hchildren; left; reflexivity].
        + apply IHall.
          * intros e' He'. apply Hchildren. right. exact He'.
          * intros k' v' Hv'. apply (Hheights k' v'). right. exact Hv'. }
    assert (Hfilter : filterM (fun entry : jsstring * jsval =>
                                 r <- stringifyValue heap None indent fuel
                                                     (fst entry) (snd entry) depth ;;
                                 ret (isSome r)) own st1
                      = Return (own, st1)).
    { apply filterM_keeps_all.
      pose proof (Hvisit depth) as Hv. clear - Hv.
      induction Hv as [|entry e entries own [_ Hrun] _ IHv]; constructor.
      - rewrite (bind_Return _ _ _ Hrun). reflexivity.
      - exact IHv. }
    rewrite (bind_Return _ _ _ Hfilter).
    set (piece := fun entry : jsstring * value =>
                    (if truthy indent then repeatString indent (depth + 1) else [])
                    ++ [QUOTE] ++ fst entry ++ [QUOTE] ++ lit ":"
                    ++ (if truthy indent then lit " " else [])
                    ++ render indent (depth + 1) (snd entry)).
    assert (Hmap : Forall2
                     (fun (e : jsstring * jsval) (y : jsstring) =>
                        (r <- stringifyValue heap None indent fuel (fst e) (snd e) (depth + 1) ;;
                         ret ((if truthy indent then repeatString indent (depth + 1) else [])
                              ++ [QUOTE] ++ fst e ++ [QUOTE] ++ lit ":"
                              ++ (if truthy indent then lit " " else [])
                              ++ template r)) st1 = Return (y, st1))
                     own (map piece entries)).
    { pose proof (Hvisit (depth + 1)) as Hv. clear - Hv.
      induction Hv as [|entry e entries own [Hkey Hrun] _ IHv]; cbn [map]; constructor.
      - rewrite (bind_Return _ _ _ Hrun). unfold piece. rewrite Hkey. reflexivity.
      - exact IHv. }
    rewrite (bind_Return _ _ _ (mapM_fixed _ Hmap)).
    unfold bind, pop, ret. cbn [stack calls st1].
    rewrite removelast_last. destruct st as [stk cs]. cbn [stack calls].
    cbn [render].
    replace (map piece entries)
      with (map (fun entry : jsstring * value =>
                   let (k, x) := entry in
                   (if truthy indent then repeatString indent (depth + 1) else [])
                   ++ [QUOTE] ++ k ++ [QUOTE] ++ lit ":"
                   ++ (if truthy indent then lit " " else [])
                   ++ render indent (depth + 1) x) entries)
      by (apply map_ext; intros [k x]; reflexivity).
    reflexivity.
Qed.

End StringifyTrees.

(** Two texts that are one up to the nesting of their pieces. *)
Ltac text_eq := repeat (progress cbn [app] || rewrite <- app_assoc); reflexivity.

(** An equation between lengths of texts. *)
Ltac length_eq :=
  repeat (progress cbn [length app] || rewrite length_app);
  unfold jsstring, codeunit in *; lia.

Section Consuming.
Context {NI : NumberImpl}.

Lemma consumes_bind {A B} (p : jsstring -> M pstate A) (k : A -> jsstring -> M pstate B)
      (b1 b2 : jsstring) (a : A) (b : B) (ok1 ok : jsstring -> Prop) :
  consumes p b1 a ok1 ->
  (forall post, ok post -> ok1 (b2 ++ post)) ->
  consumes (k a) b2 b ok ->
  consumes (fun json => bind (p json) (fun x => k x json)) (b1 ++ b2) b ok.
Proof.
  intros Hp Hok Hk pre post calls Hpost.
  rewrite <- app_assoc.
  rewrite (bind_Return _ _ _ (Hp pre (b2 ++ post) calls (Hok _ Hpost))).
  pose proof (Hk (pre ++ b1) post calls Hpost) as H.
  rewrite <- app_assoc in H. rewrite length_app in H. cbv beta. rewrite H.
  rewrite length_app, Nat.add_assoc. reflexivity.
Qed.

Lemma consumes_ret {A} (a : A) (ok : jsstring -> Prop) :
  consumes (fun _ => ret a) [] a ok.
Proof.
  intros pre post calls _. unfold ret. cbn [length]. rewrite Nat.add_0_r. reflexivity.
Qed.

Lemma consumes_body {A} (p : jsstring -> M pstate A) (body body' : jsstring) (a : A)
      (ok : jsstring -> Prop) :
  body = body' -> consumes p body' a ok -> consumes p body a ok.
Proof. intros ->. auto. Qed.

Lemma consumes_same {A} (p q : jsstring -> M pstate A) (body : jsstring) (a : A)
      (ok : jsstring -> Prop) :
  (forall json s, p json s = q json s) -> consumes q body a ok -> consumes p body a ok.
Proof. intros Hpq Hq pre post calls Hpost. rewrite Hpq. apply Hq. exact Hpost. Qed.

Lemma consumes_after {A} (p : jsstring -> M pstate A) (body : jsstring) (a : A)
      (ok ok' : jsstring -> Prop) :
  (forall post, ok' post -> ok post) -> consumes p body a ok -> consumes p body a ok'.
Proof. intros Hok Hp pre post calls Hpost. apply Hp. apply Hok. exact Hpost. Qed.

Lemma nth_error_middle {A} (pre body post : list A) (p : nat) :
  nth_error (pre ++ body ++ post) (length pre + p) = nth_error (body ++ post) p.
Proof.
  rewrite nth_error_app2 by lia. f_equal. lia.
Qed.

Lemma consumes_skip (w : jsstring) :
  forallb whitespace w = true ->
  consumes (@skipWhitespace NI) w tt afterSpace.
Proof.
  intros Hw pre post calls Hpost.
  apply (@skips_run NI (pre ++ w ++ post) {| index := length pre; reviverCalls := calls |}).
  cbn [index]. split; [lia | split].
  - intros p Hp. replace p with (length pre + (p - length pre)) by lia.
    rewrite nth_error_middle. rewrite nth_error_app1 by lia.
    destruct (nth_error w (p - length pre)) as [c|] eqn:Hc.
    + simpl. eapply forallb_nth_error; eauto.
    + apply nth_error_None in Hc. lia.
  - rewrite nth_error_middle. rewrite nth_error_app2 by lia.
    rewrite Nat.sub_diag. exact Hpost.
Qed.

Lemma consumes_peek {B} (k : option codeunit -> jsstring -> M pstate B)
      (c : codeunit) (body : jsstring) (b : B) (ok : jsstring -> Prop) :
  nth_error body 0 = Some c ->
  consumes (k (Some c)) body b ok ->
  consumes (fun json => bind (peek json) (fun x => k x json)) body b ok.
Proof.
  intros Hc Hk pre post calls Hpost. rewrite peek_bind. cbn [index].
  unfold charAt. rewrite <- (Nat.add_0_r (length pre)) at 1.
  rewrite nth_error_middle. 
  destruct body as [|c' body']; [discriminate |]. cbn [app nth_error] in *.
  injection Hc as ->. apply Hk. exact Hpost.
Qed.

Lemma consumes_advance (c : codeunit) (ok : jsstring -> Prop) :
  consumes (fun _ : jsstring => @advance NI 1) [c] tt ok.
Proof. intros pre post calls _. reflexivity. Qed.

(** The loop of [parseString] on characters that are neither quote nor
    backslash. *)
Lemma parseStringLoop_plain :
  forall key pre rest result fuel calls,
    forallb (fun c => negb (N.eqb c QUOTE || N.eqb c BACKSLASH)) key = true ->
    length key < fuel ->
    parseStringLoop (pre ++ key ++ QUOTE :: rest) fuel result
                    {| index := length pre; reviverCalls := calls |}
    = Return (result ++ key,
              {| index := length pre + length key + 1; reviverCalls := calls |}).
Proof.
  induction key as [|c key IH]; intros pre rest result fuel calls Hkey Hfuel;
    (destruct fuel as [|fuel]; [simpl in Hfuel; lia |]).
  - cbn [parseStringLoop app].
    rewrite peek_bind. cbn [index]. unfold charAt.
    rewrite nth_error_after. cbn [charIs]. rewrite N.eqb_refl.
    rewrite advance_bind. unfold ret. cbn [index reviverCalls length].
    rewrite app_nil_r. do 3 f_equal. lia.
  - cbn [forallb] in Hkey. apply andb_prop in Hkey. destruct Hkey as [Hc Hkey].
    apply negb_true_iff in Hc. apply orb_false_elim in Hc. destruct Hc as [Hq Hb].
    cbn [parseStringLoop].
    rewrite peek_bind. cbn [index]. unfold charAt.
    change (pre ++ (c :: key) ++ QUOTE :: rest)
      with (pre ++ c :: (key ++ QUOTE :: rest)).
    rewrite nth_error_after. cbn [charIs]. rewrite Hq, Hb.
    rewrite append_bind.
    rewrite advance_bind. cbn [index reviverCalls].
    replace (pre ++ c :: key ++ QUOTE :: rest)
      with ((pre ++ [c]) ++ key ++ QUOTE :: rest)
      by (rewrite <- app_assoc; reflexivity).
    replace (length pre + 1) with (length (pre ++ [c]))
      by (rewrite length_app; reflexivity).
    rewrite IH by (try exact Hkey; simpl in Hfuel; lia).
    rewrite <- app_assoc. do 3 f_equal.
    rewrite !length_app. simpl. lia.
Qed.

Lemma consumes_key (key : jsstring) (fuel : nat) (ok : jsstring -> Prop) :
  forallb (fun c => negb (N.eqb c QUOTE || N.eqb c BACKSLASH)) key = true ->
  length key < fuel ->
  consumes (fun json => parseString json fuel) (QUOTE :: key ++ [QUOTE]) key ok.
Proof.
  intros Hkey Hfuel pre post calls _.
  unfold parseString. rewrite advance_bind. cbn [index reviverCalls].
  replace (pre ++ (QUOTE :: key ++ [QUOTE]) ++ post)
    with ((pre ++ [QUOTE]) ++ key ++ QUOTE :: post)
    by text_eq.
  replace (length pre + 1) with (length (pre ++ [QUOTE]))
    by (rewrite length_app; reflexivity).
  rewrite parseStringLoop_plain by assumption.
  cbn [app]. do 3 f_equal. length_eq.
Qed.

Lemma consumes_string (str : jsstring) (fuel : nat) (ok : jsstring -> Prop) :
  length str < fuel ->
  consumes (fun json => parseValue json None (S fuel))
           ([QUOTE] ++ escapeString str ++ [QUOTE]) (VString str) ok.
Proof.
  intros Hfuel pre post calls _.
  replace (pre ++ ([QUOTE] ++ escapeString str ++ [QUOTE]) ++ post)
    with (pre ++ QUOTE :: escapeString str ++ QUOTE :: post)
    by text_eq.
  rewrite parseValue_string by exact Hfuel.
  do 3 f_equal. length_eq.
Qed.

Lemma consumes_number (n : number) (fuel : nat) :
  numberRegex (numberToString n) = Some (length (numberToString n)) ->
  consumes (fun json => parseValue json None (S fuel))
           (numberToString n) (VNumber (stringToNumber (numberToString n))) afterValue.
Proof.
  intros Hre pre post calls Hpost. apply parseValue_number; assumption.
Qed.

Lemma consumes_literal (text : jsstring) (v : value) (fuel : nat) (ok : jsstring -> Prop) :
  (text = lit "true" /\ v = VBoolean true)
  \/ (text = lit "false" /\ v = VBoolean false)
  \/ (text = lit "null" /\ v = VNull) ->
  consumes (fun json => parseValue json None (S fuel)) text v ok.
Proof.
  intros Hcase pre post calls _.
  assert (Hslice : slice (pre ++ text ++ post) (length pre) (length text) = text).
  { unfold slice. rewrite skipn_app, skipn_all, Nat.sub_diag. cbn [app skipn].
    rewrite firstn_app, firstn_all, Nat.sub_diag. cbn [firstn]. apply app_nil_r. }
  assert (Hskip : forall c rest, text = c :: rest -> whitespace c = false ->
                  skipWhitespace (pre ++ text ++ post)
                                 {| index := length pre; reviverCalls := calls |}
                  = Return (tt, {| index := length pre; reviverCalls := calls |})).
  { intros c rest -> Hc. apply skipWhitespace_stays. cbn [index]. unfold charAt.
    change (pre ++ (c :: rest) ++ post) with (pre ++ c :: (rest ++ post)).
    rewrite nth_error_after. exact Hc. }
  assert (Hat : forall c rest, text = c :: rest ->
                charAt (pre ++ text ++ post) (length pre) = Some c).
  { intros c rest ->. unfold charAt.
    change (pre ++ (c :: rest) ++ post) with (pre ++ c :: (rest ++ post)).
    apply nth_error_after. }
  cbn [parseValue].
  destruct Hcase as [[-> ->] | [[-> ->] | [-> ->]]].
  - rewrite (bind_Return _ _ _ (Hskip _ _ eq_refl eq_refl)).
    rewrite peek_bind. cbn [index].
    assert (Hhead : charAt (pre ++ lit "true" ++ post) (length pre) = Some (ch "t"))
      by (apply (Hat _ _ eq_refl)).
    rewrite !Hhead.
    change (charIs QUOTE (Some (ch "t"))) with false.
    change (charIs (ch "{") (Some (ch "t"))) with false.
    change (charIs (ch "[") (Some (ch "t"))) with false.
    change (charIs (ch "t") (Some (ch "t"))) with true.
    cbv iota. unfold parseLiteral, bind, get. cbn [index]. rewrite Hslice.
    reflexivity.
  - rewrite (bind_Return _ _ _ (Hskip _ _ eq_refl eq_refl)).
    rewrite peek_bind. cbn [index].
    assert (Hhead : charAt (pre ++ lit "false" ++ post) (length pre) = Some (ch "f"))
      by (apply (Hat _ _ eq_refl)).
    rewrite !Hhead.
    change (charIs QUOTE (Some (ch "f"))) with false.
    change (charIs (ch "{") (Some (ch "f"))) with false.
    change (charIs (ch "[") (Some (ch "f"))) with false.
    change (charIs (ch "t") (Some (ch "f"))) with false.
    change (charIs (ch "f") (Some (ch "f"))) with true.
    cbv iota. unfold parseLiteral, bind, get. cbn [index]. rewrite Hslice.
    reflexivity.
  - rewrite (bind_Return _ _ _ (Hskip _ _ eq_refl eq_refl)).
    rewrite peek_bind. cbn [index].
    assert (Hhead : charAt (pre ++ lit "null" ++ post) (length pre) = Some (ch "n"))
      by (apply (Hat _ _ eq_refl)).
    rewrite !Hhead.
    change (charIs QUOTE (Some (ch "n"))) with false.
    change (charIs (ch "{") (Some (ch "n"))) with false.
    change (charIs (ch "[") (Some (ch "n"))) with false.
    change (charIs (ch "t") (Some (ch "n"))) with false.
    change (charIs (ch "f") (Some (ch "n"))) with false.
    change (charIs (ch "n") (Some (ch "n"))) with true.
    cbv iota. unfold parseLiteral, bind, get. cbn [index]. rewrite Hslice.
    reflexivity.
Qed.

(** Where [parseValue] finds an opening bracket or brace it goes on as
    [parseArray] or [parseObject]. *)
Lemma parseValue_at_bracket json reviver fuel s :
  charAt json (index s) = Some (ch "[") ->
  parseValue json reviver (S fuel) s
  = parseArray json reviver (parseValue json reviver fuel) fuel s.
Proof.
  intros Hat. cbn [parseValue].
  rewrite (bind_Return _ _ _ (skipWhitespace_stays json s
                                ltac:(rewrite Hat; reflexivity))).
  rewrite peek_bind, Hat. reflexivity.
Qed.

Lemma parseValue_at_brace json reviver fuel s :
  charAt json (index s) = Some (ch "{") ->
  parseValue json reviver (S fuel) s
  = parseObject json reviver (parseValue json reviver fuel) fuel s.
Proof.
  intros Hat. cbn [parseValue].
  rewrite (bind_Return _ _ _ (skipWhitespace_stays json s
                                ltac:(rewrite Hat; reflexivity))).
  rewrite peek_bind, Hat. reflexivity.
Qed.

End Consuming.

Ltac step first rest :=
  match goal with
  | |- consumes (fun json => bind (@?run json) (fun x => @?next json x)) _ _ _ =>
      apply consumes_body with (body' := first ++ rest);
      [ try text_eq
      | eapply consumes_bind with (p := run) (k := fun x json => next json x)
                                  (b1 := first) (b2 := rest) ]
  end.

(** *** Texts joined by a separator *)

Lemma join_cons (sep t : jsstring) (ts : list jsstring) :
  ts <> [] -> join sep (t :: ts) = t ++ sep ++ join sep ts.
Proof. destruct ts; [intros H; contradiction H; reflexivity | reflexivity]. Qed.

Lemma join_shift (a sep : jsstring) (ts : list jsstring) :
  ts <> [] -> join sep (map (fun t => a ++ t) ts) = a ++ join (sep ++ a) ts.
Proof.
  induction ts as [|t ts IH]; [intros H; contradiction H; reflexivity |]. intros _.
  destruct ts as [|t' ts]; [reflexivity |].
  cbn [map]. rewrite join_cons by discriminate.
  change (map (fun t0 => a ++ t0) (t' :: ts)) with (map (fun t0 => a ++ t0) (t' :: ts)) in IH.
  cbn [map] in IH. rewrite IH by discriminate.
  rewrite (@join_cons (sep ++ a) t (t' :: ts)) by discriminate.
  rewrite <- !app_assoc. reflexivity.
Qed.

Lemma join_length_item (sep t : jsstring) (ts : list jsstring) :
  In t ts -> length t <= length (join sep ts).
Proof.
  induction ts as [|t0 ts IH]; [intros [] |].
  destruct ts as [|t1 ts].
  - intros [-> | []]. cbn [join]. lia.
  - rewrite join_cons by discriminate. rewrite !length_app.
    intros [-> | Hin]; [lia |]. specialize (IH Hin). lia.
Qed.

Lemma join_length_count (sep : jsstring) (ts : list jsstring) :
  1 <= length sep -> length ts <= length (join sep ts) + 1.
Proof.
  intros Hsep. induction ts as [|t0 ts IH]; [cbn; lia |].
  destruct ts as [|t1 ts].
  - cbn. lia.
  - rewrite join_cons by discriminate. rewrite !length_app.
    cbn [length] in *. lia.
Qed.

(** *** The order of keys and assignment *)

Section KeysInOrder.
Context {NI : NumberImpl}.

Lemma ownKeyOrder_before (before : list jsstring) (k : jsstring) (after : list jsstring) :
  ownKeyOrder (before ++ k :: after) = true ->
  Forall (fun k' => precedes k' k = true) before.
Proof.
  induction before as [|k' before IH]; [constructor |].
  cbn [app ownKeyOrder]. intros H. apply andb_prop in H. destruct H as [Hall Hrest].
  constructor; [| apply IH; exact Hrest].
  rewrite forallb_app in Hall. apply andb_prop in Hall. destruct Hall as [_ Hall].
  cbn [forallb] in Hall. apply andb_prop in Hall. tauto.
Qed.

Lemma obj_set_appends (key : jsstring) (v : value) (entries : list (jsstring * value)) :
  Forall (fun k' => precedes k' key = true) (map fst entries) ->
  plainKey key = true ->
  obj_set key v (VObject entries) = VObject (entries ++ [(key, v)]).
Proof.
  intros Hbefore Hplain. unfold obj_set. cbn [entriesOf withEntries inheritsAccessor].
  assert (Hget : obj_get key entries = None).
  { induction entries as [|[k w] rest IH]; [reflexivity |].
    cbn [map fst] in Hbefore. inversion Hbefore as [|? ? Hk Hrest]; subst.
    cbn [obj_get]. unfold precedes in Hk. apply andb_prop in Hk. destruct Hk as [Hk _].
    apply negb_true_iff in Hk. rewrite Hk. apply IH. exact Hrest. }
  rewrite Hget.
  unfold plainKey in Hplain. apply andb_prop in Hplain. destruct Hplain as [Hproto _].
  apply negb_true_iff in Hproto. rewrite Hproto. cbn [andb]. f_equal.
  induction entries as [|[k w] rest IH]; [reflexivity |].
  cbn [map fst] in Hbefore. inversion Hbefore as [|? ? Hk Hrest]; subst.
  cbn [obj_insert app].
  unfold precedes in Hk. apply andb_prop in Hk. destruct Hk as [_ Hk].
  assert (Hrest' : obj_get key rest = None).
  { cbn [obj_get] in Hget. destruct (jsstring_eqb k key); [discriminate | exact Hget]. }
  destruct (arrayIndex key) as [n|]; [destruct (arrayIndex k) as [m|] |].
  - replace (N.ltb n m) with false
      by (symmetry; apply N.ltb_ge; apply N.ltb_lt in Hk; lia).
    rewrite (IH Hrest Hrest'). reflexivity.
  - discriminate.
  - rewrite (IH Hrest Hrest'). reflexivity.
Qed.

(** Set one after the other on an object, entries whose keys are plain
    and in the order of own keys are the entries of the object. *)
Lemma entries_rebuilt (entries done : list (jsstring * value)) :
  ownKeyOrder (map fst (done ++ entries)) = true ->
  forallb plainKey (map fst entries) = true ->
  fold_left (fun acc e => obj_set (fst e) (snd e) acc) entries (VObject done)
  = VObject (done ++ entries).
Proof.
  revert done. induction entries as [|[k v] rest IH]; intros done Horder Hplain.
  - cbn [fold_left]. rewrite app_nil_r. reflexivity.
  - cbn [fold_left fst snd]. cbn [map fst forallb] in Hplain.
    apply andb_prop in Hplain. destruct Hplain as [Hk Hrest].
    rewrite obj_set_appends; [| | exact Hk].
    + rewrite IH; [rewrite <- app_assoc; reflexivity | | exact Hrest].
      rewrite <- app_assoc. exact Horder.
    + rewrite map_app in Horder. cbn [map fst] in Horder.
      eapply ownKeyOrder_before. exact Horder.
Qed.

End KeysInOrder.

(** *** The text of a tree *)

Section RenderedText.
Context {NI : NumberImpl}.
Variable indent : jsstring.
Hypothesis indent_white : forallb whitespace indent = true.

Lemma repeatString_white (n : nat) : forallb whitespace (repeatString indent n) = true.
Proof.
  induction n as [|n IH]; [reflexivity |].
  cbn [repeatString]. rewrite forallb_app, indent_white, IH. reflexivity.
Qed.

Lemma lineBreak_white (level : nat) : forallb whitespace (lineBreak indent level) = true.
Proof.
  unfold lineBreak. destruct (truthy indent); [| reflexivity].
  cbn [app forallb]. rewrite repeatString_white. reflexivity.
Qed.

Lemma colonGap_white : forallb whitespace (colonGap indent) = true.
Proof. unfold colonGap. destruct (truthy indent); reflexivity. Qed.

Lemma render_array (depth : nat) (vs : list value) :
  render indent depth (VArray (map Some vs))
  = lit "[" ++ lineBreak indent (depth + 1)
    ++ join (lit "," ++ lineBreak indent (depth + 1)) (map (render indent (depth + 1)) vs)
    ++ lineBreak indent depth ++ lit "]".
Proof.
  cbn [render]. rewrite map_map. unfold lineBreak.
  destruct (truthy indent); [text_eq | rewrite app_nil_r; reflexivity].
Qed.

Lemma render_object (depth : nat) (entries : list (jsstring * value)) :
  entries <> [] ->
  render indent depth (VObject entries)
  = lit "{" ++ lineBreak indent (depth + 1)
    ++ join (lit "," ++ lineBreak indent (depth + 1)) (map (renderEntry indent depth) entries)
    ++ lineBreak indent depth ++ lit "}".
Proof.
  intros Hne. cbn [render]. unfold lineBreak, renderEntry, colonGap.
  destruct (truthy indent); cbv beta iota.
  - match goal with
    | |- _ ++ (_ ++ join _ (map ?F entries) ++ _) ++ _ = _ =>
        rewrite (map_ext F
                   (fun entry => repeatString indent (depth + 1)
                                 ++ ([QUOTE] ++ fst entry ++ [QUOTE] ++ lit ":" ++ lit " "
                                     ++ render indent (depth + 1) (snd entry))))
          by (intros [k x]; reflexivity)
    end.
    rewrite <- (map_map (fun entry : jsstring * value =>
                           [QUOTE] ++ fst entry ++ [QUOTE] ++ lit ":" ++ lit " "
                           ++ render indent (depth + 1) (snd entry))
                        (fun t => repeatString indent (depth + 1) ++ t)).
    rewrite join_shift
      by (destruct entries; [contradiction Hne; reflexivity | discriminate]).
    text_eq.
  - match goal with
    | |- _ ++ join _ (map ?F entries) ++ _ = _ =>
        rewrite (map_ext F
                   (fun entry => [QUOTE] ++ fst entry ++ [QUOTE] ++ lit ":" ++ []
                                 ++ render indent (depth + 1) (snd entry)))
          by (intros [k x]; reflexivity)
    end.
    rewrite app_nil_r. reflexivity.
Qed.

Lemma render_empty_object (depth : nat) :
  exists w, forallb whitespace w = true
            /\ render indent depth (VObject []) = lit "{" ++ w ++ lit "}".
Proof.
  cbn [render map join]. destruct (truthy indent).
  - exists ([LF] ++ [] ++ [LF] ++ repeatString indent depth). split; [| text_eq].
    cbn [app forallb]. rewrite repeatString_white. reflexivity.
  - exists []. split; reflexivity.
Qed.

Lemma portable_array (slots : list (option value)) :
  portable (VArray slots) ->
  exists vs, slots = map Some vs /\ Forall portable vs.
Proof.
  cbn [portable]. intros H. apply (proj1 (Forall_holds _ _)) in H.
  induction H as [|slot slots Hslot _ (vs & -> & Hvs)].
  - exists []. split; [reflexivity | constructor].
  - destruct slot as [v|]; [| contradiction].
    exists (v :: vs). split; [reflexivity | constructor; assumption].
Qed.

Lemma portable_object (entries : list (jsstring * value)) :
  portable (VObject entries) ->
  forallb plainKey (map fst entries) = true
  /\ ownKeyOrder (map fst entries) = true
  /\ Forall (fun entry => portable (snd entry)) entries.
Proof.
  cbn [portable]. intros (Hplain & Horder & H).
  split; [exact Hplain | split; [exact Horder |]].
  apply (proj1 (Forall_holds _ _)) in H.
  eapply Forall_impl; [| exact H]. intros [k x] Hx. exact Hx.
Qed.

(** The text of a portable tree begins with a character that is not
    white space and closes no container. *)
Lemma render_head (depth : nat) (v : value) :
  portable v ->
  exists c rest,
    render indent depth v = c :: rest
    /\ whitespace c = false
    /\ N.eqb c (ch "]") = false /\ N.eqb c (ch "}") = false.
Proof.
  destruct v as [ | [|] | n | s | slots | entries | proto entries | ]; cbn [portable];
    intros Hv;
    try contradiction.
  - exists (ch "n"), (lit "ull"). repeat split; reflexivity.
  - exists (ch "t"), (lit "rue"). repeat split; reflexivity.
  - exists (ch "f"), (lit "alse"). repeat split; reflexivity.
  - destruct Hv as (Hfin & Hre & _). cbn [render]. rewrite Hfin.
    destruct (numberRegex_head _ Hre) as (c & r & Htext & Hc).
    exists c, r. split; [exact Htext |].
    destruct Hc as [-> | Hd]; [repeat split; reflexivity |].
    destruct (digit_not_opener _ Hd) as (_ & _ & _ & _ & _ & _ & _ & Hws).
    unfold isDigitUnit in Hd. apply andb_prop in Hd. destruct Hd as [H1 H2].
    apply N.leb_le in H1. apply N.leb_le in H2.
    split; [exact Hws | split; apply N.eqb_neq; intros ->; cbv in H2; apply H2; reflexivity].
  - exists QUOTE, (escapeString s ++ [QUOTE]). repeat split; reflexivity.
  - eexists (ch "["), _. cbn [render]. split; [reflexivity |]. repeat split; reflexivity.
  - eexists (ch "{"), _. cbn [render]. split; [reflexivity |]. repeat split; reflexivity.
Qed.

Lemma render_array_length (depth : nat) (vs : list value) :
  length vs + 1 <= length (render indent depth (VArray (map Some vs)))
  /\ forall v, In v vs ->
               length (render indent (depth + 1) v) + 2
               <= length (render indent depth (VArray (map Some vs))).
Proof.
  rewrite render_array. split.
  - pose proof (@join_length_count (lit "," ++ lineBreak indent (depth + 1))
                                   (map (render indent (depth + 1)) vs)) as H.
    rewrite length_map in H. rewrite !length_app in *.
    change (length (lit ",")) with 1 in *. change (length (lit "[")) with 1.
    change (length (lit "]")) with 1.
    unfold jsstring, codeunit in *. lia.
  - intros v Hv.
    pose proof (@join_length_item (lit "," ++ lineBreak indent (depth + 1))
                                  (render indent (depth + 1) v)
                                  (map (render indent (depth + 1)) vs)
                                  (in_map _ _ _ Hv)) as H.
    rewrite !length_app. change (length (lit "[")) with 1.
    change (length (lit "]")) with 1.
    unfold jsstring, codeunit in *. lia.
Qed.

Lemma render_object_length (depth : nat) (entries : list (jsstring * value)) :
  length entries + 1 <= length (render indent depth (VObject entries))
  /\ forall k v, In (k, v) entries ->
                 length (render indent (depth + 1) v) + length k + 5
                 <= length (render indent depth (VObject entries)).
Proof.
  destruct entries as [|e0 entries0].
  { split; [| intros k v []].
    destruct (render_empty_object depth) as (w & _ & ->).
    rewrite !length_app. change (length (lit "{")) with 1. cbn [length]. lia. }
  rewrite render_object by discriminate. set (entries := e0 :: entries0). split.
  - pose proof (@join_length_count (lit "," ++ lineBreak indent (depth + 1))
                                   (map (renderEntry indent depth) entries)) as H.
    rewrite length_map in H. rewrite !length_app in *.
    change (length (lit ",")) with 1 in *. change (length (lit "{")) with 1.
    change (length (lit "}")) with 1.
    unfold jsstring, codeunit in *. lia.
  - intros k v Hv.
    pose proof (@join_length_item (lit "," ++ lineBreak indent (depth + 1))
                                  (renderEntry indent depth (k, v))
                                  (map (renderEntry indent depth) entries)
                                  (in_map _ _ _ Hv)) as H.
    unfold renderEntry in H at 1. cbn [fst snd] in H.
    rewrite !length_app in *. change (length (lit "{")) with 1.
    change (length (lit "}")) with 1. change (length (lit ":")) with 1 in H.
    cbn [length] in H.
    unfold jsstring, codeunit in *. lia.
Qed.

End RenderedText.

Section ParseTrees.
Context {NI : NumberImpl}.

Lemma afterSpace_head (c : codeunit) (rest post : jsstring) :
  whitespace c = false -> afterSpace ((c :: rest) ++ post).
Proof. intros Hc. exact Hc. Qed.

Lemma afterValue_gap (w : jsstring) (c : codeunit) (rest post : jsstring) :
  forallb whitespace w = true ->
  numberStop (Some c) = true ->
  afterValue ((w ++ c :: rest) ++ post).
Proof.
  intros Hw Hc. unfold afterValue. destruct w as [|c0 w]; [exact Hc |].
  cbn [app nth_error]. cbn [forallb] in Hw. apply andb_prop in Hw.
  apply whitespace_numberStop. tauto.
Qed.

Lemma consumes_result {A} (p : jsstring -> M pstate A) (body : jsstring) (a a' : A)
      (ok : jsstring -> Prop) :
  a = a' -> consumes p body a' ok -> consumes p body a ok.
Proof. intros ->. auto. Qed.

Section Loops.
Variable fuel : nat.
Variable txt : value -> jsstring.
Variables w wc : jsstring.
Hypothesis w_white : forallb whitespace w = true.
Hypothesis wc_white : forallb whitespace wc = true.

(** The loop of [parseArray] on the texts of values with commas and
    white space between them, the closing bracket after them. *)
Lemma consumes_arrayLoop :
  forall vs,
    (forall v, In v vs ->
               consumes (fun json => parseValue json None fuel) (txt v) v afterValue
               /\ exists c rest, txt v = c :: rest /\ whitespace c = false) ->
    vs <> [] ->
    forall n acc w0,
      length vs <= n ->
      forallb whitespace w0 = true ->
      consumes (fun json => parseArrayLoop json (parseValue json None fuel) n acc)
               (w0 ++ join (lit "," ++ w) (map txt vs) ++ wc ++ lit "]")
               (acc ++ map Some vs) (fun _ => True).
Proof.
  induction vs as [|v vs IH]; intros Hitems Hne n acc w0 Hn Hw0;
    [contradiction Hne; reflexivity |].
  destruct n as [|n]; [cbn [length] in Hn; lia |].
  destruct (Hitems v (or_introl eq_refl)) as (Hv & c & r & Htxt & Hc).
  cbn [parseArrayLoop].
  destruct vs as [|v' vs'].
  - cbn [map join].
    step w0 (txt v ++ wc ++ lit "]");
      [apply consumes_skip; exact Hw0
      | intros post _; rewrite Htxt; apply afterSpace_head; exact Hc |].
    cbv beta.
    step (txt v) (wc ++ lit "]");
      [exact Hv
      | intros post _; apply (@afterValue_gap wc (ch "]") [] post wc_white); reflexivity |].
    cbv beta zeta.
    step wc (lit "]");
      [apply consumes_skip; exact wc_white | intros post _; reflexivity |].
    cbv beta.
    apply consumes_peek with (c := ch "]"); [reflexivity |].
    change (charIs (ch "]") (Some (ch "]"))) with true. cbv iota.
    step (lit "]") (@nil codeunit);
      [apply consumes_advance with (ok := fun _ => True) | intros post _; exact I | apply consumes_ret].
  - change (map txt (v :: v' :: vs')) with (txt v :: map txt (v' :: vs')).
    rewrite (@join_cons (lit "," ++ w) (txt v) (map txt (v' :: vs'))) by discriminate.
    apply consumes_result with (a' := (acc ++ [Some v]) ++ map Some (v' :: vs'));
      [rewrite <- app_assoc; reflexivity |].
    step w0 (txt v ++ lit "," ++ w ++ join (lit "," ++ w) (map txt (v' :: vs'))
             ++ wc ++ lit "]");
      [apply consumes_skip; exact Hw0
      | intros post _; rewrite Htxt; apply afterSpace_head; exact Hc |].
    cbv beta.
    step (txt v) (lit "," ++ w ++ join (lit "," ++ w) (map txt (v' :: vs'))
                  ++ wc ++ lit "]");
      [exact Hv | intros post _; reflexivity |].
    cbv beta zeta.
    step (@nil codeunit) (lit "," ++ w ++ join (lit "," ++ w) (map txt (v' :: vs'))
                          ++ wc ++ lit "]");
      [apply consumes_skip; reflexivity | intros post _; reflexivity |].
    cbv beta.
    apply consumes_peek with (c := ch ","); [reflexivity |].
    change (charIs (ch "]") (Some (ch ","))) with false.
    change (charIs (ch ",") (Some (ch ","))) with true. cbv iota. cbn [negb]. cbv iota.
    step (lit ",") (w ++ join (lit "," ++ w) (map txt (v' :: vs')) ++ wc ++ lit "]");
      [apply consumes_advance with (ok := fun _ => True) | intros post _; exact I |].
    cbv beta. apply IH.
    + intros v0 Hv0. apply Hitems. right. exact Hv0.
    + discriminate.
    + cbn [length] in *. lia.
    + exact w_white.
Qed.

Variable g : jsstring.
Hypothesis g_white : forallb whitespace g = true.

(** The loop of [parseObject] on the texts of entries. *)
Lemma consumes_objectLoop :
  forall entries,
    (forall k v, In (k, v) entries ->
                 consumes (fun json => parseValue json None fuel) (txt v) v afterValue
                 /\ (exists c rest, txt v = c :: rest /\ whitespace c = false)
                 /\ forallb (fun c => negb (N.eqb c QUOTE || N.eqb c BACKSLASH)) k = true
                 /\ length k < fuel) ->
    entries <> [] ->
    forall n acc w0,
      length entries <= n ->
      forallb whitespace w0 = true ->
      consumes (fun json => parseObjectLoop json (parseValue json None fuel) fuel n acc)
               (w0 ++ join (lit "," ++ w)
                           (map (fun e => [QUOTE] ++ fst e ++ [QUOTE] ++ lit ":" ++ g
                                          ++ txt (snd e)) entries)
                ++ wc ++ lit "}")
               (fold_left (fun acc e => obj_set (fst e) (snd e) acc) entries acc)
               (fun _ => True).
Proof.
  induction entries as [|[k v] entries IH]; intros Hitems Hne n acc w0 Hn Hw0;
    [contradiction Hne; reflexivity |].
  destruct n as [|n]; [cbn [length] in Hn; lia |].
  destruct (Hitems k v (or_introl eq_refl)) as (Hv & (c & r & Htxt & Hc) & Hk & Hklen).
  cbn [parseObjectLoop fold_left fst snd].
  match goal with
  | |- context [map ?F ((k, v) :: entries)] => set (piece := F)
  end.
  destruct entries as [|e' entries'].
  - cbn [map join fold_left]. unfold piece. cbn [fst snd].
    step w0 ((QUOTE :: k ++ [QUOTE]) ++ lit ":" ++ g ++ txt v ++ wc ++ lit "}");
      [apply consumes_skip; exact Hw0 | intros post _; reflexivity |].
    cbv beta.
    step (QUOTE :: k ++ [QUOTE]) (lit ":" ++ g ++ txt v ++ wc ++ lit "}");
      [apply consumes_key with (ok := fun _ => True); assumption | trivial |].
    cbv beta.
    step (@nil codeunit) (lit ":" ++ g ++ txt v ++ wc ++ lit "}");
      [apply consumes_skip; reflexivity | intros post _; reflexivity |].
    cbv beta.
    apply consumes_peek with (c := ch ":"); [reflexivity |].
    change (charIs (ch ":") (Some (ch ":"))) with true. cbn [negb]. cbv iota.
    step (lit ":") (g ++ txt v ++ wc ++ lit "}");
      [apply consumes_advance with (ok := fun _ => True) | intros post _; exact I |].
    cbv beta.
    step g (txt v ++ wc ++ lit "}");
      [apply consumes_skip; exact g_white
      | intros post _; rewrite Htxt; apply afterSpace_head; exact Hc |].
    cbv beta.
    step (txt v) (wc ++ lit "}");
      [exact Hv
      | intros post _; apply (@afterValue_gap wc (ch "}") [] post wc_white); reflexivity |].
    cbv beta zeta.
    step wc (lit "}");
      [apply consumes_skip; exact wc_white | intros post _; reflexivity |].
    cbv beta.
    apply consumes_peek with (c := ch "}"); [reflexivity |].
    change (charIs (ch "}") (Some (ch "}"))) with true. cbv iota.
    step (lit "}") (@nil codeunit);
      [apply consumes_advance with (ok := fun _ => True) | intros post _; exact I | apply consumes_ret].
  - change (map piece ((k, v) :: e' :: entries'))
      with (piece (k, v) :: map piece (e' :: entries')).
    apply consumes_body
      with (body' := w0 ++ (piece (k, v) ++ (lit "," ++ w)
                            ++ join (lit "," ++ w) (map piece (e' :: entries')))
                     ++ wc ++ lit "}");
      [apply (f_equal (fun t => w0 ++ t ++ wc ++ lit "}"));
       apply join_cons; discriminate |].
    unfold piece at 1. cbn [fst snd].
    set (more := join (lit "," ++ w) (map piece (e' :: entries')) ++ wc ++ lit "}").
    step w0 ((QUOTE :: k ++ [QUOTE]) ++ lit ":" ++ g ++ txt v ++ lit "," ++ w ++ more);
      [apply consumes_skip; exact Hw0 | intros post _; reflexivity |].
    cbv beta.
    step (QUOTE :: k ++ [QUOTE]) (lit ":" ++ g ++ txt v ++ lit "," ++ w ++ more);
      [apply consumes_key with (ok := fun _ => True); assumption | trivial |].
    cbv beta.
    step (@nil codeunit) (lit ":" ++ g ++ txt v ++ lit "," ++ w ++ more);
      [apply consumes_skip; reflexivity | intros post _; reflexivity |].
    cbv beta.
    apply consumes_peek with (c := ch ":"); [reflexivity |].
    change (charIs (ch ":") (Some (ch ":"))) with true. cbn [negb]. cbv iota.
    step (lit ":") (g ++ txt v ++ lit "," ++ w ++ more);
      [apply consumes_advance with (ok := fun _ => True) | intros post _; exact I |].
    cbv beta.
    step g (txt v ++ lit "," ++ w ++ more);
      [apply consumes_skip; exact g_white
      | intros post _; rewrite Htxt; apply afterSpace_head; exact Hc |].
    cbv beta.
    step (txt v) (lit "," ++ w ++ more);
      [exact Hv | intros post _; reflexivity |].
    cbv beta zeta.
    step (@nil codeunit) (lit "," ++ w ++ more);
      [apply consumes_skip; reflexivity | intros post _; reflexivity |].
    cbv beta.
    apply consumes_peek with (c := ch ","); [reflexivity |].
    change (charIs (ch "}") (Some (ch ","))) with false.
    change (charIs (ch ",") (Some (ch ","))) with true. cbv iota. cbn [negb]. cbv iota.
    step (lit ",") (w ++ more);
      [apply consumes_advance with (ok := fun _ => True) | intros post _; exact I |].
    cbv beta. unfold more. apply IH.
    + intros k0 v0 Hv0. apply Hitems. right. exact Hv0.
    + discriminate.
    + cbn [length] in *. lia.
    + exact w_white.
Qed.

End Loops.

End ParseTrees.

Section ParseRendered.
Context {NI : NumberImpl}.
Variable indent : jsstring.
Hypothesis indent_white : forallb whitespace indent = true.

Lemma join_head (sep t : jsstring) (ts : list jsstring) (c : codeunit) (r rest : jsstring) :
  t = c :: r -> nth_error (join sep (t :: ts) ++ rest) 0 = Some c.
Proof. intros ->. destruct ts; reflexivity. Qed.

Lemma plainKey_characters (key : jsstring) :
  plainKey key = true ->
  forallb (fun c => negb (N.eqb c QUOTE || N.eqb c BACKSLASH)) key = true.
Proof. unfold plainKey. intros H. apply andb_prop in H. tauto. Qed.

Lemma head_in_text (pre body post : jsstring) (c : codeunit) :
  nth_error body 0 = Some c ->
  charAt (pre ++ body ++ post) (length pre) = Some c.
Proof.
  intros Hc. unfold charAt. rewrite <- (Nat.add_0_r (length pre)).
  rewrite nth_error_middle. destruct body; [discriminate | exact Hc].
Qed.

(** With fuel for the length of the text, [parseValue] without reviver
    reads the text of a portable tree as the tree, wherever the text
    stands before a character that no number goes on with. *)
Lemma parseValue_render :
  forall f v depth,
    portable v ->
    length (render indent depth v) <= f ->
    consumes (fun json => parseValue json None (S f)) (render indent depth v) v afterValue.
Proof.
  induction f as [|f IH]; intros v depth Hv Hlen.
  { destruct (render_head indent depth v Hv) as (c & r & Heq & _).
    rewrite Heq in Hlen. cbn [length] in Hlen. lia. }
  destruct v as [ | b | n | s | slots | entries | proto entries | ];
    [ | | | | | | contradiction | contradiction].
  - apply consumes_literal. right. right. split; reflexivity.
  - destruct b; apply consumes_literal; [left | right; left]; split; reflexivity.
  - destruct Hv as (Hfin & Hre & Hback). cbn [render]. rewrite Hfin.
    apply consumes_result with (a' := VNumber (stringToNumber (numberToString n)));
      [rewrite Hback; reflexivity |].
    apply consumes_number. exact Hre.
  - cbn [render]. apply consumes_string.
    cbn [render] in Hlen. rewrite !length_app in Hlen. cbn [length] in Hlen.
    pose proof (escapeString_grows s). unfold jsstring, codeunit in *. lia.
  - destruct (portable_array Hv) as (vs & -> & Hvs).
    destruct (render_array_length indent depth vs) as [Hcount Hsizes].
    assert (Hitems : forall v, In v vs ->
               consumes (fun json => parseValue json None (S f))
                        (render indent (depth + 1) v) v afterValue
               /\ exists c rest, render indent (depth + 1) v = c :: rest
                                 /\ whitespace c = false).
    { intros v Hin. rewrite Forall_forall in Hvs. split.
      - apply IH; [apply Hvs; exact Hin |]. specialize (Hsizes v Hin). lia.
      - destruct (render_head indent (depth + 1) v (Hvs v Hin)) as (c & r & Heq & Hc & _).
        exists c, r. auto. }
    assert (Harr : consumes (fun json => parseArray json None (parseValue json None (S f)) (S f))
                            (render indent depth (VArray (map Some vs)))
                            (VArray (map Some vs)) (fun _ => True)).
    { rewrite render_array. unfold parseArray, applyReviver.
      step (lit "[") (lineBreak indent (depth + 1)
                      ++ join (lit "," ++ lineBreak indent (depth + 1))
                              (map (render indent (depth + 1)) vs)
                      ++ lineBreak indent depth ++ lit "]");
        [apply consumes_advance with (ok := fun _ => True) | intros post _; exact I |].
      cbv beta.
      destruct vs as [|v1 vs'].
      - cbn [map join app].
        step (lineBreak indent (depth + 1) ++ lineBreak indent depth) (lit "]");
          [apply consumes_skip; rewrite forallb_app, !lineBreak_white by exact indent_white;
           reflexivity
          | intros post _; reflexivity |].
        cbv beta.
        apply consumes_peek with (c := ch "]"); [reflexivity |].
        change (charIs (ch "]") (Some (ch "]"))) with true. cbv iota.
        step (lit "]") (@nil codeunit);
          [apply consumes_advance with (ok := fun _ => True) | intros post _; exact I
          | apply consumes_ret].
      - destruct (render_head indent (depth + 1) v1
                              (proj1 (Forall_forall _ _) Hvs v1 (or_introl eq_refl)))
          as (c1 & r1 & Hhead & Hws & Hnb & _).
        set (J := join (lit "," ++ lineBreak indent (depth + 1))
                       (map (render indent (depth + 1)) (v1 :: vs'))).
        assert (HJ : forall rest, nth_error (J ++ rest) 0 = Some c1).
        { intros rest. unfold J. cbn [map]. eapply join_head. exact Hhead. }
        step (lineBreak indent (depth + 1)) (J ++ lineBreak indent depth ++ lit "]");
          [apply consumes_skip; apply lineBreak_white; exact indent_white
          | intros post _; unfold afterSpace; rewrite <- !app_assoc, HJ; exact Hws |].
        cbv beta.
        apply consumes_peek with (c := c1); [apply HJ |].
        cbn [charIs]. rewrite Hnb.
        step (J ++ lineBreak indent depth ++ lit "]") (@nil codeunit);
          [ apply (@consumes_arrayLoop NI (S f) (render indent (depth + 1))
                     (lineBreak indent (depth + 1)) (lineBreak indent depth)
                     (lineBreak_white indent indent_white (depth + 1))
                     (lineBreak_white indent indent_white depth)
                     (v1 :: vs') Hitems ltac:(discriminate) (S f) [] []);
            [lia | reflexivity]
          | intros post _; exact I
          | apply consumes_ret ]. }
    intros pre post calls Hpost.
    rewrite parseValue_at_bracket; [apply Harr; exact I |].
    cbn [index]. apply head_in_text. rewrite render_array. reflexivity.
  - destruct (portable_object Hv) as (Hplain & Horder & Hvs).
    destruct (render_object_length indent indent_white depth entries) as [Hcount Hsizes].
    assert (Hitems : forall k v, In (k, v) entries ->
               consumes (fun json => parseValue json None (S f))
                        (render indent (depth + 1) v) v afterValue
               /\ (exists c rest, render indent (depth + 1) v = c :: rest
                                  /\ whitespace c = false)
               /\ forallb (fun c => negb (N.eqb c QUOTE || N.eqb c BACKSLASH)) k = true
               /\ length k < S f).
    { intros k v Hin. rewrite Forall_forall in Hvs.
      specialize (Hsizes k v Hin). split; [| split; [| split]].
      - apply IH; [apply (Hvs (k, v)); exact Hin | lia].
      - destruct (render_head indent (depth + 1) v (Hvs (k, v) Hin))
          as (c & r & Heq & Hc & _).
        exists c, r. auto.
      - apply plainKey_characters. rewrite forallb_forall in Hplain. apply Hplain.
        apply in_map_iff. exists (k, v). auto.
      - lia. }
    assert (Hobj : consumes (fun json => parseObject json None (parseValue json None (S f)) (S f))
                            (render indent depth (VObject entries))
                            (VObject entries) (fun _ => True)).
    { unfold parseObject, applyReviver.
      destruct entries as [|e1 entries'].
      - destruct (render_empty_object indent indent_white depth) as (w & Hw & ->).
        step (lit "{") (w ++ lit "}");
          [apply consumes_advance with (ok := fun _ => True) | intros post _; exact I |].
        cbv beta.
        step w (lit "}");
          [apply consumes_skip; exact Hw | intros post _; reflexivity |].
        cbv beta.
        apply consumes_peek with (c := ch "}"); [reflexivity |].
        change (charIs (ch "}") (Some (ch "}"))) with true. cbv iota.
        step (lit "}") (@nil codeunit);
          [apply consumes_advance with (ok := fun _ => True) | intros post _; exact I
          | apply consumes_ret].
      - rewrite render_object by discriminate.
        set (J := join (lit "," ++ lineBreak indent (depth + 1))
                       (map (renderEntry indent depth) (e1 :: entries'))).
        assert (HJ : forall rest, nth_error (J ++ rest) 0 = Some QUOTE).
        { intros rest. unfold J. cbn [map]. eapply join_head. reflexivity. }
        step (lit "{") (lineBreak indent (depth + 1) ++ J ++ lineBreak indent depth ++ lit "}");
          [apply consumes_advance with (ok := fun _ => True) | intros post _; exact I |].
        cbv beta.
        step (lineBreak indent (depth + 1)) (J ++ lineBreak indent depth ++ lit "}");
          [apply consumes_skip; apply lineBreak_white; exact indent_white
          | intros post _; unfold afterSpace; rewrite <- !app_assoc, HJ; reflexivity |].
        cbv beta.
        apply consumes_peek with (c := QUOTE); [apply HJ |].
        change (charIs (ch "}") (Some QUOTE)) with false. cbv iota.
        step (J ++ lineBreak indent depth ++ lit "}") (@nil codeunit);
          [ apply (@consumes_objectLoop NI (S f) (render indent (depth + 1))
                     (lineBreak indent (depth + 1)) (lineBreak indent depth)
                     (lineBreak_white indent indent_white (depth + 1))
                     (lineBreak_white indent indent_white depth)
                     (colonGap indent) (colonGap_white indent)
                     (e1 :: entries') Hitems ltac:(discriminate) (S f) (VObject []) []);
            [unfold jsstring, codeunit in *; lia | reflexivity]
          | intros post _; exact I
          | cbv beta; rewrite entries_rebuilt by assumption; apply consumes_ret ]. }
    intros pre post calls Hpost.
    rewrite parseValue_at_brace; [apply Hobj; exact I |].
    cbn [index]. apply head_in_text. cbn [render]. reflexivity.
Qed.

End ParseRendered.

(** X15. The round trip of a tree. A value of the store that is a tree
    whose numbers are exact and whose objects have plain keys in the
    order of own keys is serialized, without replacer and with an
    indentation of white space or none, into a text that [myParse]
    without reviver reads as the tree: [myStringify] returns the text
    given fuel for the nesting of the tree, and [myParse] returns the
    tree given fuel for the length of the text. *)
Theorem tree_round_trip {NI : NumberImpl}
        (heap : store) (tv : value) (jv : jsval) (space : space_arg) :
  represents heap tv jv ->
  portable tv ->
  forallb whitespace (indentOf space) = true ->
  exists text,
    (forall fuel, height tv <= fuel ->
                  myStringify fuel heap jv None space = Return (Some text))
    /\ (forall fuel, length text < fuel -> myParse fuel text None = Return tv).
Proof.
  intros Hrep Hport Hwhite. exists (render (indentOf space) 0 tv). split.
  - intros fuel Hfuel. unfold myStringify, runStringify.
    rewrite (@stringifyValue_render NI heap (indentOf space) fuel tv jv [] 0 initial
                                    Hrep Hfuel ltac:(intros l _ [])).
    reflexivity.
  - intros fuel Hfuel. destruct fuel as [|f]; [lia |].
    apply myParse_whole with (calls := []).
    pose proof (@parseValue_render NI (indentOf space) Hwhite f tv 0 Hport
                                   ltac:(lia) [] [] [] eq_refl) as H.
    cbn [app length Nat.add] in H. rewrite app_nil_r in H. exact H.
Qed.

Lemma nested_tree_witness :
  let shared := CArray [Some (num 1); Some JNull; Some (JBoolean true)] in
  let heap := [CObject [(lit "name", JString (qlit "a'b"));
                        (lit "list", JRef 1); (lit "again", JRef 1)];
               shared] in
  let list := VArray [Some (vnum 1); Some VNull; Some (VBoolean true)] in
  let tv := VObject [(lit "name", VString (qlit "a'b")); (lit "list", list);
                     (lit "again", list)] in
  exists text,
    myStringify 3 heap (JRef 0) None (SpaceNumber 2) = Return (Some text)
    /\ myParse (S (length text)) text None = Return tv.
Proof.
  intros shared heap list tv.
  assert (Hlist : represents heap list (JRef 1)).
  { apply represents_array. exists 1, [Some (num 1); Some JNull; Some (JBoolean true)].
    split; [reflexivity | split; [reflexivity |]].
    repeat constructor. }
  assert (Hrep : represents heap tv (JRef 0)).
  { apply represents_object.
    exists 0, [(lit "name", JString (qlit "a'b")); (lit "list", JRef 1);
               (lit "again", JRef 1)].
    split; [reflexivity | split; [reflexivity |]].
    repeat constructor; exact Hlist. }
  assert (Hport : portable tv).
  { cbn [portable tv list map fst]. split; [reflexivity | split; [reflexivity |]].
    repeat constructor. }
  destruct (@tree_round_trip IntegerNumbers heap tv (JRef 0) (SpaceNumber 2) Hrep Hport eq_refl)
    as (text & Hstringify & Hparse).
  exists text. split; [apply Hstringify; apply Nat.leb_le; reflexivity | apply Hparse; lia].
Defined.

(* ================================================================== *)
(** ** Indentation *)

Lemma indentOf_unit (space : space_arg) : indentOf space = indentUnit space.
Proof.
  destruct space as [n | s |]; [| reflexivity | reflexivity].
  cbn [indentOf indentUnit]. induction n as [|n IH]; [reflexivity |].
  cbn [repeatString repeat]. rewrite IH. reflexivity.
Qed.

(** The text [stringifyValue] gives for a tree is the text of the
    layout. *)
Lemma render_layout {NI : NumberImpl} (indent : jsstring) :
  forall n v depth, height v <= n -> render indent depth v = layout indent depth v.
Proof.
  induction n as [|n IH]; intros v depth Hn.
  { destruct v; cbn [height] in Hn; lia. }
  destruct v as [ | b | x | s | slots | entries | proto entries | ]; try reflexivity.
  - cbn [render layout]. rewrite <- arrayBody_code. cbv zeta.
    assert (Hmap : map (fun slot : option value =>
                          match slot with
                          | Some x => render indent (depth + 1) x
                          | None => []
                          end) slots
                   = map (fun slot : option value =>
                            match slot with
                            | Some x => layout indent (depth + 1) x
                            | None => []
                            end) slots).
    { apply map_ext_in. intros [x|] Hin; [| reflexivity].
      apply IH. pose proof (height_slot _ _ Hin). lia. }
    rewrite Hmap. reflexivity.
  - cbn [render layout]. rewrite <- objectBody_code. cbv zeta. rewrite map_map.
    match goal with
    | |- ?L = ?R =>
        match L with
        | context [map ?F entries] =>
            match R with
            | context [map ?G entries] =>
                replace (map F entries) with (map G entries); [reflexivity |]
            end
        end
    end.
    apply map_ext_in. intros [k x] Hin.
    rewrite (IH x (depth + 1)) by (pose proof (height_entry _ _ _ Hin); lia).
    reflexivity.
Qed.

(** C8. The text of a value that is a tree is its layout with the
    indentation unit that the third argument asks for, as many spaces
    as a number says or a string as it is: the elements of an array and
    the entries of an object each stand after a line break and the unit
    once for each level of nesting, commas in between, a line break and
    the unit once for each level of the container stand before the
    closing bracket, and the value of an entry follows its key between
    quotes, a colon and one space. Whatever the store and the replacer,
    the text of an array is made in this way of what the visits of its
    elements return, one level deeper, and the text of an object of
    what the second visits of its kept entries return; the visit of a
    container is at the depth of the visit of the value it stands for.
    A line break,
    the indentation after it and the space after the colon are empty
    when the unit is (absent, zero or the empty string), so that then
    the elements are separated by commas alone. With two spaces the
    object [{name: 'Alice', age: 25}] gives the three lines of the
    specification. What an empty container has between its brackets
    is C9. *)
Theorem C8_indentation_layout :
  (forall (NI : NumberImpl) heap tv jv space fuel,
      represents heap tv jv ->
      height tv <= fuel ->
      myStringify fuel heap jv None space
      = Return (Some (layout (indentUnit space) 0 tv)))
  /\ (forall (NI : NumberImpl) heap replacerFn indent fuel l items depth st r st',
         let visit := stringifyValue heap replacerFn indent fuel in
         stringifyArray indent visit l items depth st = Return (r, st') ->
         exists rs s2,
           visits visit (depth + 1) (map (fun item => ([], item)) (elements items))
                  (entered l st) rs s2
           /\ r = Some (lit "[" ++ arrayBody indent depth (slotTexts items rs) ++ lit "]"))
  /\ (forall (NI : NumberImpl) heap replacerFn indent fuel l entries depth st r st',
         let visit := stringifyValue heap replacerFn indent fuel in
         stringifyObject indent visit l entries depth st = Return (r, st') ->
         exists rs1 s1 rs2 s2,
           visits visit depth entries (entered l st) rs1 s1
           /\ visits visit (depth + 1) (keptEntries entries rs1) s1 rs2 s2
           /\ r = Some (lit "{"
                        ++ objectBody indent depth
                                      (entryTexts indent (keptEntries entries rs1) rs2)
                        ++ lit "}"))
  /\ (forall (NI : NumberImpl) heap indent fuel key l depth st r st',
         stringifyValue heap None indent (S fuel) key (JRef l) depth st = Return (r, st') ->
         match nth_error heap l with
         | Some (CArray items) =>
             stringifyArray indent (stringifyValue heap None indent fuel) l items depth st
             = Return (r, st')
         | Some (CObject entries) =>
             stringifyObject indent (stringifyValue heap None indent fuel) l entries depth st
             = Return (r, st')
         | None => False
         end)
  /\ (forall indent depth t ts,
         arrayBody indent depth (t :: ts)
         = join (lit ",") (map (fun x => lineBreak indent (depth + 1) ++ x) (t :: ts))
           ++ lineBreak indent depth
         /\ objectBody indent depth (t :: ts)
            = join (lit ",") (map (fun x => lineBreak indent (depth + 1) ++ x) (t :: ts))
              ++ lineBreak indent depth)
  /\ (forall c indent level,
         lineBreak (c :: indent) level = [LF] ++ repeatString (c :: indent) level
         /\ colonGap (c :: indent) = [SPACE])
  /\ (forall level, lineBreak [] level = [] /\ colonGap [] = [])
  /\ (forall fuel,
         @myStringify IntegerNumbers (2 + fuel)
           [CObject [(lit "name", JString (lit "Alice")); (lit "age", num 25)]]
           (JRef 0) None (SpaceNumber 2)
         = Return (Some (lit "{" ++ [LF] ++ qlit "  'name': 'Alice'," ++ [LF]
                         ++ qlit "  'age': 25" ++ [LF] ++ lit "}"))).
Proof.
  split; [| split; [| split; [| split; [| split; [| split; [| split]]]]]].
  - intros NI heap tv jv space fuel Hrep Hfuel. unfold myStringify, runStringify.
    rewrite (@stringifyValue_render NI heap (indentOf space) fuel tv jv [] 0 initial
                                    Hrep Hfuel ltac:(intros l _ [])).
    rewrite (@render_layout NI (indentOf space) (height tv) tv 0 (Nat.le_refl _)).
    rewrite indentOf_unit. reflexivity.
  - intros NI heap replacerFn indent fuel l items depth st r st' visit H.
    apply stringifyArray_run in H. destruct H as (rs & s2 & Hvisits & _ & Hr).
    exists rs, s2. split; assumption.
  - intros NI heap replacerFn indent fuel l entries depth st r st' visit H.
    apply stringifyObject_run in H.
    destruct H as (rs1 & s1 & rs2 & s2 & Hvisits1 & Hvisits2 & _ & Hr).
    exists rs1, s1, rs2, s2. split; [exact Hvisits1 | split; [exact Hvisits2 | exact Hr]].
  - intros NI heap indent fuel key l depth st r st' H.
    apply stringifyValue_run in H. cbv zeta in H. destruct H as [_ H].
    replace {| stack := stack st; calls := calls st ++ [] |} with st in H
      by (rewrite app_nil_r; destruct st; reflexivity).
    exact H.
  - intros. split; reflexivity.
  - intros. split; reflexivity.
  - intros. split; reflexivity.
  - intros fuel. reflexivity.
Qed.

Lemma C8_witness :
  let heap := [CObject [(lit "a", JRef 1)];
               CArray [Some (num 1); Some (JRef 2)];
               CObject [(lit "b", num 2)]] in
  let tv := VObject [(lit "a", VArray [Some (vnum 1); Some (VObject [(lit "b", vnum 2)])])] in
  myStringify 4 heap (JRef 0) None (SpaceString (lit "--"))
  = Return (Some (layout (lit "--") 0 tv))
  /\ layout (lit "--") 0 tv
     = lit "{" ++ [LF] ++
       qlit "--'a': [" ++ [LF] ++
       qlit "----1," ++ [LF] ++
       qlit "----{" ++ [LF] ++
       qlit "------'b': 2" ++ [LF] ++
       qlit "----}" ++ [LF] ++
       qlit "--]" ++ [LF] ++
       lit "}".
Proof.
  intros heap tv.
  assert (Hinner : represents heap (VObject [(lit "b", vnum 2)]) (JRef 2)).
  { apply represents_object. exists 2, [(lit "b", num 2)].
    split; [reflexivity | split; [reflexivity |]]. repeat constructor. }
  assert (Hlist : represents heap (VArray [Some (vnum 1); Some (VObject [(lit "b", vnum 2)])])
                             (JRef 1)).
  { apply represents_array. exists 1, [Some (num 1); Some (JRef 2)].
    split; [reflexivity | split; [reflexivity |]].
    repeat constructor. exact Hinner. }
  assert (Hrep : represents heap tv (JRef 0)).
  { apply represents_object. exists 0, [(lit "a", JRef 1)].
    split; [reflexivity | split; [reflexivity |]].
    repeat constructor. exact Hlist. }
  split; [| reflexivity].
  apply (proj1 C8_indentation_layout IntegerNumbers heap tv (JRef 0)
               (SpaceString (lit "--")) 4 Hrep).
  apply Nat.leb_le. reflexivity.
Defined.

(* ================================================================== *)
(** ** The replacer and the entries of objects *)

(** X16. With a replacer, the entries of an object are gone through twice.
    A visit of an object that returns is the visits of its entries, one
    after the other and each under its key, then the visits of the
    entries that are kept, one after the other and one level deeper,
    and nothing else is done to the record of calls; an entry is kept
    when its first visit returns a text, and the text of the object is
    made of what the second visits return. When the replacer answers
    nothing with a container, the calls added to the record are one for
    each entry and then one for each kept entry, each with the key and
    the value of the entry. *)
Theorem object_entries_are_visited_twice {NI : NumberImpl}
        (heap : store) (f : replacer_fn) (indent : jsstring)
        (fuel : nat) (l : loc) (entries : list (jsstring * jsval)) (depth : nat)
        (st st' : sstate) (r : option jsstring) :
  stringifyObject indent (stringifyValue heap (Some f) indent fuel) l entries depth st
  = Return (r, st') ->
  exists rs1 s1 rs2 s2,
    visits (stringifyValue heap (Some f) indent fuel) depth entries (entered l st) rs1 s1
    /\ visits (stringifyValue heap (Some f) indent fuel) (depth + 1)
              (keptEntries entries rs1) s1 rs2 s2
    /\ st' = exited s2
    /\ r = Some (lit "{"
                 ++ objectBody indent depth
                               (entryTexts indent (keptEntries entries rs1) rs2)
                 ++ lit "}")
    /\ ((forall history key v l', f history key v <> JRef l') ->
        calls st' = calls st ++ entries ++ keptEntries entries rs1).
Proof.
  intros H. apply stringifyObject_run in H.
  destruct H as (rs1 & s1 & rs2 & s2 & Hvisits1 & Hvisits2 & -> & ->).
  exists rs1, s1, rs2, s2.
  split; [exact Hvisits1 | split; [exact Hvisits2 | split; [reflexivity |]]].
  split; [reflexivity |].
  intros Hleaf.
  assert (Hone : forall d key v s r0 s',
             stringifyValue heap (Some f) indent fuel key v d s = Return (r0, s') ->
             calls s' = calls s ++ [(key, v)]).
  { intros d key v s r0 s' Hvisit.
    destruct (stringifyValue_calls _ _ _ _ _ _ _ _ Hvisit) as (rest & Hcalls & Hrest).
    rewrite Hcalls, Hrest by (intros l'; apply Hleaf). reflexivity. }
  apply visits_calls in Hvisits1; [| intros; eapply Hone; eassumption].
  apply visits_calls in Hvisits2; [| intros; eapply Hone; eassumption].
  cbn [exited calls entered] in *. rewrite Hvisits2, Hvisits1, <- app_assoc. reflexivity.
Qed.

Lemma two_passes_witness :
  let entries := [(lit "a", num 1); (lit "b", @JUndefined IntegerNumbers)] in
  let keep := fun (history : list (jsstring * @jsval IntegerNumbers))
                  (key : jsstring) (v : @jsval IntegerNumbers) => v in
  let visit := stringifyValue [CObject entries] (Some keep) [] 1 in
  stringifyObject [] visit 0 entries 0 initial
  = Return (Some (qlit "{'a':1}"),
            {| stack := [];
               calls := [(lit "a", num 1); (lit "b", JUndefined); (lit "a", num 1)] |})
  /\ exists rs1 s1 rs2 s2,
      visits visit 0 entries {| stack := [0]; calls := [] |} rs1 s1
      /\ visits visit 1 (keptEntries entries rs1) s1 rs2 s2
      /\ Some (qlit "{'a':1}")
         = Some (lit "{" ++ objectBody [] 0 (entryTexts [] (keptEntries entries rs1) rs2)
                 ++ lit "}").
Proof.
  intros entries keep visit.
  assert (Hrun : stringifyObject [] visit 0 entries 0 initial
                 = Return (Some (qlit "{'a':1}"),
                           {| stack := [];
                              calls := [(lit "a", num 1); (lit "b", JUndefined);
                                        (lit "a", num 1)] |})) by reflexivity.
  split; [exact Hrun |].
  destruct (@object_entries_are_visited_twice IntegerNumbers [CObject entries] keep [] 1 0
              entries 0 initial _ _ Hrun)
    as (rs1 & s1 & rs2 & s2 & Hvisits1 & Hvisits2 & _ & Htext & _).
  exists rs1, s1, rs2, s2. split; [exact Hvisits1 | split; [exact Hvisits2 | exact Htext]].
Defined.

(* ================================================================== *)
(** ** A replacer that changes nothing *)

Section IdleReplacer.
Context {NI : NumberImpl}.

Lemma sameOutcome_bind {A B} (m m' : M sstate A) (k k' : A -> M sstate B) s t :
  sameOutcome (m s) (m' t) ->
  (forall a s1 t1, stack s1 = stack t1 -> sameOutcome (k a s1) (k' a t1)) ->
  sameOutcome (bind m k s) (bind m' k' t).
Proof.
  unfold bind. destruct (m s) as [[a s1]| e |], (m' t) as [[b t1]| e' |];
    cbn [sameOutcome]; try tauto.
  intros [-> Hstack] Hk. apply Hk. exact Hstack.
Qed.

Lemma sameOutcome_mapM {A B} (f g : A -> M sstate B) (xs : list A) :
  (forall x s t, stack s = stack t -> sameOutcome (f x s) (g x t)) ->
  forall s t, stack s = stack t -> sameOutcome (mapM f xs s) (mapM g xs t).
Proof.
  intros Hfg. induction xs as [|x xs IH]; intros s t Hst.
  - cbn. auto.
  - cbn [mapM]. apply sameOutcome_bind; [apply Hfg; exact Hst |].
    intros y s1 t1 H1. apply sameOutcome_bind; [apply IH; exact H1 |].
    intros ys s2 t2 H2. cbn. auto.
Qed.

Lemma sameOutcome_filterM {A} (p q : A -> M sstate bool) (xs : list A) :
  (forall x s t, stack s = stack t -> sameOutcome (p x s) (q x t)) ->
  forall s t, stack s = stack t -> sameOutcome (filterM p xs s) (filterM q xs t).
Proof.
  intros Hpq. induction xs as [|x xs IH]; intros s t Hst.
  - cbn. auto.
  - cbn [filterM]. apply sameOutcome_bind; [apply Hpq; exact Hst |].
    intros b s1 t1 H1. apply sameOutcome_bind; [apply IH; exact H1 |].
    intros ys s2 t2 H2. cbn. auto.
Qed.

Variable heap : store.
Variable indent : jsstring.
Variable f : replacer_fn.
Hypothesis f_idle : forall history key v, f history key v = v.

(** A visit with a replacer that gives every value back ends as the
    visit without replacer does. *)
Lemma stringifyValue_idle :
  forall fuel key v depth s t,
    stack s = stack t ->
    sameOutcome (stringifyValue heap (Some f) indent fuel key v depth s)
                (stringifyValue heap None indent fuel key v depth t).
Proof.
  induction fuel as [|fuel IH]; intros key v depth s t Hst; [exact I |].
  cbn [stringifyValue]. apply sameOutcome_bind.
  { unfold applyReplacer, bind, record_call, ret. cbn. rewrite f_idle. auto. }
  intros v' s1 t1 H1.
  destruct v' as [|b|n|str|l| |];
    try (unfold ret; cbn [sameOutcome]; auto; fail).
  unfold bind at 1 2, get. cbv beta iota. rewrite H1.
  destruct (includes l (stack t1)); [reflexivity |].
  assert (Hpush : forall l0, sameOutcome (push l0 s1) (push l0 t1)).
  { intros l0. unfold push. cbn. rewrite H1. auto. }
  assert (Hpop : forall s2 t2 : sstate, stack s2 = stack t2 ->
                                        sameOutcome (pop s2) (pop t2)).
  { intros s2 t2 H2. unfold pop. cbn. rewrite H2. auto. }
  destruct (nth_error heap l) as [[items|entries]|]; [| | reflexivity].
  - unfold stringifyArray.
    apply sameOutcome_bind; [apply Hpush |]. intros [] s2 t2 H2.
    apply sameOutcome_bind.
    { apply sameOutcome_mapM; [| exact H2].
      intros [item|] s3 t3 H3; [| cbn; auto].
      apply sameOutcome_bind; [apply IH; exact H3 |].
      intros r s4 t4 H4. cbn. auto. }
    intros pieces s3 t3 H3.
    apply sameOutcome_bind; [apply Hpop; exact H3 |].
    intros [] s4 t4 H4. cbn. auto.
  - unfold stringifyObject.
    apply sameOutcome_bind; [apply Hpush |]. intros [] s2 t2 H2.
    apply sameOutcome_bind.
    { apply sameOutcome_filterM; [| exact H2].
      intros entry s3 t3 H3.
      apply sameOutcome_bind; [apply IH; exact H3 |].
      intros r s4 t4 H4. cbn. auto. }
    intros kept s3 t3 H3.
    apply sameOutcome_bind.
    { apply sameOutcome_mapM; [| exact H3].
      intros entry s4 t4 H4.
      apply sameOutcome_bind; [apply IH; exact H4 |].
      intros r s5 t5 H5. cbn. auto. }
    intros pieces s4 t4 H4.
    apply sameOutcome_bind; [apply Hpop; exact H4 |].
    intros [] s5 t5 H5. cbn. auto.
Qed.

End IdleReplacer.

(** X17. A replacer that gives every value back as it is makes no
    difference: [myStringify] returns the same text, or throws the same
    error, or does not return, as it does without replacer. *)
Theorem idle_replacer_changes_nothing {NI : NumberImpl}
        (fuel : nat) (heap : store) (v : jsval) (f : replacer_fn)
        (space : space_arg) :
  (forall history key x, f history key x = x) ->
  myStringify fuel heap v (Some f) space = myStringify fuel heap v None space.
Proof.
  intros Hidle. unfold myStringify, runStringify.
  pose proof (@stringifyValue_idle NI heap (indentOf space) f Hidle fuel [] v 0
                                   initial initial eq_refl) as H.
  destruct (stringifyValue heap (Some f) (indentOf space) fuel [] v 0 initial)
    as [[r s]| e |],
    (stringifyValue heap None (indentOf space) fuel [] v 0 initial)
    as [[r' s']| e' |]; cbn [sameOutcome] in H; try contradiction.
  - destruct H as [-> _]. reflexivity.
  - subst e'. reflexivity.
  - reflexivity.
Qed.

Lemma keeping_replacer_witness :
  let heap := [CObject [(lit "a", JRef 1); (lit "b", @JUndefined IntegerNumbers)];
               CArray [Some (num 1); None]] in
  myStringify 3 heap (JRef 0) (Some (fun _ _ x => x)) (SpaceNumber 1)
  = myStringify 3 heap (JRef 0) None (SpaceNumber 1).
Proof.
  intros heap.
  apply (@idle_replacer_changes_nothing IntegerNumbers 3 heap (JRef 0) (fun _ _ x => x)
                                        (SpaceNumber 1)).
  reflexivity.
Defined.

(* ================================================================== *)
(** ** The reviver on a text that is no container *)

Section Steady.
Context {NI : NumberImpl}.
Variable json : jsstring.

Lemma steady_skipWhitespace : steady (skipWhitespace json) (skipWhitespace json).
Proof.
  intros s [] s1 H. unfold skipWhitespace in *. injection H as <-.
  split; [reflexivity |]. intros c. reflexivity.
Qed.

Lemma steady_parseStringLoop :
  forall fuel more result,
    steady (parseStringLoop json fuel result) (parseStringLoop json (fuel + more) result).
Proof.
  induction fuel as [|fuel IH]; intros more result s a s1 H; [discriminate |].
  cbn [parseStringLoop] in H. rewrite peek_bind in H.
  destruct (charIs QUOTE (charAt json (index s))) eqn:Hquote.
  - rewrite advance_bind in H. unfold ret in H. injection H as <- <-.
    split; [reflexivity |]. intros c.
    cbn [Nat.add parseStringLoop]. rewrite peek_bind. cbn [withCalls index].
    rewrite Hquote. reflexivity.
  - destruct (charIs BACKSLASH (charAt json (index s))) eqn:Hback.
    + rewrite advance_bind in H. rewrite peek_bind in H.
      apply bind_Return_inv in H. destruct H as (r & sa & Happ & H).
      apply append_Return in Happ. destruct Happ as (-> & _ & Happ).
      rewrite advance_bind in H. cbn [index reviverCalls] in H.
      destruct (IH more _ _ _ _ H) as [Hcalls Hrun]. cbn [reviverCalls] in Hcalls.
      split; [exact Hcalls |]. intros c.
      cbn [Nat.add parseStringLoop]. rewrite peek_bind. cbn [withCalls index].
      rewrite Hquote, Hback.
      rewrite advance_bind. rewrite peek_bind. cbn [index reviverCalls].
      rewrite (bind_Return _ _ _ (Happ _)). rewrite advance_bind.
      cbn [index reviverCalls]. apply (Hrun c).
    + apply bind_Return_inv in H. destruct H as (r & sa & Happ & H).
      apply append_Return in Happ. destruct Happ as (-> & _ & Happ).
      rewrite advance_bind in H.
      destruct (IH more _ _ _ _ H) as [Hcalls Hrun]. cbn [reviverCalls] in Hcalls.
      split; [exact Hcalls |]. intros c.
      cbn [Nat.add parseStringLoop]. rewrite peek_bind. cbn [withCalls index].
      rewrite Hquote, Hback.
      rewrite (bind_Return _ _ _ (Happ _)). rewrite advance_bind.
      cbn [index reviverCalls]. apply (Hrun c).
Qed.

Lemma steady_parseString fuel more :
  steady (parseString json fuel) (parseString json (fuel + more)).
Proof.
  intros s a s1 H. unfold parseString in *. rewrite advance_bind in H.
  destruct (@steady_parseStringLoop fuel more _ _ _ _ H) as [Hcalls Hrun].
  split; [exact Hcalls |]. intros c. rewrite advance_bind. apply (Hrun c).
Qed.

Lemma steady_parseLiteral literal v :
  steady (parseLiteral json literal v) (parseLiteral json literal v).
Proof.
  intros s a s1 H. unfold parseLiteral, bind, get in *.
  destruct (jsstring_eqb (slice json (index s) (length literal)) literal) eqn:Heq;
    [| discriminate].
  unfold advance, ret in *. injection H as <- <-.
  split; [reflexivity |]. intros c. cbn [withCalls index]. rewrite Heq. reflexivity.
Qed.

Lemma steady_parseNumber : steady (parseNumber json) (parseNumber json).
Proof.
  intros s a s1 H. unfold parseNumber, bind, get in *.
  destruct (numberRegex (skipn (index s) json)) eqn:Hre; [| discriminate].
  unfold advance, ret in *. injection H as <- <-.
  split; [reflexivity |]. intros c. cbn [withCalls index]. rewrite Hre. reflexivity.
Qed.

End Steady.

Section LeafTexts.
Context {NI : NumberImpl}.
Variable json : jsstring.

Lemma applyReviver_None fuel obj (s : pstate) :
  applyReviver None fuel obj s = Return (obj, s).
Proof. reflexivity. Qed.

Lemma parseObject_container pv fuel s v s1 :
  parseObject json None pv fuel s = Return (v, s1) -> isContainer v = true.
Proof.
  unfold parseObject. rewrite advance_bind. intros H.
  apply bind_Return_inv in H. destruct H as ([] & sb & _ & H).
  rewrite peek_bind in H.
  destruct (charIs (ch "}") (charAt json (index sb))).
  - rewrite advance_bind, applyReviver_None in H. injection H as <- _. reflexivity.
  - apply bind_Return_inv in H. destruct H as (res & sc & Hloop & H).
    rewrite applyReviver_None in H. injection H as <- _.
    apply parseObjectLoop_keys in Hloop;
      [| left; eauto | split; [constructor | intros []]].
    destruct Hloop as [[(e & ->) | (proto & e & ->)] _]; reflexivity.
Qed.

Lemma parseArray_container pv fuel s v s1 :
  parseArray json None pv fuel s = Return (v, s1) -> exists items, v = VArray items.
Proof.
  unfold parseArray. rewrite advance_bind. intros H.
  apply bind_Return_inv in H. destruct H as ([] & sb & _ & H).
  rewrite peek_bind in H.
  destruct (charIs (ch "]") (charAt json (index sb))).
  - rewrite advance_bind, applyReviver_None in H. injection H as <- _. eauto.
  - apply bind_Return_inv in H. destruct H as (res & sc & _ & H).
    rewrite applyReviver_None in H. injection H as <- _. eauto.
Qed.

(** What [parseValue] does on the way to a value that is no container
    does not depend on the reviver. *)
Lemma parseValue_leaf fuel s v s1 reviver :
  parseValue json None fuel s = Return (v, s1) ->
  isContainer v = false ->
  parseValue json reviver fuel s = Return (v, s1).
Proof.
  destruct fuel as [|fuel]; [discriminate |].
  cbn [parseValue]. intros H Hleaf.
  apply bind_Return_inv in H. destruct H as ([] & sa & Hskip & H).
  rewrite (bind_Return _ _ _ Hskip). rewrite peek_bind in *.
  destruct (charIs QUOTE (charAt json (index sa))); [exact H |].
  destruct (charIs (ch "{") (charAt json (index sa))).
  { apply parseObject_container in H. congruence. }
  destruct (charIs (ch "[") (charAt json (index sa))).
  { apply parseArray_container in H. destruct H as (items & ->). discriminate. }
  exact H.
Qed.

Lemma parseValue_leaf_calls fuel s v s1 :
  parseValue json None fuel s = Return (v, s1) ->
  isContainer v = false ->
  reviverCalls s1 = reviverCalls s.
Proof.
  destruct fuel as [|fuel]; [discriminate |].
  cbn [parseValue]. intros H Hleaf.
  apply bind_Return_inv in H. destruct H as ([] & sa & Hskip & H).
  destruct (@steady_skipWhitespace NI json _ _ _ Hskip) as [Hsa _]. rewrite <- Hsa.
  rewrite peek_bind in H.
  destruct (charIs QUOTE (charAt json (index sa))).
  { apply bind_Return_inv in H. destruct H as (str & sb & Hstr & H).
    unfold ret in H. injection H as _ <-.
    apply (@steady_parseString NI json fuel 0 _ _ _ Hstr). }
  destruct (charIs (ch "{") (charAt json (index sa))).
  { apply parseObject_container in H. congruence. }
  destruct (charIs (ch "[") (charAt json (index sa))).
  { apply parseArray_container in H. destruct H as (items & ->). discriminate. }
  destruct (charIs (ch "t") (charAt json (index sa)));
    [apply (@steady_parseLiteral NI json _ _ _ _ _ H) |].
  destruct (charIs (ch "f") (charAt json (index sa)));
    [apply (@steady_parseLiteral NI json _ _ _ _ _ H) |].
  destruct (charIs (ch "n") (charAt json (index sa)));
    [apply (@steady_parseLiteral NI json _ _ _ _ _ H) |].
  destruct (charIs (ch "-") (charAt json (index sa)) || isDigit (charAt json (index sa)));
    [apply (@steady_parseNumber NI json _ _ _ H) | discriminate].
Qed.

End LeafTexts.

(** X18. On a text that is a string, a number or a literal the reviver is
    called once, with the empty key and the value, and [myParse] returns
    what the reviver returns: the value when the reviver gives it back. *)
Theorem reviver_on_a_leaf {NI : NumberImpl}
        (json : jsstring) (fuel : nat) (f : jsstring -> value -> revived) (v : value) :
  myParse fuel json None = Return v ->
  isContainer v = false ->
  exists i,
    runParse fuel json (Some f)
    = Return (newValueOf (f [] v) v, {| index := i; reviverCalls := [([], v)] |}).
Proof.
  unfold myParse, runParse, parseText. intros H Hleaf.
  destruct (parseValue json None fuel start) as [[v0 s1]| |] eqn:Hvalue;
    [| unfold bind in H; rewrite Hvalue in H; discriminate
     | unfold bind in H; rewrite Hvalue in H; discriminate].
  rewrite (bind_Return _ _ _ Hvalue) in H.
  destruct (skipWhitespace_skips json s1) as (s2 & Hskip & _ & Hcalls).
  rewrite (bind_Return _ _ _ Hskip) in H.
  unfold bind at 1, get at 1 in H.
  destruct (Nat.ltb (index s2) (length json)) eqn:Hend; [discriminate |].
  unfold ret in H. injection H as ->.
  pose proof (@parseValue_leaf NI json fuel start v s1 (Some f) Hvalue Hleaf) as Hsame.
  rewrite (bind_Return _ _ _ Hsame). rewrite (bind_Return _ _ _ Hskip).
  unfold bind at 1, get at 1. rewrite Hend.
  exists (index s2). unfold callReviver, bind, record_revival, ret. cbn [index reviverCalls].
  rewrite Hcalls.
  rewrite (@parseValue_leaf_calls NI json fuel start v s1 Hvalue Hleaf). reflexivity.
Qed.

Lemma exclaimed_string_witness :
  exists i,
    @runParse IntegerNumbers 7 (qlit " 'abc' ") (Some exclaim)
    = Return (VString (lit "abc!"),
              {| index := i; reviverCalls := [([], VString (lit "abc"))] |}).
Proof.
  apply (@reviver_on_a_leaf IntegerNumbers (qlit " 'abc' ") 7 exclaim (VString (lit "abc")));
    reflexivity.
Defined.

(* ================================================================== *)
(** ** A reviver that changes nothing *)

Section DefinedTrees.
Context {NI : NumberImpl}.

Lemma definedWithin_more :
  forall levels levels' v,
    definedWithin levels v -> levels <= levels' -> definedWithin levels' v.
Proof.
  induction levels as [|levels IH]; intros levels' v Hv Hle; [contradiction |].
  destruct levels' as [|levels']; [lia |].
  destruct v as [ | b | n | s | slots | entries | proto entries | ];
    cbn [definedWithin] in *; auto.
  - eapply Forall_impl; [| exact Hv]. intros [x|] Hx; [| exact I].
    apply (IH levels' x Hx). lia.
  - eapply Forall_impl; [| exact Hv]. intros entry Hx.
    apply (IH levels' _ Hx). lia.
  - eapply Forall_impl; [| exact Hv]. intros entry Hx.
    apply (IH levels' _ Hx). lia.
Qed.

Lemma definedWithin_defined levels v : definedWithin levels v -> isUndefined v = false.
Proof.
  destruct levels; [contradiction |]. destruct v; cbn; auto. contradiction.
Qed.

Lemma obj_get_In (key : jsstring) (entries : list (jsstring * value)) (v : value) :
  obj_get key entries = Some v -> exists k, In (k, v) entries.
Proof.
  induction entries as [|[k w] rest IH]; [discriminate |].
  cbn [obj_get]. destruct (jsstring_eqb k key).
  - intros H. injection H as <-. exists k. left. reflexivity.
  - intros H. destruct (IH H) as (k' & Hin). exists k'. right. exact Hin.
Qed.

Lemma getProp_defined levels holder key v :
  definedWithin (S levels) holder ->
  getProp holder key = Some v ->
  definedWithin levels v.
Proof.
  destruct holder as [ | b | n | s | slots | entries | proto entries | ];
    destruct key as [i | name];
    cbn [getProp definedWithin]; try discriminate; try contradiction; intros Hd Hget.
  - destruct (nth_error slots i) as [slot|] eqn:Hi; [| discriminate]. subst slot.
    rewrite Forall_forall in Hd. apply (Hd (Some v)). eapply nth_error_In; eauto.
  - destruct (@obj_get_In name entries v Hget) as (k & Hin).
    rewrite Forall_forall in Hd. apply (Hd (k, v) Hin).
  - destruct (@obj_get_In name entries v Hget) as (k & Hin).
    rewrite Forall_forall in Hd. apply (Hd (k, v) Hin).
Qed.

Lemma arr_set_same (i : nat) (slot : option value) (items : list (option value)) :
  nth_error items i = Some slot -> arr_set i slot items = items.
Proof.
  revert i. induction items as [|x items IH]; intros [|i]; cbn; try discriminate.
  - intros H. injection H as <-. reflexivity.
  - intros H. rewrite (IH i H). reflexivity.
Qed.

Lemma obj_replace_same (key : jsstring) (v : value) (entries : list (jsstring * value)) :
  obj_get key entries = Some v -> obj_replace key v entries = entries.
Proof.
  induction entries as [|[k w] rest IH]; [discriminate |].
  cbn [obj_get obj_replace]. destruct (jsstring_eqb k key).
  - intros H. injection H as <-. reflexivity.
  - intros H. rewrite (IH H). reflexivity.
Qed.

Lemma setProp_same holder key v :
  getProp holder key = Some v -> setProp holder key v = holder.
Proof.
  destruct holder as [ | b | n | s | slots | entries | proto entries | ];
    destruct key as [i | name];
    cbn [getProp setProp]; try discriminate; intros Hget.
  - destruct (nth_error slots i) as [slot|] eqn:Hi; [| discriminate]. subst slot.
    rewrite (@arr_set_same i (Some v) slots Hi). reflexivity.
  - unfold obj_set. cbn [entriesOf withEntries].
    rewrite Hget, (@obj_replace_same name v entries Hget). reflexivity.
  - unfold obj_set. cbn [entriesOf withEntries].
    rewrite Hget, (@obj_replace_same name v entries Hget). reflexivity.
Qed.

Lemma updateProp_same holder key v :
  getProp holder key = Some v -> updateProp holder key v = holder.
Proof.
  destruct holder as [ | b | n | s | slots | entries | proto entries | ];
    destruct key as [i | name];
    cbn [getProp updateProp]; try discriminate; intros Hget.
  - destruct (nth_error slots i) as [slot|] eqn:Hi; [| discriminate]. subst slot.
    rewrite (@arr_set_same i (Some v) slots Hi). reflexivity.
  - rewrite (@obj_replace_same name v entries Hget). reflexivity.
  - rewrite (@obj_replace_same name v entries Hget). reflexivity.
Qed.

Lemma obj_replace_defined (P : value -> Prop) key v (entries : list (jsstring * value)) :
  Forall (fun entry => P (snd entry)) entries -> P v ->
  Forall (fun entry => P (snd entry)) (obj_replace key v entries).
Proof.
  intros Hall Hv. induction Hall as [|[k w] rest Hw Hrest IH]; [constructor |].
  cbn [obj_replace]. destruct (jsstring_eqb k key); constructor; auto.
Qed.

Lemma obj_insert_defined (P : value -> Prop) key v (entries : list (jsstring * value)) :
  Forall (fun entry => P (snd entry)) entries -> P v ->
  Forall (fun entry => P (snd entry)) (obj_insert key v entries).
Proof.
  intros Hall Hv. induction Hall as [|[k w] rest Hw Hrest IH].
  - repeat constructor. exact Hv.
  - cbn [obj_insert].
    destruct (arrayIndex key) as [n|]; [destruct (arrayIndex k) as [m|];
                                        [destruct (N.ltb n m) |] |];
      repeat (constructor; auto).
Qed.

Lemma obj_set_defined (P : value -> Prop) key v (obj : value) :
  Forall (fun entry => P (snd entry)) (entriesOf obj) -> P v ->
  Forall (fun entry => P (snd entry)) (entriesOf (obj_set key v obj)).
Proof.
  intros Hall Hv. unfold obj_set.
  assert (Hwith : forall entries,
             Forall (fun entry => P (snd entry)) entries ->
             Forall (fun entry => P (snd entry)) (entriesOf (withEntries obj entries))).
  { intros entries He. destruct obj; cbn [withEntries entriesOf]; auto. }
  destruct (obj_get key (entriesOf obj)).
  - apply Hwith, obj_replace_defined; assumption.
  - destruct (jsstring_eqb key (lit "__proto__") && inheritsAccessor obj).
    + unfold setPrototype. destruct v; cbn [entriesOf]; exact Hall.
    + apply Hwith, obj_insert_defined; assumption.
Qed.

(** An object is defined when the values of its entries are. *)
Lemma object_defined levels (obj : value) :
  (exists entries, obj = VObject entries)
  \/ (exists proto entries, obj = VObjectProto proto entries) ->
  Forall (fun entry => definedWithin levels (snd entry)) (entriesOf obj) ->
  definedWithin (S levels) obj.
Proof.
  intros [(e & ->) | (proto & e & ->)] H; exact H.
Qed.

End DefinedTrees.

Section IdleReviver.
Context {NI : NumberImpl}.
Variable f : jsstring -> value -> revived.
Hypothesis f_idle : forall key v, f key v = Same.

Lemma withCalls_own (s : pstate) : withCalls (reviverCalls s) s = s.
Proof. destruct s; reflexivity. Qed.

(** On a tree with nothing [undefined] in it and with fuel for its
    levels, [recursiveRevive] leaves the holder as it is. *)
Lemma recursiveRevive_idle :
  forall fuel holder s,
    definedWithin fuel holder ->
    exists c, recursiveRevive f fuel holder s = Return (holder, withCalls c s).
Proof.
  induction fuel as [|fuel IH]; intros holder s Hd; [contradiction |].
  cbn [recursiveRevive].
  assert (Hkey : forall key s0,
             exists c, reviveKey f (recursiveRevive f fuel) holder key s0
                       = Return (holder, withCalls c s0)).
  { intros key s0. unfold reviveKey.
    destruct (getProp holder key) as [v|] eqn:Hget.
    - pose proof (@getProp_defined NI fuel holder key v Hd Hget) as Hv.
      unfold callReviver, bind at 1 2, record_revival, ret at 1.
      rewrite f_idle. cbn [newValueOf].
      rewrite (@definedWithin_defined NI fuel v Hv).
      rewrite (@setProp_same NI holder key v Hget), Hget.
      destruct (isContainer v).
      + destruct (IH v {| index := index s0; reviverCalls := reviverCalls s0 ++ [(keyString key, v)] |} Hv)
          as (c & Hrun).
        rewrite (bind_Return _ _ _ Hrun). rewrite (@updateProp_same NI holder key v Hget).
        exists c. reflexivity.
      + exists (reviverCalls s0 ++ [(keyString key, v)]). reflexivity.
    - exists (reviverCalls s0). unfold ret. rewrite withCalls_own. reflexivity. }
  generalize (ownKeys holder) as keys. intros keys. revert s.
  induction keys as [|key keys IHkeys]; intros s.
  - exists (reviverCalls s). cbn. rewrite withCalls_own. reflexivity.
  - cbn [forKeys]. destruct (Hkey key s) as (c & Hrun).
    rewrite (bind_Return _ _ _ Hrun).
    destruct (IHkeys (withCalls c s)) as (c' & Hrest).
    exists c'. rewrite Hrest. reflexivity.
Qed.

Lemma applyReviver_idle fuel levels obj s :
  definedWithin levels obj ->
  S levels <= fuel ->
  exists c, applyReviver (Some f) fuel obj s = Return (obj, withCalls c s).
Proof.
  intros Hd Hfuel. unfold applyReviver.
  destruct (isContainer obj);
    [| exists (reviverCalls s); unfold ret; rewrite withCalls_own; reflexivity].
  destruct fuel as [|fuel]; [lia |].
  assert (Hholder : definedWithin (S fuel) (VObject [([], obj)])).
  { cbn [definedWithin]. constructor; [| constructor].
    cbn [snd]. apply (@definedWithin_more NI levels fuel obj Hd). lia. }
  destruct (@recursiveRevive_idle (S fuel) (VObject [([], obj)]) s Hholder) as (c & Hrun).
  rewrite (bind_Return _ _ _ Hrun). rewrite f_idle.
  exists c. reflexivity.
Qed.

Section IdleLoops.
Variable json : jsstring.
Variable fuel : nat.
Variable pv pv' : M pstate value.
Hypothesis pv_idle :
  forall s v s1,
    pv s = Return (v, s1) ->
    definedWithin fuel v
    /\ forall c, exists c1, pv' (withCalls c s) = Return (v, withCalls c1 s1).

Lemma parseArrayLoop_idle :
  forall n acc s res s1,
    parseArrayLoop json pv n acc s = Return (res, s1) ->
    Forall (fun slot => match slot with
                        | Some x => definedWithin fuel x
                        | None => True
                        end) acc ->
    Forall (fun slot => match slot with
                        | Some x => definedWithin fuel x
                        | None => True
                        end) res
    /\ forall more c,
        exists c1, parseArrayLoop json pv' (n + more) acc (withCalls c s)
                   = Return (res, withCalls c1 s1).
Proof.
  induction n as [|n IH]; intros acc s res s1 H Hacc; [discriminate |].
  cbn [parseArrayLoop] in H.
  apply bind_Return_inv in H. destruct H as ([] & sa & Hskip1 & H).
  apply bind_Return_inv in H. destruct H as (v & sb & Hv & H).
  apply bind_Return_inv in H. destruct H as ([] & sc & Hskip2 & H).
  rewrite peek_bind in H.
  destruct (@pv_idle _ _ _ Hv) as [Hdef Hv'].
  assert (Hacc' : Forall (fun slot => match slot with
                                      | Some x => definedWithin fuel x
                                      | None => True
                                      end) (acc ++ [Some v])).
  { apply Forall_app. split; [exact Hacc | constructor; [exact Hdef | constructor]]. }
  assert (Hstart : forall c (k : value -> M pstate (list (option value))),
             exists c1,
               (skipWhitespace json ;;; x <- pv' ;; skipWhitespace json ;;; k x)
                 (withCalls c s)
               = k v (withCalls c1 sc)).
  { intros c k.
    rewrite (bind_Return _ _ _ (proj2 (@steady_skipWhitespace NI json _ _ _ Hskip1) c)).
    destruct (Hv' c) as (c1 & Hrun). rewrite (bind_Return _ _ _ Hrun).
    rewrite (bind_Return _ _ _ (proj2 (@steady_skipWhitespace NI json _ _ _ Hskip2) c1)).
    exists c1. reflexivity. }
  destruct (charIs (ch "]") (charAt json (index sc))) eqn:Hclose.
  - rewrite advance_bind in H. unfold ret in H. injection H as <- <-.
    split; [exact Hacc' |]. intros more c.
    cbn [Nat.add parseArrayLoop].
    destruct (Hstart c
                (fun x => c0 <- peek json ;;
                          if charIs (ch "]") c0 then advance 1 ;;; ret (acc ++ [Some x])
                          else if negb (charIs (ch ",") c0)
                               then throw (SyntaxError ExpectedComma)
                               else advance 1 ;;;
                                    parseArrayLoop json pv' (n + more) (acc ++ [Some x])))
      as (c1 & Hrun).
    exists c1. rewrite Hrun. rewrite peek_bind. cbn [withCalls index]. rewrite Hclose.
    reflexivity.
  - destruct (negb (charIs (ch ",") (charAt json (index sc)))) eqn:Hcomma; [discriminate |].
    rewrite advance_bind in H.
    destruct (IH _ _ _ _ H Hacc') as [Hres Hloop].
    split; [exact Hres |]. intros more c.
    cbn [Nat.add parseArrayLoop].
    destruct (Hstart c
                (fun x => c0 <- peek json ;;
                          if charIs (ch "]") c0 then advance 1 ;;; ret (acc ++ [Some x])
                          else if negb (charIs (ch ",") c0)
                               then throw (SyntaxError ExpectedComma)
                               else advance 1 ;;;
                                    parseArrayLoop json pv' (n + more) (acc ++ [Some x])))
      as (c1 & Hrun).
    rewrite Hrun. rewrite peek_bind. cbn [withCalls index]. rewrite Hclose, Hcomma.
    rewrite advance_bind. cbn [index reviverCalls].
    destruct (Hloop more c1) as (c2 & Hrest). exists c2. exact Hrest.
Qed.

Variable keyFuel : nat.

Lemma parseObjectLoop_idle :
  forall n acc s res s1,
    parseObjectLoop json pv keyFuel n acc s = Return (res, s1) ->
    Forall (fun entry => definedWithin fuel (snd entry)) (entriesOf acc) ->
    Forall (fun entry => definedWithin fuel (snd entry)) (entriesOf res)
    /\ forall more c,
        exists c1, parseObjectLoop json pv' (keyFuel + more) (n + more) acc (withCalls c s)
                   = Return (res, withCalls c1 s1).
Proof.
  induction n as [|n IH]; intros acc s res s1 H Hacc; [discriminate |].
  cbn [parseObjectLoop] in H.
  apply bind_Return_inv in H. destruct H as ([] & sa & Hskip1 & H).
  apply bind_Return_inv in H. destruct H as (key & sb & Hkey & H).
  apply bind_Return_inv in H. destruct H as ([] & sc & Hskip2 & H).
  rewrite peek_bind in H.
  destruct (negb (charIs (ch ":") (charAt json (index sc)))) eqn:Hcolon; [discriminate |].
  rewrite advance_bind in H.
  apply bind_Return_inv in H. destruct H as ([] & sd & Hskip3 & H).
  apply bind_Return_inv in H. destruct H as (v & se & Hv & H).
  apply bind_Return_inv in H. destruct H as ([] & sf & Hskip4 & H).
  rewrite peek_bind in H.
  destruct (@pv_idle _ _ _ Hv) as [Hdef Hv'].
  pose proof (@obj_set_defined NI (definedWithin fuel) key v acc Hacc Hdef) as Hacc'.
  assert (Hstart : forall more c (k : jsstring -> value -> M pstate value),
             exists c1,
               (skipWhitespace json ;;;
                key0 <- parseString json (keyFuel + more) ;;
                skipWhitespace json ;;;
                c0 <- peek json ;;
                if negb (charIs (ch ":") c0) then throw (SyntaxError ExpectedColon)
                else advance 1 ;;;
                     skipWhitespace json ;;;
                     x <- pv' ;;
                     skipWhitespace json ;;; k key0 x)
                 (withCalls c s)
               = k key v (withCalls c1 sf)).
  { intros more c k.
    rewrite (bind_Return _ _ _ (proj2 (@steady_skipWhitespace NI json _ _ _ Hskip1) c)).
    rewrite (bind_Return _ _ _ (proj2 (@steady_parseString NI json keyFuel more _ _ _ Hkey) c)).
    rewrite (bind_Return _ _ _ (proj2 (@steady_skipWhitespace NI json _ _ _ Hskip2) c)).
    rewrite peek_bind. cbn [withCalls index]. rewrite Hcolon.
    rewrite advance_bind. cbn [index reviverCalls].
    rewrite (bind_Return _ _ _ (proj2 (@steady_skipWhitespace NI json _ _ _ Hskip3) c)).
    destruct (Hv' c) as (c1 & Hrun). rewrite (bind_Return _ _ _ Hrun).
    rewrite (bind_Return _ _ _ (proj2 (@steady_skipWhitespace NI json _ _ _ Hskip4) c1)).
    exists c1. reflexivity. }
  destruct (charIs (ch "}") (charAt json (index sf))) eqn:Hclose.
  - rewrite advance_bind in H. unfold ret in H. injection H as <- <-.
    split; [exact Hacc' |]. intros more c.
    cbn [Nat.add parseObjectLoop].
    destruct (Hstart more c
                (fun key0 x =>
                   c0 <- peek json ;;
                   if charIs (ch "}") c0 then advance 1 ;;; ret (obj_set key0 x acc)
                   else if negb (charIs (ch ",") c0)
                        then throw (SyntaxError ExpectedComma)
                        else advance 1 ;;;
                             parseObjectLoop json pv' (keyFuel + more) (n + more)
                                             (obj_set key0 x acc)))
      as (c1 & Hrun).
    exists c1. rewrite Hrun. rewrite peek_bind. cbn [withCalls index]. rewrite Hclose.
    reflexivity.
  - destruct (negb (charIs (ch ",") (charAt json (index sf)))) eqn:Hcomma; [discriminate |].
    rewrite advance_bind in H.
    destruct (IH _ _ _ _ H Hacc') as [Hres Hloop].
    split; [exact Hres |]. intros more c.
    cbn [Nat.add parseObjectLoop].
    destruct (Hstart more c
                (fun key0 x =>
                   c0 <- peek json ;;
                   if charIs (ch "}") c0 then advance 1 ;;; ret (obj_set key0 x acc)
                   else if negb (charIs (ch ",") c0)
                        then throw (SyntaxError ExpectedComma)
                        else advance 1 ;;;
                             parseObjectLoop json pv' (keyFuel + more) (n + more)
                                             (obj_set key0 x acc)))
      as (c1 & Hrun).
    rewrite Hrun. rewrite peek_bind. cbn [withCalls index]. rewrite Hclose, Hcomma.
    rewrite advance_bind. cbn [index reviverCalls].
    destruct (Hloop more c1) as (c2 & Hrest). exists c2. exact Hrest.
Qed.

End IdleLoops.

End IdleReviver.

Section IdleParse.
Context {NI : NumberImpl}.
Variable f : jsstring -> value -> revived.
Hypothesis f_idle : forall key v, f key v = Same.
Variable json : jsstring.

Lemma parseLiteral_value literal x s v s1 :
  parseLiteral json literal x s = Return (v, s1) -> v = x.
Proof.
  unfold parseLiteral, bind, get. destruct (jsstring_eqb _ _); [| discriminate].
  unfold advance, ret. intros H. injection H as <- _. reflexivity.
Qed.

Lemma parseNumber_value s v s1 :
  parseNumber json s = Return (v, s1) -> exists n, v = VNumber n.
Proof.
  unfold parseNumber, bind, get. destruct (numberRegex _); [| discriminate].
  unfold advance, ret. intros H. injection H as <- _. eauto.
Qed.

(** What [parseValue] returns without reviver has nothing [undefined]
    in it and no more levels than the fuel, and [parseValue] returns it
    as well, given two more units of fuel, with a reviver that gives
    every value back. *)
Lemma parseValue_idle :
  forall fuel s v s1,
    parseValue json None fuel s = Return (v, s1) ->
    definedWithin fuel v
    /\ forall c, exists c1,
         parseValue json (Some f) (fuel + 2) (withCalls c s) = Return (v, withCalls c1 s1).
Proof.
  induction fuel as [|fuel IH]; intros s v s1 H; [discriminate |].
  cbn [parseValue] in H.
  apply bind_Return_inv in H. destruct H as ([] & sa & Hskip & H).
  rewrite peek_bind in H.
  assert (Henter : forall c (k : option codeunit -> M pstate value),
             (skipWhitespace json ;;; char <- peek json ;; k char) (withCalls c s)
             = k (charAt json (index sa)) (withCalls c sa)).
  { intros c k.
    rewrite (bind_Return _ _ _ (proj2 (@steady_skipWhitespace NI json _ _ _ Hskip) c)).
    rewrite peek_bind. reflexivity. }
  destruct (charIs QUOTE (charAt json (index sa))) eqn:Hquote.
  { apply bind_Return_inv in H. destruct H as (str & sb & Hstr & H).
    unfold ret in H. injection H as <- <-.
    split; [exact I |]. intros c. cbn [Nat.add parseValue].
    rewrite Henter, Hquote.
    rewrite (bind_Return _ _ _ (proj2 (@steady_parseString NI json fuel 2 _ _ _ Hstr) c)).
    exists c. reflexivity. }
  destruct (charIs (ch "{") (charAt json (index sa))) eqn:Hbrace.
  { unfold parseObject in H. rewrite advance_bind in H.
    apply bind_Return_inv in H. destruct H as ([] & sb & Hskip2 & H).
    rewrite peek_bind in H.
    assert (Hbody : forall c (k : option codeunit -> M pstate value),
               (advance 1 ;;; skipWhitespace json ;;; c0 <- peek json ;; k c0)
                 (withCalls c sa)
               = k (charAt json (index sb)) (withCalls c sb)).
    { intros c k. rewrite advance_bind. cbn [withCalls index reviverCalls].
      rewrite (bind_Return _ _ _ (proj2 (@steady_skipWhitespace NI json _ _ _ Hskip2) c)).
      rewrite peek_bind. reflexivity. }
    destruct (charIs (ch "}") (charAt json (index sb))) eqn:Hclose.
    - rewrite advance_bind in H. unfold applyReviver, ret in H. injection H as <- <-.
      split; [constructor |]. intros c. cbn [Nat.add parseValue].
      rewrite Henter, Hquote, Hbrace. unfold parseObject.
      rewrite Hbody, Hclose. rewrite advance_bind. cbn [withCalls index reviverCalls].
      destruct (@applyReviver_idle NI f f_idle (fuel + 2) 1 (VObject [])
                  {| index := index sb + 1; reviverCalls := c |}
                  ltac:(constructor) ltac:(lia)) as (c1 & Hrun).
      exists c1. exact Hrun.
    - apply bind_Return_inv in H. destruct H as (res & sc & Hloop & H).
      unfold applyReviver, ret in H. injection H as <- <-.
      destruct (@parseObjectLoop_idle NI json fuel (parseValue json None fuel)
                  (parseValue json (Some f) (fuel + 2)) IH fuel fuel (VObject []) sb res sc
                  Hloop ltac:(constructor)) as [Hentries Hloop'].
      assert (Hres : definedWithin (S fuel) res).
      { apply object_defined; [| exact Hentries].
        apply parseObjectLoop_keys in Hloop;
          [apply Hloop | left; eauto | split; [constructor | intros []]]. }
      split; [exact Hres |]. intros c. cbn [Nat.add parseValue].
      rewrite Henter, Hquote, Hbrace. unfold parseObject.
      rewrite Hbody, Hclose.
      destruct (Hloop' 2 c) as (c1 & Hrun). rewrite (bind_Return _ _ _ Hrun).
      destruct (@applyReviver_idle NI f f_idle (fuel + 2) (S fuel) res
                  (withCalls c1 sc) Hres ltac:(lia)) as (c2 & Hrevive).
      exists c2. exact Hrevive. }
  destruct (charIs (ch "[") (charAt json (index sa))) eqn:Hbracket.
  { unfold parseArray in H. rewrite advance_bind in H.
    apply bind_Return_inv in H. destruct H as ([] & sb & Hskip2 & H).
    rewrite peek_bind in H.
    assert (Hbody : forall c (k : option codeunit -> M pstate value),
               (advance 1 ;;; skipWhitespace json ;;; c0 <- peek json ;; k c0)
                 (withCalls c sa)
               = k (charAt json (index sb)) (withCalls c sb)).
    { intros c k. rewrite advance_bind. cbn [withCalls index reviverCalls].
      rewrite (bind_Return _ _ _ (proj2 (@steady_skipWhitespace NI json _ _ _ Hskip2) c)).
      rewrite peek_bind. reflexivity. }
    destruct (charIs (ch "]") (charAt json (index sb))) eqn:Hclose.
    - rewrite advance_bind in H. unfold applyReviver, ret in H. injection H as <- <-.
      split; [constructor |]. intros c. cbn [Nat.add parseValue].
      rewrite Henter, Hquote, Hbrace, Hbracket. unfold parseArray.
      rewrite Hbody, Hclose. rewrite advance_bind. cbn [withCalls index reviverCalls].
      destruct (@applyReviver_idle NI f f_idle (fuel + 2) 1 (VArray [])
                  {| index := index sb + 1; reviverCalls := c |}
                  ltac:(constructor) ltac:(lia)) as (c1 & Hrun).
      exists c1. exact Hrun.
    - apply bind_Return_inv in H. destruct H as (res & sc & Hloop & H).
      unfold applyReviver, ret in H. injection H as <- <-.
      destruct (@parseArrayLoop_idle NI json fuel (parseValue json None fuel)
                  (parseValue json (Some f) (fuel + 2)) IH fuel [] sb res sc Hloop
                  ltac:(constructor)) as [Hres Hloop'].
      split; [exact Hres |]. intros c. cbn [Nat.add parseValue].
      rewrite Henter, Hquote, Hbrace, Hbracket. unfold parseArray.
      rewrite Hbody, Hclose.
      destruct (Hloop' 2 c) as (c1 & Hrun). rewrite (bind_Return _ _ _ Hrun).
      destruct (@applyReviver_idle NI f f_idle (fuel + 2) (S fuel) (VArray res)
                  (withCalls c1 sc) Hres ltac:(lia)) as (c2 & Hrevive).
      exists c2. exact Hrevive. }
  assert (Hliteral : forall literal x,
             parseLiteral json literal x sa = Return (v, s1) ->
             (x = VNull \/ exists b, x = VBoolean b) ->
             definedWithin (S fuel) v
             /\ forall c, parseLiteral json literal x (withCalls c sa)
                          = Return (v, withCalls c s1)).
  { intros literal x Hl Hx.
    pose proof (@parseLiteral_value literal x sa v s1 Hl) as Hv.
    split; [rewrite Hv; destruct Hx as [-> | [b ->]]; exact I |].
    exact (proj2 (@steady_parseLiteral NI json _ _ _ _ _ Hl)). }
  destruct (charIs (ch "t") (charAt json (index sa))) eqn:Ht.
  { destruct (Hliteral _ _ H ltac:(right; eauto)) as [Hd Hrun].
    split; [exact Hd |]. intros c. cbn [Nat.add parseValue].
    rewrite Henter, Hquote, Hbrace, Hbracket, Ht. exists c. apply Hrun. }
  destruct (charIs (ch "f") (charAt json (index sa))) eqn:Hf.
  { destruct (Hliteral _ _ H ltac:(right; eauto)) as [Hd Hrun].
    split; [exact Hd |]. intros c. cbn [Nat.add parseValue].
    rewrite Henter, Hquote, Hbrace, Hbracket, Ht, Hf. exists c. apply Hrun. }
  destruct (charIs (ch "n") (charAt json (index sa))) eqn:Hn.
  { destruct (Hliteral _ _ H ltac:(left; reflexivity)) as [Hd Hrun].
    split; [exact Hd |]. intros c. cbn [Nat.add parseValue].
    rewrite Henter, Hquote, Hbrace, Hbracket, Ht, Hf, Hn. exists c. apply Hrun. }
  destruct (charIs (ch "-") (charAt json (index sa)) || isDigit (charAt json (index sa)))
    eqn:Hnum; [| discriminate].
  destruct (@parseNumber_value sa v s1 H) as (n & ->).
  split; [exact I |]. intros c. cbn [Nat.add parseValue].
  rewrite Henter, Hquote, Hbrace, Hbracket, Ht, Hf, Hn, Hnum.
  exists c. apply (proj2 (@steady_parseNumber NI json _ _ _ H)).
Qed.

End IdleParse.

(** X19. A reviver that gives every value back makes no difference to what
    [myParse] returns: when [myParse] without reviver returns a value,
    it returns the same value with such a reviver, given two more units
    of fuel for the calls of [recursiveRevive]. *)
Theorem idle_reviver_changes_nothing {NI : NumberImpl}
        (json : jsstring) (fuel : nat) (f : jsstring -> value -> revived) (v : value) :
  (forall key x, f key x = Same) ->
  myParse fuel json None = Return v ->
  myParse (fuel + 2) json (Some f) = Return v.
Proof.
  intros Hidle. unfold myParse, runParse, parseText. intros H.
  destruct (parseValue json None fuel start) as [[v0 s1]| |] eqn:Hvalue;
    [| unfold bind in H; rewrite Hvalue in H; discriminate
     | unfold bind in H; rewrite Hvalue in H; discriminate].
  rewrite (bind_Return _ _ _ Hvalue) in H.
  destruct (skipWhitespace_skips json s1) as (s2 & Hskip & _ & _).
  rewrite (bind_Return _ _ _ Hskip) in H.
  unfold bind at 1, get at 1 in H.
  destruct (Nat.ltb (index s2) (length json)) eqn:Hend; [discriminate |].
  unfold ret in H. injection H as ->.
  destruct (proj2 (@parseValue_idle NI f Hidle json fuel start v s1 Hvalue) [])
    as (c1 & Hrun).
  change (withCalls [] start) with start in Hrun.
  rewrite (bind_Return _ _ _ Hrun).
  rewrite (bind_Return _ _ _ (proj2 (@steady_skipWhitespace NI json _ _ _ Hskip) c1)).
  unfold bind at 1, get at 1. cbn [withCalls index]. rewrite Hend.
  unfold callReviver, bind, record_revival, ret. rewrite Hidle. reflexivity.
Qed.

Lemma keeping_reviver_witness :
  @myParse IntegerNumbers 9 (qlit "{'a':[1,{'b':null}],'c':'x'}") (Some (fun _ _ => Same))
  = Return (VObject [(lit "a", VArray [Some (vnum 1); Some (VObject [(lit "b", VNull)])]);
                     (lit "c", VString (lit "x"))]).
Proof.
  apply (@idle_reviver_changes_nothing IntegerNumbers
           (qlit "{'a':[1,{'b':null}],'c':'x'}") 7 (fun _ _ => Same)); reflexivity.
Defined.

(* ================================================================== *)
(** ** Texts that are rejected at their first character *)

Section FirstCharacter.
Context {NI : NumberImpl}.
Variable reviver : option (jsstring -> value -> revived).

(** After leading white space [parseValue] decides on the character it
    finds. *)
Lemma parseValue_first (w : jsstring) (c : codeunit) (rest : jsstring) fuel :
  forallb whitespace w = true ->
  whitespace c = false ->
  parseValue (w ++ c :: rest) reviver (S fuel) start
  = (if charIs QUOTE (Some c) then s <- parseString (w ++ c :: rest) fuel ;; ret (VString s)
     else if charIs (ch "{") (Some c)
          then parseObject (w ++ c :: rest) reviver
                           (parseValue (w ++ c :: rest) reviver fuel) fuel
     else if charIs (ch "[") (Some c)
          then parseArray (w ++ c :: rest) reviver
                          (parseValue (w ++ c :: rest) reviver fuel) fuel
     else if charIs (ch "t") (Some c)
          then parseLiteral (w ++ c :: rest) (lit "true") (VBoolean true)
     else if charIs (ch "f") (Some c)
          then parseLiteral (w ++ c :: rest) (lit "false") (VBoolean false)
     else if charIs (ch "n") (Some c)
          then parseLiteral (w ++ c :: rest) (lit "null") VNull
     else if charIs (ch "-") (Some c) || isDigit (Some c)
          then parseNumber (w ++ c :: rest)
     else throw (SyntaxError UnexpectedCharacter))
      {| index := length w; reviverCalls := [] |}.
Proof.
  intros Hw Hc. cbn [parseValue].
  rewrite (bind_Return _ _ _ (@skips_run _ (w ++ c :: rest) start (length w)
                                         (skips_prefix w (c :: rest) Hw Hc))).
  rewrite peek_bind. cbn [index]. unfold charAt. rewrite nth_error_after. reflexivity.
Qed.

Lemma myParse_Throw (json : jsstring) fuel e :
  parseValue json reviver fuel start = Throw e -> myParse fuel json reviver = Throw e.
Proof.
  intros H. unfold myParse, runParse, parseText, bind. rewrite H. reflexivity.
Qed.

End FirstCharacter.

(** X20. A text whose first character after white space opens no value
    (it is no quote, brace, bracket, digit or minus sign and none of the
    letters [t], [f] and [n]) is rejected with the error of an unexpected
    character. *)
Theorem unexpected_first_character {NI : NumberImpl}
        (w : jsstring) (c : codeunit) (rest : jsstring) (fuel : nat)
        (reviver : option (jsstring -> value -> revived)) :
  forallb whitespace w = true ->
  whitespace c = false ->
  existsb (N.eqb c) [QUOTE; ch "{"; ch "["; ch "t"; ch "f"; ch "n"; ch "-"] = false ->
  isDigitUnit c = false ->
  myParse (S fuel) (w ++ c :: rest) reviver = Throw (SyntaxError UnexpectedCharacter).
Proof.
  intros Hw Hc Hopen Hdigit. apply myParse_Throw.
  rewrite parseValue_first by assumption.
  cbn [existsb] in Hopen.
  repeat (apply orb_false_elim in Hopen; destruct Hopen as [? Hopen]).
  cbn [charIs isDigit].
  repeat match goal with
         | H : N.eqb c _ = false |- _ => rewrite H; clear H
         end.
  rewrite Hdigit. reflexivity.
Qed.

Lemma closing_bracket_witness :
  @myParse IntegerNumbers 1 (lit " ]") None = Throw (SyntaxError UnexpectedCharacter).
Proof.
  apply (@unexpected_first_character IntegerNumbers (lit " ") (ch "]") [] 0 None);
    reflexivity.
Defined.

(** X21. A text that begins, after white space, with the first letter of
    [true], [false] or [null] and does not go on as that word is
    rejected with the error of an unexpected token, the same error for
    the three words: its message does not name the word. *)
Theorem misspelt_literal_is_rejected {NI : NumberImpl}
        (w rest literal : jsstring) (v : value) (fuel : nat)
        (reviver : option (jsstring -> value -> revived)) :
  In (literal, v) [(lit "true", VBoolean true); (lit "false", VBoolean false);
                   (lit "null", VNull)] ->
  forallb whitespace w = true ->
  nth_error rest 0 = nth_error literal 0 ->
  jsstring_eqb (firstn (length literal) rest) literal = false ->
  myParse (S fuel) (w ++ rest) reviver = Throw (SyntaxError UnexpectedToken).
Proof.
  intros Hin Hw Hhead Hword. apply myParse_Throw.
  assert (Hslice : slice (w ++ rest) (length w) (length literal)
                   = firstn (length literal) rest).
  { unfold slice. rewrite skipn_app, skipn_all, Nat.sub_diag. reflexivity. }
  destruct rest as [|c rest];
    [destruct Hin as [H | [H | [H | []]]]; injection H as <- _; discriminate |].
  assert (Hthrow : parseLiteral (w ++ c :: rest) literal v
                                {| index := length w; reviverCalls := [] |}
                   = Throw (SyntaxError UnexpectedToken)).
  { unfold parseLiteral, bind, get. cbn [index]. rewrite Hslice, Hword. reflexivity. }
  destruct Hin as [H | [H | [H | []]]]; injection H as <- <-;
    cbn [nth_error] in Hhead; injection Hhead as ->;
    (rewrite parseValue_first by (try exact Hw; reflexivity));
    exact Hthrow.
Qed.

Lemma truncated_word_witness :
  @myParse IntegerNumbers 1 (lit "nul") None = Throw (SyntaxError UnexpectedToken).
Proof.
  apply (@misspelt_literal_is_rejected IntegerNumbers [] (lit "nul") (lit "null") VNull 0 None).
  - right. right. left. reflexivity.
  - reflexivity.
  - reflexivity.
  - reflexivity.
Defined.

(** X22. A minus sign that no digit follows, after white space, is rejected
    with the error of an invalid number. *)
Theorem lone_minus_is_rejected {NI : NumberImpl}
        (w rest : jsstring) (fuel : nat)
        (reviver : option (jsstring -> value -> revived)) :
  forallb whitespace w = true ->
  isDigit (nth_error rest 0) = false ->
  myParse (S fuel) (w ++ ch "-" :: rest) reviver = Throw (SyntaxError InvalidNumber).
Proof.
  intros Hw Hrest. apply myParse_Throw.
  rewrite parseValue_first by (try exact Hw; reflexivity).
  change (charIs QUOTE (Some (ch "-"))) with false.
  change (charIs (ch "{") (Some (ch "-"))) with false.
  change (charIs (ch "[") (Some (ch "-"))) with false.
  change (charIs (ch "t") (Some (ch "-"))) with false.
  change (charIs (ch "f") (Some (ch "-"))) with false.
  change (charIs (ch "n") (Some (ch "-"))) with false.
  change (charIs (ch "-") (Some (ch "-"))) with true.
  cbv iota. cbn [orb].
  unfold parseNumber, bind, get. cbn [index].
  rewrite skipn_app, skipn_all, Nat.sub_diag. cbn [skipn app].
  assert (Hre : numberRegex (ch "-" :: rest) = None).
  { unfold numberRegex. cbv zeta. cbn [matchSign]. rewrite N.eqb_refl. cbn [skipn].
    assert (Hrun : digitRun rest = 0).
    { destruct rest as [|c rest']; [reflexivity |].
      cbn [nth_error isDigit] in Hrest. cbn [digitRun]. rewrite Hrest. reflexivity. }
    rewrite Hrun. reflexivity. }
  rewrite Hre. reflexivity.
Qed.

Lemma minus_letter_witness :
  @myParse IntegerNumbers 1 (lit "-x") None = Throw (SyntaxError InvalidNumber).
Proof.
  apply (@lone_minus_is_rejected IntegerNumbers [] (lit "x") 0 None); reflexivity.
Defined.

(* ================================================================== *)
(** ** Escapes that [parseString] does not know *)

(** X23. A backslash before a character that is not in the table of
    [parseString] stands for that character: the text of a quote, a
    backslash, such a character, characters that are neither quote nor
    backslash, and a quote is read as the string of the character and
    what follows it. A backslash before the letter [u] and four
    hexadecimal digits is read in this way, as the letter and the
    digits. *)
Theorem unknown_escape_is_the_character {NI : NumberImpl}
        (c : codeunit) (body : jsstring) (fuel : nat) :
  unescapes c = None ->
  forallb (fun x => negb (N.eqb x QUOTE || N.eqb x BACKSLASH)) body = true ->
  length body + 2 < fuel ->
  myParse fuel (QUOTE :: BACKSLASH :: c :: body ++ [QUOTE]) None
  = Return (VString (c :: body)).
Proof.
  intros Hc Hbody Hfuel.
  destruct fuel as [|[|fuel]]; [lia | lia |].
  apply myParse_whole with (calls := []).
  pose proof (@parseValue_first NI None [] QUOTE (BACKSLASH :: c :: body ++ [QUOTE])
                                (S fuel) eq_refl eq_refl) as Hfirst.
  cbn [app length] in Hfirst. rewrite Hfirst. clear Hfirst.
  change (charIs QUOTE (Some QUOTE)) with true. cbv iota.
  unfold parseString. unfold bind at 1. rewrite advance_bind. cbn [index reviverCalls].
  cbn [parseStringLoop]. rewrite peek_bind. cbn [index charAt nth_error Nat.add].
  change (charIs QUOTE (Some BACKSLASH)) with false.
  change (charIs BACKSLASH (Some BACKSLASH)) with true. cbv iota.
  rewrite advance_bind. rewrite peek_bind. cbn [index reviverCalls charAt nth_error Nat.add].
  cbn [option_map]. unfold unescaped. rewrite Hc. rewrite append_bind.
  rewrite advance_bind. cbn [index reviverCalls Nat.add app].
  pose proof (@parseStringLoop_plain NI body [QUOTE; BACKSLASH; c] [] [c] fuel []
                                     Hbody ltac:(unfold jsstring, codeunit in *; lia))
    as Hloop.
  cbn [app length] in Hloop.
  match goal with
  | |- match ?run with _ => _ end = _ =>
      assert (Hrun : run = Return ([c] ++ body,
                                   {| index := 3 + length body + 1; reviverCalls := [] |}))
        by exact Hloop;
      rewrite Hrun
  end.
  unfold ret. cbn [app]. do 3 f_equal. length_eq.
Qed.

Lemma unicode_escape_witness :
  @myParse IntegerNumbers 7 (qlit "'\u0041'") None = Return (VString (lit "u0041")).
Proof.
  apply (@unknown_escape_is_the_character IntegerNumbers (ch "u") (lit "0041") 7).
  - reflexivity.
  - reflexivity.
  - simpl. lia.
Defined.

(* ================================================================== *)
(** ** Entries and elements that are not separated as they should be *)

Section Rejecting.
Context {NI : NumberImpl}.

Lemma rejects_bind {A B} (p : jsstring -> M pstate A) (k : A -> jsstring -> M pstate B)
      (b1 b2 : jsstring) (a : A) (e : exn) (ok1 ok : jsstring -> Prop) :
  consumes p b1 a ok1 ->
  (forall post, ok post -> ok1 (b2 ++ post)) ->
  rejects (k a) b2 e ok ->
  rejects (fun json => bind (p json) (fun x => k x json)) (b1 ++ b2) e ok.
Proof.
  intros Hp Hok Hk pre post calls Hpost.
  rewrite <- app_assoc.
  rewrite (bind_Return _ _ _ (Hp pre (b2 ++ post) calls (Hok _ Hpost))).
  pose proof (Hk (pre ++ b1) post calls Hpost) as H.
  rewrite <- app_assoc in H. rewrite length_app in H. exact H.
Qed.

Lemma rejects_first {A B} (p : jsstring -> M pstate A) (k : A -> jsstring -> M pstate B)
      (body : jsstring) (e : exn) (ok : jsstring -> Prop) :
  rejects p body e ok ->
  rejects (fun json => bind (p json) (fun x => k x json)) body e ok.
Proof.
  intros Hp pre post calls Hpost. unfold bind. rewrite (Hp pre post calls Hpost).
  reflexivity.
Qed.

Lemma rejects_peek {B} (k : option codeunit -> jsstring -> M pstate B)
      (c : codeunit) (body : jsstring) (e : exn) (ok : jsstring -> Prop) :
  nth_error body 0 = Some c ->
  rejects (k (Some c)) body e ok ->
  rejects (fun json => bind (peek json) (fun x => k x json)) body e ok.
Proof.
  intros Hc Hk pre post calls Hpost. rewrite peek_bind. cbn [index].
  rewrite (head_in_text pre body post Hc). apply Hk. exact Hpost.
Qed.

Lemma rejects_throw {A} (body : jsstring) (e : exn) (ok : jsstring -> Prop) :
  rejects (fun _ => @throw pstate A e) body e ok.
Proof. intros pre post calls _. reflexivity. Qed.

Lemma rejects_body {A} (p : jsstring -> M pstate A) (body body' : jsstring) (e : exn)
      (ok : jsstring -> Prop) :
  body = body' -> rejects p body' e ok -> rejects p body e ok.
Proof. intros ->. auto. Qed.

End Rejecting.

Ltac step_to_error first rest :=
  match goal with
  | |- rejects (fun json => bind (@?run json) (fun x => @?next json x)) _ _ _ =>
      apply rejects_body with (body' := first ++ rest);
      [ try text_eq
      | eapply rejects_bind with (p := run) (k := fun x json => next json x)
                                 (b1 := first) (b2 := rest) ]
  end.

(** X24. An object whose first key is not followed by a colon: after
    the opening brace, a key between quotes with neither quote nor
    backslash in it, and a character other than white space and the
    colon, [myParse] throws the error that a colon was expected,
    whatever white space stands around the brace and the key, with or
    without reviver. *)
Theorem key_without_colon_is_rejected {NI : NumberImpl}
        (w w1 w2 key : jsstring) (c : codeunit) (rest : jsstring) (fuel : nat)
        (reviver : option (jsstring -> value -> revived)) :
  forallb whitespace w = true ->
  forallb whitespace w1 = true ->
  forallb whitespace w2 = true ->
  forallb (fun x => negb (N.eqb x QUOTE || N.eqb x BACKSLASH)) key = true ->
  whitespace c = false ->
  N.eqb c (ch ":") = false ->
  length key < fuel ->
  myParse (S fuel) (w ++ ch "{" :: w1 ++ (QUOTE :: key ++ [QUOTE]) ++ w2 ++ c :: rest) reviver
  = Throw (SyntaxError ExpectedColon).
Proof.
  intros Hw Hw1 Hw2 Hkey Hc Hcolon Hfuel. apply myParse_Throw.
  rewrite parseValue_first by (try exact Hw; reflexivity).
  change (charIs QUOTE (Some (ch "{"))) with false.
  change (charIs (ch "{") (Some (ch "{"))) with true. cbv iota.
  set (pv := fun json => parseValue json reviver fuel).
  assert (Hobject : rejects (fun json => parseObject json reviver (pv json) fuel)
                            (ch "{" :: w1 ++ (QUOTE :: key ++ [QUOTE]) ++ w2 ++ [c])
                            (SyntaxError ExpectedColon) (fun _ => True)).
  { unfold parseObject.
    step_to_error [ch "{"] (w1 ++ (QUOTE :: key ++ [QUOTE]) ++ w2 ++ [c]);
      [apply consumes_advance with (ok := fun _ => True) | intros post _; exact I |].
    cbv beta.
    step_to_error w1 ((QUOTE :: key ++ [QUOTE]) ++ w2 ++ [c]);
      [apply consumes_skip; exact Hw1 | intros post _; reflexivity |].
    cbv beta.
    apply rejects_peek with (c := QUOTE); [reflexivity |].
    change (charIs (ch "}") (Some QUOTE)) with false. cbv iota.
    apply rejects_first.
    destruct fuel as [|n]; [lia |]. cbn [parseObjectLoop].
    step_to_error (@nil codeunit) ((QUOTE :: key ++ [QUOTE]) ++ w2 ++ [c]);
      [apply consumes_skip; reflexivity | intros post _; reflexivity |].
    cbv beta.
    step_to_error (QUOTE :: key ++ [QUOTE]) (w2 ++ [c]);
      [apply consumes_key with (ok := fun _ => True); assumption | trivial |].
    cbv beta.
    step_to_error w2 [c];
      [apply consumes_skip; exact Hw2 | intros post _; exact Hc |].
    cbv beta.
    apply rejects_peek with (c := c); [reflexivity |].
    cbn [charIs]. rewrite Hcolon. cbn [negb]. apply rejects_throw. }
  pose proof (Hobject w rest [] I) as H.
  replace (w ++ (ch "{" :: w1 ++ (QUOTE :: key ++ [QUOTE]) ++ w2 ++ [c]) ++ rest)
    with (w ++ ch "{" :: w1 ++ (QUOTE :: key ++ [QUOTE]) ++ w2 ++ c :: rest) in H
    by text_eq.
  exact H.
Qed.

Lemma equals_sign_witness :
  @myParse IntegerNumbers 9 (qlit " { 'size' = 3 }") None
  = Throw (SyntaxError ExpectedColon).
Proof.
  apply (@key_without_colon_is_rejected IntegerNumbers (lit " ") (lit " ") (lit " ")
           (lit "size") (ch "=") (lit " 3 }") 8 None); try reflexivity.
  simpl. lia.
Defined.

(** X25. An array whose first element is not followed by a comma or
    the closing bracket: after the opening bracket, the text of a
    portable tree and a character that ends a number and is neither
    white space, comma nor closing bracket, [myParse] throws the error
    that a comma was expected, whatever white space stands around the
    bracket and the element. *)
Theorem element_without_comma_is_rejected {NI : NumberImpl}
        (indent w w1 w2 : jsstring) (depth : nat) (tv : value)
        (c : codeunit) (rest : jsstring) (fuel : nat) :
  forallb whitespace indent = true ->
  forallb whitespace w = true ->
  forallb whitespace w1 = true ->
  forallb whitespace w2 = true ->
  portable tv ->
  whitespace c = false ->
  numberStop (Some c) = true ->
  N.eqb c (ch "]") = false ->
  N.eqb c (ch ",") = false ->
  length (render indent depth tv) < fuel ->
  myParse (S fuel) (w ++ ch "[" :: w1 ++ render indent depth tv ++ w2 ++ c :: rest) None
  = Throw (SyntaxError ExpectedComma).
Proof.
  intros Hindent Hw Hw1 Hw2 Htv Hc Hstop Hbracket Hcomma Hfuel. apply myParse_Throw.
  rewrite parseValue_first by (try exact Hw; reflexivity).
  change (charIs QUOTE (Some (ch "["))) with false.
  change (charIs (ch "{") (Some (ch "["))) with false.
  change (charIs (ch "[") (Some (ch "["))) with true. cbv iota.
  destruct (render_head indent depth tv Htv) as (c0 & r0 & Hhead & Hc0 & Hc0b & _).
  destruct fuel as [|f]; [lia |].
  assert (Harray : rejects (fun json => parseArray json None (parseValue json None (S f)) (S f))
                           (ch "[" :: w1 ++ render indent depth tv ++ w2 ++ [c])
                           (SyntaxError ExpectedComma) (fun _ => True)).
  { unfold parseArray.
    step_to_error [ch "["] (w1 ++ render indent depth tv ++ w2 ++ [c]);
      [apply consumes_advance with (ok := fun _ => True) | intros post _; exact I |].
    cbv beta.
    step_to_error w1 (render indent depth tv ++ w2 ++ [c]);
      [apply consumes_skip; exact Hw1
      | intros post _; rewrite Hhead; exact Hc0 |].
    cbv beta.
    apply rejects_peek with (c := c0); [rewrite Hhead; reflexivity |].
    cbn [charIs]. rewrite Hc0b. cbv iota.
    apply rejects_first. cbn [parseArrayLoop].
    step_to_error (@nil codeunit) (render indent depth tv ++ w2 ++ [c]);
      [apply consumes_skip; reflexivity
      | intros post _; rewrite Hhead; exact Hc0 |].
    cbv beta.
    step_to_error (render indent depth tv) (w2 ++ [c]);
      [apply (@parseValue_render _ indent Hindent f tv depth Htv); lia
      | intros post _; apply afterValue_gap; assumption |].
    cbv beta.
    step_to_error w2 [c];
      [apply consumes_skip; exact Hw2 | intros post _; exact Hc |].
    cbv beta.
    apply rejects_peek with (c := c); [reflexivity |].
    cbn [charIs]. rewrite Hbracket, Hcomma.
    cbn [negb]. apply rejects_throw. }
  pose proof (Harray w rest [] I) as H.
  replace (w ++ (ch "[" :: w1 ++ render indent depth tv ++ w2 ++ [c]) ++ rest)
    with (w ++ ch "[" :: w1 ++ render indent depth tv ++ w2 ++ c :: rest) in H
    by text_eq.
  exact H.
Qed.

Lemma semicolon_witness :
  @myParse IntegerNumbers 12 (qlit "[ [true] ; 2]") None
  = Throw (SyntaxError ExpectedComma).
Proof.
  apply (@element_without_comma_is_rejected IntegerNumbers [] [] (lit " ") (lit " ") 0
           (VArray [Some (VBoolean true)]) (ch ";") (lit " 2]") 11);
    try reflexivity.
  - cbn. repeat constructor.
  - apply Nat.ltb_lt. reflexivity.
Defined.
